(** * keep-note-converter: the rich-text to Keep markup engine

    A shallow embedding of [src/lib/keepFormatter.ts].

    - JavaScript strings are sequences of UTF-16 code units ([jstring]).
    - Every regular expression of the source is transcribed as a
      deterministic matcher built from a few combinators; none of the
      source's expressions needs backtracking (a note at each matcher says
      why), so leftmost-greedy matching is what the combinators compute.
    - The DOM is a rose tree ([Node]); the tag stored in an element is the
      value the source reads as [element.tagName.toUpperCase()].
    - The browser primitives the source calls ([DOMParser], [innerHTML],
      [innerText]) are the fields of a [Platform]; the engine is parametric
      in it and [Browser.platform] is an executable model of them. *)

From Stdlib Require Import String Ascii.
From Stdlib Require Import List NArith ZArith Bool Lia DecimalPos.
Import ListNotations.

Set Implicit Arguments.

(* ================================================================== *)
(** * JavaScript strings *)
(* ================================================================== *)

Definition jchar := N.
Definition jstring := list jchar.

(** An ASCII literal as a JavaScript string. *)
Definition js (s : String.string) : jstring :=
  map N_of_ascii (list_ascii_of_string s).
Arguments js s%_string.

(** A literal in which a backquote stands for the double quote. *)
Definition jsq (s : String.string) : jstring :=
  map (fun c => if N.eqb c 96 then 34%N else c) (js s).
Arguments jsq s%_string.

Definition NBSP : jchar := 160%N.          (*   *)
Definition LF : jchar := 10%N.             (* \n *)
Definition LT : jchar := 60%N.             (* < *)
Definition GT : jchar := 62%N.             (* > *)
Definition AMP : jchar := 38%N.            (* & *)
Definition QUOT : jchar := 34%N.           (* double quote *)
Definition SLASH : jchar := 47%N.          (* / *)
Definition SPACE : jchar := 32%N.

Fixpoint jeqb (a b : jstring) : bool :=
  match a, b with
  | [], [] => true
  | x :: a', y :: b' => N.eqb x y && jeqb a' b'
  | _, _ => false
  end.

(** JavaScript truthiness of a string: non-empty. *)
Definition truthy (s : jstring) : bool :=
  match s with [] => false | _ => true end.

(** [\s] of a regular expression, which is also the set [trim] strips:
    WhiteSpace and LineTerminator of ECMAScript. *)
Definition isSpace (c : jchar) : bool :=
  ((9 <=? c) && (c <=? 13) || (c =? 32) || (c =? 160) || (c =? 5760)
   || ((8192 <=? c) && (c <=? 8202)) || (c =? 8232) || (c =? 8233)
   || (c =? 8239) || (c =? 8287) || (c =? 12288) || (c =? 65279))%N.

Fixpoint dropSpaces (s : jstring) : jstring :=
  match s with
  | c :: t => if isSpace c then dropSpaces t else s
  | [] => []
  end.

Fixpoint takeSpaces (s : jstring) : jstring :=
  match s with
  | c :: t => if isSpace c then c :: takeSpaces t else []
  | [] => []
  end.

Definition trimStart (s : jstring) : jstring := dropSpaces s.
Definition trimEnd (s : jstring) : jstring := rev (dropSpaces (rev s)).
Definition trim (s : jstring) : jstring := trimEnd (trimStart s).

(** [needle] is a prefix of [s]. *)
Fixpoint startsWith (needle s : jstring) : bool :=
  match needle, s with
  | [], _ => true
  | x :: n', y :: s' => N.eqb x y && startsWith n' s'
  | _ :: _, [] => false
  end.

(** [String.prototype.includes]. *)
Fixpoint includes (needle s : jstring) : bool :=
  startsWith needle s ||
  match s with
  | [] => false
  | _ :: t => includes needle t
  end.

(** [String.prototype.repeat]. *)
Fixpoint repeatStr (s : jstring) (n : nat) : jstring :=
  match n with
  | O => []
  | S k => s ++ repeatStr s k
  end.

(** [String.prototype.split] on a single separator character. *)
Fixpoint splitOn (sep : jchar) (s : jstring) : list jstring :=
  match s with
  | [] => [[]]
  | c :: t =>
      if N.eqb c sep then [] :: splitOn sep t
      else match splitOn sep t with
           | l :: ls => (c :: l) :: ls
           | [] => [[c]]
           end
  end.

(** [Array.prototype.join] with a separator string. *)
Fixpoint join (sep : jstring) (parts : list jstring) : jstring :=
  match parts with
  | [] => []
  | [p] => p
  | p :: ps => p ++ sep ++ join sep ps
  end.

(* ================================================================== *)
(** * Regular expressions as deterministic matchers *)
(* ================================================================== *)

(** A matcher, run at the head of a string, returns the text it matched
    and the rest of the string. *)
Definition matcher := jstring -> option (jstring * jstring).

(** ASCII lower case of one code unit.  Without the [u] flag, the [i] flag
    never lets a non-ASCII code unit match an ASCII one, so comparing the
    ASCII lower cases is case-insensitive matching of an ASCII pattern. *)
Definition lowerAscii (c : jchar) : jchar :=
  if ((65 <=? c) && (c <=? 90))%N then (c + 32)%N else c.

Definition charEq (ci : bool) (p c : jchar) : bool :=
  if ci then N.eqb (lowerAscii p) (lowerAscii c) else N.eqb p c.

(** A literal, case-insensitive when [ci]. *)
Fixpoint mLit (ci : bool) (p : jstring) : matcher :=
  fun s =>
    match p with
    | [] => Some ([], s)
    | x :: p' =>
        match s with
        | c :: t =>
            if charEq ci x c then
              match mLit ci p' t with
              | Some (m, r) => Some (c :: m, r)
              | None => None
              end
            else None
        | [] => None
        end
    end.

Definition mSeq (a b : matcher) : matcher :=
  fun s =>
    match a s with
    | Some (m1, r1) =>
        match b r1 with
        | Some (m2, r2) => Some (m1 ++ m2, r2)
        | None => None
        end
    | None => None
    end.

(** Ordered choice. *)
Definition mAlt (a b : matcher) : matcher :=
  fun s => match a s with Some x => Some x | None => b s end.

(** [x?], greedy. *)
Definition mOpt (a : matcher) : matcher :=
  fun s => match a s with Some x => Some x | None => Some ([], s) end.

(** [\s*] and [\s+], greedy. *)
Definition mSpaces0 : matcher :=
  fun s => Some (takeSpaces s, dropSpaces s).

Definition mSpaces1 : matcher :=
  fun s =>
    match s with
    | c :: _ => if isSpace c then Some (takeSpaces s, dropSpaces s) else None
    | [] => None
    end.

(** [[^>]*>]: everything up to and including the first [>]. *)
Fixpoint mToGt (s : jstring) : option (jstring * jstring) :=
  match s with
  | [] => None
  | c :: t =>
      if N.eqb c GT then Some ([c], t)
      else match mToGt t with
           | Some (m, r) => Some (c :: m, r)
           | None => None
           end
  end.

(** [x*], greedy; the fuel bounds the number of iterations and an
    iteration that consumes nothing ends the loop. *)
Fixpoint mStar (fuel : nat) (a : matcher) : matcher :=
  fun s =>
    match fuel with
    | O => Some ([], s)
    | S f =>
        match a s with
        | Some (m1, r1) =>
            if Nat.ltb (length r1) (length s) then
              match mStar f a r1 with
              | Some (m2, r2) => Some (m1 ++ m2, r2)
              | None => None
              end
            else Some ([], s)
        | None => Some ([], s)
        end
    end.

(** A rewrite rule of a [replace] call: the replacement text and the rest
    of the string after the match. *)
Definition rule := jstring -> option (jstring * jstring).

(** [String.prototype.replace] with a global expression whose matches are
    never empty: try the rule at each position from the left, and resume
    after a match. *)
Fixpoint replaceAllFuel (fuel : nat) (r : rule) (s : jstring) : jstring :=
  match fuel with
  | O => s
  | S f =>
      match s with
      | [] => []
      | c :: t =>
          match r s with
          | Some (out, rest) => out ++ replaceAllFuel f r rest
          | None => c :: replaceAllFuel f r t
          end
      end
  end.

Definition replaceAll (r : rule) (s : jstring) : jstring :=
  replaceAllFuel (length s) r s.

(** A rule that replaces every match of [m] by the constant [out]. *)
Definition constRule (m : matcher) (out : jstring) : rule :=
  fun s => match m s with Some (_, rest) => Some (out, rest) | None => None end.

(** A rule for the shape [(g1)tail] replaced by ["$1"]. *)
Definition keepFirst (g1 tail : matcher) : rule :=
  fun s =>
    match g1 s with
    | Some (m1, r1) =>
        match tail r1 with
        | Some (_, r2) => Some (m1, r2)
        | None => None
        end
    | None => None
    end.

(** A rule for the shape [head(g1)] replaced by ["$1"]. *)
Definition keepSecond (head g1 : matcher) : rule :=
  fun s =>
    match head s with
    | Some (_, r1) =>
        match g1 r1 with
        | Some (m2, r2) => Some (m2, r2)
        | None => None
        end
    | None => None
    end.

(** Replacement of every occurrence of one code unit. *)
Definition replaceChar (c : jchar) (out : jstring) (s : jstring) : jstring :=
  flat_map (fun x => if N.eqb x c then out else [x]) s.

(** A single code unit satisfying [p]. *)
Definition mChar (p : jchar -> bool) : matcher :=
  fun s =>
    match s with
    | c :: t => if p c then Some ([c], t) else None
    | [] => None
    end.

(** [x*] bounded by the length of the input, which is always enough. *)
Definition mMany (a : matcher) : matcher :=
  fun s => mStar (length s) a s.

(* ================================================================== *)
(** * JavaScript numbers, as far as the list counter needs them *)
(* ================================================================== *)

(** The list counter is a Number that starts at [parseInt(..., 10)] and is
    incremented by one: it is [NaN] or an integer.  Integers are exact
    here; a JavaScript Number is exact on them up to 2^53 in absolute
    value, which is the range the theorems about counters assume. *)
Inductive JsNumber :=
| NaN
| Num (z : Z).

Definition isDigit (c : jchar) : bool := ((48 <=? c) && (c <=? 57))%N.

Fixpoint takeDigits (s : jstring) : jstring :=
  match s with
  | c :: t => if isDigit c then c :: takeDigits t else []
  | [] => []
  end.

(** Value of a string of decimal digits, most significant first. *)
Definition digitsValue (ds : jstring) : Z :=
  fold_left (fun acc c => (acc * 10 + (Z.of_N c - 48))%Z) ds 0%Z.

(** [parseInt(s, 10)]: leading white space is skipped, then an optional
    sign, then the longest run of decimal digits; no digit gives [NaN]. *)
Definition parseInt10 (s : jstring) : JsNumber :=
  let s1 := dropSpaces s in
  let '(neg, s2) :=
    match s1 with
    | c :: t => if N.eqb c 45 then (true, t)
                else if N.eqb c 43 then (false, t) else (false, s1)
    | [] => (false, s1)
    end in
  match takeDigits s2 with
  | [] => NaN
  | ds => Num (if neg then - digitsValue ds else digitsValue ds)
  end.

Definition addOne (n : JsNumber) : JsNumber :=
  match n with
  | NaN => NaN
  | Num z => Num (z + 1)
  end.

Fixpoint uintChars (u : Decimal.uint) : jstring :=
  match u with
  | Decimal.Nil => []
  | Decimal.D0 u' => 48%N :: uintChars u'
  | Decimal.D1 u' => 49%N :: uintChars u'
  | Decimal.D2 u' => 50%N :: uintChars u'
  | Decimal.D3 u' => 51%N :: uintChars u'
  | Decimal.D4 u' => 52%N :: uintChars u'
  | Decimal.D5 u' => 53%N :: uintChars u'
  | Decimal.D6 u' => 54%N :: uintChars u'
  | Decimal.D7 u' => 55%N :: uintChars u'
  | Decimal.D8 u' => 56%N :: uintChars u'
  | Decimal.D9 u' => 57%N :: uintChars u'
  end.

(** The string a template literal makes of the counter. *)
Definition numberToString (n : JsNumber) : jstring :=
  match n with
  | NaN => js "NaN"
  | Num Z0 => js "0"
  | Num (Zpos p) => uintChars (Pos.to_uint p)
  | Num (Zneg p) => 45%N :: uintChars (Pos.to_uint p)
  end.

(* ================================================================== *)
(** * The DOM *)
(* ================================================================== *)

(** A node as the engine sees it.  [tagName] holds the value of
    [element.tagName.toUpperCase()]; [attributes] are in source order;
    a comment is the only other kind of node an HTML parser puts below
    the body. *)
#[warnings="-register-all"]
Inductive Node :=
| Text (data : jstring)
| Element (tagName : jstring) (attributes : list (jstring * jstring))
          (childNodes : list Node)
| Comment (data : jstring).

Definition isElement (n : Node) : bool :=
  match n with Element _ _ _ => true | _ => false end.

Definition hasTag (tag : jstring) (n : Node) : bool :=
  match n with Element t _ _ => jeqb t tag | _ => false end.

Definition children (n : Node) : list Node :=
  match n with
  | Element _ _ cs => filter isElement cs
  | _ => []
  end.

Definition childNodesOf (n : Node) : list Node :=
  match n with Element _ _ cs => cs | _ => [] end.

Definition attributesOf (n : Node) : list (jstring * jstring) :=
  match n with Element _ a _ => a | _ => [] end.

(** [element.getAttribute(name)], [None] for [null]. *)
Fixpoint getAttribute (attrs : list (jstring * jstring)) (name : jstring)
  : option jstring :=
  match attrs with
  | [] => None
  | (k, v) :: rest => if jeqb k name then Some v else getAttribute rest name
  end.

(** [element.setAttribute(name, value)]: the value of an existing
    attribute is replaced in place, a new attribute goes last. *)
Fixpoint setAttribute (attrs : list (jstring * jstring)) (name value : jstring)
  : list (jstring * jstring) :=
  match attrs with
  | [] => [(name, value)]
  | (k, v) :: rest =>
      if jeqb k name then (k, value) :: rest
      else (k, v) :: setAttribute rest name value
  end.

(* ================================================================== *)
(** * The serializer *)
(* ================================================================== *)

Definition inlineTagMap (tagName : jstring) : option jstring :=
  if jeqb tagName (js "B") then Some (js "b")
  else if jeqb tagName (js "STRONG") then Some (js "b")
  else if jeqb tagName (js "I") then Some (js "i")
  else if jeqb tagName (js "EM") then Some (js "i")
  else if jeqb tagName (js "U") then Some (js "u")
  else None.

Definition blockTags : list jstring :=
  [js "P"; js "DIV"; js "SECTION"; js "ARTICLE"; js "HEADER"; js "FOOTER";
   js "H1"; js "H2"; js "BR"; js "OL"; js "UL"].

Definition setHas (set : list jstring) (x : jstring) : bool :=
  existsb (jeqb x) set.

(** [/^H[1-6]$/.test(tagName)] *)
Definition isHeadingTag (tagName : jstring) : bool :=
  match tagName with
  | [h; d] => N.eqb h 72 && (49 <=? d)%N && (d <=? 54)%N
  | _ => false
  end.

Definition isListTag (tagName : jstring) : bool :=
  jeqb tagName (js "OL") || jeqb tagName (js "UL").

(** A direct child that is an [OL] or [UL] element. *)
Definition isNestedList (child : Node) : bool :=
  match child with
  | Element t _ _ => isListTag t
  | _ => false
  end.

(** [value.replace(/\s+/g, " ")] *)
Definition collapseSpaces (value : jstring) : jstring :=
  replaceAll (constRule mSpaces1 (js " ")) value.

Definition escapeHtml (value : jstring) : jstring :=
  replaceChar QUOT (js "&quot;")
    (replaceChar GT (js "&gt;")
       (replaceChar LT (js "&lt;")
          (replaceChar AMP (js "&amp;")
             (replaceChar NBSP (js " ") value)))).

(** [<br\s*\/?>] with the [i] flag.  After [<br] the white space is taken
    greedily; what follows it is not white space, so giving some of it
    back cannot help [\/?>] to match. *)
Definition reBr : matcher :=
  mSeq (mLit true (js "<br"))
    (mSeq mSpaces0 (mSeq (mOpt (mLit false (js "/"))) (mLit false (js ">")))).

(** [<[^>]+>] *)
Definition reTag1 : matcher :=
  mSeq (mLit false (js "<"))
    (mSeq (mChar (fun c => negb (N.eqb c GT))) mToGt).

(** [<[^>]*>] *)
Definition reTag0 : matcher :=
  mSeq (mLit false (js "<")) mToGt.

Definition isEffectivelyEmpty (fragment : jstring) : bool :=
  let stripped :=
    replaceAll (constRule mSpaces1 [])
      (replaceAll (constRule reTag1 [])
         (replaceAll (constRule (mLit true (js "&nbsp;")) (js " "))
            (replaceAll (constRule reBr []) fragment))) in
  Nat.eqb (length stripped) 0.

Definition wrapParagraph (content : jstring) : jstring :=
  if negb (truthy content) then []
  else if isEffectivelyEmpty content then []
  else js "<p>" ++ trim content ++ js "</p>".

Definition wrapTag (tag inner : jstring) : jstring :=
  js "<" ++ tag ++ js ">" ++ inner ++ js "</" ++ tag ++ js ">".

(** [depth > 0 ? "&nbsp;".repeat(depth * 4) : ""] *)
Definition indentOf (depth : nat) : jstring :=
  match depth with
  | O => []
  | _ => repeatStr (js "&nbsp;") (depth * 4)
  end.

(** The prefix of an item: the counter and [". "], or ["- "]. *)
Definition prefixOf (isOrdered : bool) (current : JsNumber) : jstring :=
  if isOrdered then numberToString current ++ js ". " else js "- ".

(** [inlineContent || "&nbsp;"] *)
Definition lineContentOf (inlineContent : jstring) : jstring :=
  if truthy inlineContent then inlineContent else js "&nbsp;".

(** The paragraph of one list item. *)
Definition itemParagraph (isOrdered : bool) (depth : nat) (current : JsNumber)
    (inlineContent : jstring) : jstring :=
  js "<p>" ++ indentOf depth ++ prefixOf isOrdered current
    ++ lineContentOf inlineContent ++ js "</p>".

Definition startValueOf (isOrdered : bool) (attrs : list (jstring * jstring))
  : JsNumber :=
  if isOrdered then
    parseInt10 (match getAttribute attrs (js "start") with
                | Some v => v
                | None => js "1"
                end)
  else Num 1.

(** [serializeNode].  The list branch is [convertList] unfolded in place:
    a nested list is reached through the node that holds it, and
    [serializeNode] on an [OL] or [UL] is [convertList] whatever the inline
    flag ([serializeNode_list] and [convertList_listLoop] below give the
    source's own equations). *)
Fixpoint serializeNode (node : Node) (inlineContext : bool) (depth : nat)
  {struct node} : jstring :=
  match node with
  | Text data => escapeHtml (collapseSpaces data)
  | Comment _ => []
  | Element tagName attrs childNodes =>
      let serializeChildren (ic : bool) :=
        concat (map (fun child => serializeNode child ic depth) childNodes) in
      if jeqb tagName (js "SCRIPT") || jeqb tagName (js "STYLE") then []
      else
        match inlineTagMap tagName with
        | Some tag =>
            let inner := serializeChildren true in
            if truthy inner then wrapTag tag inner else []
        | None =>
            if isHeadingTag tagName then
              let level := if jeqb tagName (js "H1") then js "h1" else js "h2" in
              let inner := serializeChildren true in
              if truthy inner then wrapTag level inner else []
            else if jeqb tagName (js "BR") then js "<br />"
            else if isListTag tagName then
              let isOrdered := jeqb tagName (js "OL") in
              (fix items (l : list Node) (current : JsNumber) : jstring :=
                 match l with
                 | [] => []
                 | item :: rest =>
                     match item with
                     | Element t _ liNodes =>
                         if jeqb t (js "LI") then
                           let inlineContent :=
                             trim (concat (map (fun child =>
                               if isNestedList child then []
                               else serializeNode child true depth) liNodes)) in
                           let nestedOut :=
                             concat (map (fun child =>
                               if isNestedList child
                               then serializeNode child true (S depth)
                               else []) liNodes) in
                           itemParagraph isOrdered depth current inlineContent
                             ++ nestedOut ++ items rest (addOne current)
                         else items rest current
                     | _ => items rest current
                     end
                 end) childNodes (startValueOf isOrdered attrs)
            else if setHas blockTags tagName && negb inlineContext then
              wrapParagraph (serializeChildren false)
            else
              let inner := serializeChildren inlineContext in
              if inlineContext then inner else wrapParagraph inner
        end
  end.

Definition serializeChildren (element : Node) (inlineContext : bool)
    (depth : nat) : jstring :=
  concat (map (fun child => serializeNode child inlineContext depth)
              (childNodesOf element)).

(** The loop of [convertList] over the child nodes of a list, as
    [serializeNode] runs it. *)
Fixpoint listLoop (isOrdered : bool) (depth : nat) (l : list Node)
    (current : JsNumber) : jstring :=
  match l with
  | [] => []
  | item :: rest =>
      match item with
      | Element t _ liNodes =>
          if jeqb t (js "LI") then
            let inlineContent :=
              trim (concat (map (fun child =>
                if isNestedList child then []
                else serializeNode child true depth) liNodes)) in
            let nestedOut :=
              concat (map (fun child =>
                if isNestedList child
                then serializeNode child true (S depth)
                else []) liNodes) in
            itemParagraph isOrdered depth current inlineContent
              ++ nestedOut ++ listLoop isOrdered depth rest (addOne current)
          else listLoop isOrdered depth rest current
      | _ => listLoop isOrdered depth rest current
      end
  end.

(** The direct [li] children of a list element. *)
Definition listItemsOf (listElement : Node) : list Node :=
  filter (hasTag (js "LI")) (children listElement).

(** The sublists of an item: its child nodes that are [OL] or [UL]. *)
Definition nestedOf (li : Node) : list Node :=
  filter isNestedList (childNodesOf li).

(** The inline content of an item: its other child nodes, serialized in
    inline context and trimmed. *)
Definition inlineContentOf (depth : nat) (li : Node) : jstring :=
  trim (concat (map (fun child => serializeNode child true depth)
          (filter (fun child => negb (isNestedList child))
                  (childNodesOf li)))).

(** [convertList], in the source's shape: the counter and the fragments
    are the state of the [forEach]. *)
Definition convertList (listElement : Node) (isOrdered : bool) (depth : nat)
  : jstring :=
  let items := listItemsOf listElement in
  match items with
  | [] => []
  | _ =>
      let startValue :=
        startValueOf isOrdered (attributesOf listElement) in
      let step (acc : JsNumber * list jstring) (li : Node) :=
        let '(current, fragments) := acc in
        let fragments1 :=
          fragments ++ [itemParagraph isOrdered depth current
                          (inlineContentOf depth li)] in
        let fragments2 :=
          fragments1 ++
          map (fun nestedList =>
                 serializeNode nestedList true (S depth)) (nestedOf li) in
        (addOne current, fragments2) in
      concat (snd (fold_left step items (startValue, [])))
  end.

(** What the sublists of an item contribute, each converted one level
    deeper. *)
Definition nestedOutputOf (depth : nat) (li : Node) : jstring :=
  concat (map (fun nestedList =>
                 convertList nestedList (hasTag (js "OL") nestedList) (S depth))
              (nestedOf li)).


(* ================================================================== *)
(** * The output cleaner *)
(* ================================================================== *)

(** [<p>(?:\s|&nbsp;|<br\s*\/?>)*<\/p>] with the [i] flag.  The three
    alternatives of the loop start with white space, [&] and [<b]; the
    closing [</p>] starts with [</].  So once the greedy loop stops, no
    shorter run of iterations can be followed by [</p>]. *)
Definition reEmptyParagraph : matcher :=
  mSeq (mLit true (js "<p>"))
    (mSeq (mMany (mAlt (mChar isSpace)
                    (mAlt (mLit true (js "&nbsp;")) reBr)))
          (mLit true (js "</p>"))).

(** [<p[^>]*>] with the [i] flag. *)
Definition reOpenP : matcher := mSeq (mLit true (js "<p")) mToGt.

(** [<h[12][^>]*>] with the [i] flag. *)
Definition reOpenHeading : matcher :=
  mSeq (mLit true (js "<h"))
    (mSeq (mChar (fun c => N.eqb c 49 || N.eqb c 50)) mToGt).

(** [<\/?(?:h1|h2|p|br)[^>]*>] with the [i] flag.  The names start
    differently or differ in their second character, and [[^>]*>] accepts
    whatever follows a name up to the next [>], so the first name that
    matches decides. *)
Definition reBlockTag : matcher :=
  mSeq (mLit false (js "<"))
    (mSeq (mOpt (mLit false (js "/")))
       (mSeq (mAlt (mLit true (js "h1"))
                (mAlt (mLit true (js "h2"))
                   (mAlt (mLit true (js "p")) (mLit true (js "br")))))
             mToGt)).

Definition cleanupOutput (markup : jstring) : jstring :=
  trim
    (replaceAll (keepSecond mSpaces1 reBlockTag)
       (replaceAll (keepFirst reBr mSpaces1)
          (replaceAll (keepFirst reOpenHeading mSpaces1)
             (replaceAll (keepFirst reOpenP mSpaces1)
                (replaceAll (constRule reEmptyParagraph []) markup))))).

(* ================================================================== *)
(** * The plain-text projector *)
(* ================================================================== *)

(** [<\/(?:p|ol|ul)>] with the [i] flag. *)
Definition reCloseBlock : matcher :=
  mSeq (mLit false (js "</"))
    (mSeq (mAlt (mLit true (js "p"))
             (mAlt (mLit true (js "ol")) (mLit true (js "ul"))))
          (mLit false (js ">"))).

(** The first expression of [injectHeadingSeparators]: group 1 is
    [<\/(?:p|ol|ul)>], group 2 is [\s*], group 3 is [<h[12][^>]*>], and the
    replacement puts [<p>&nbsp;</p>] between groups 1 and 2.  White space
    is never [<], so the greedy group 2 needs no backtracking. *)
Definition separatorRule : rule :=
  fun s =>
    match reCloseBlock s with
    | Some (g1, r1) =>
        match mSpaces0 r1 with
        | Some (g2, r2) =>
            match reOpenHeading r2 with
            | Some (g3, r3) => Some (g1 ++ js "<p>&nbsp;</p>" ++ g2 ++ g3, r3)
            | None => None
            end
        | None => None
        end
    | None => None
    end.

Definition injectHeadingSeparators (markup : jstring) : jstring :=
  let updated := replaceAll separatorRule markup in
  (* /^(\s*<h[12][^>]*>)/i, not global: only at the start *)
  match mSeq mSpaces0 reOpenHeading updated with
  | Some _ => js "<p>&nbsp;</p>" ++ updated
  | None => updated
  end.

(** [<\/h[12]>] with the [i] flag. *)
Definition reCloseHeading : matcher :=
  mSeq (mLit true (js "</h"))
    (mSeq (mChar (fun c => N.eqb c 49 || N.eqb c 50)) (mLit false (js ">"))).

(** [\n{2,}] *)
Definition reBlankLines : matcher :=
  mSeq (mLit false [LF; LF]) (mMany (mChar (N.eqb LF))).

Definition normalizeLine (line : jstring) : jstring :=
  if startsWith (js "    ") line then line else dropSpaces line.

(* ================================================================== *)
(** * The clipboard projector *)
(* ================================================================== *)

Definition KEEP_BLOCK_STYLE : jstring :=
  js "line-height:1.38;margin-top:0pt;margin-bottom:0pt;".
Definition KEEP_TEXT_BASE : jstring :=
  js "font-size:11pt;font-family:'Google Sans Text';color:#000000;background-color:transparent;font-weight:400;font-style:normal;font-variant:normal;text-decoration:none;vertical-align:baseline;white-space:pre;white-space:pre-wrap;".
Definition KEEP_H1_TEXT : jstring :=
  js "font-size:15pt;font-family:'Google Sans';color:#000000;background-color:transparent;font-weight:400;font-style:normal;font-variant:normal;text-decoration:none;vertical-align:baseline;white-space:pre;white-space:pre-wrap;".
Definition KEEP_H2_TEXT : jstring :=
  js "font-size:13.5pt;font-family:'Google Sans';color:#000000;background-color:transparent;font-weight:400;font-style:normal;font-variant:normal;text-decoration:none;vertical-align:baseline;white-space:pre;white-space:pre-wrap;".

(** [wrapChildrenWithSpan]: the children of the block move into one new
    span, which becomes the block's only child. *)
Definition wrapChildrenWithSpan (blockChildren : list Node)
    (spanStyle : jstring) : list Node :=
  [Element (js "SPAN") [(js "style", spanStyle)] blockChildren].

(** The loop over [querySelectorAll("p,h1,h2")]: every [p], [h1] and [h2]
    below the body gets the two attributes and the span.  A block nested
    in another block is reached inside that block's span, so the loop over
    the static list is this one pass over the tree. *)
Fixpoint decorateBlocks (node : Node) : Node :=
  match node with
  | Element tagName attrs childNodes =>
      let kids := map decorateBlocks childNodes in
      if jeqb tagName (js "P") || jeqb tagName (js "H1")
         || jeqb tagName (js "H2") then
        let spanStyle :=
          if jeqb tagName (js "H1") then KEEP_H1_TEXT
          else if jeqb tagName (js "H2") then KEEP_H2_TEXT
          else KEEP_TEXT_BASE in
        Element tagName
          (setAttribute (setAttribute attrs (js "dir") (js "ltr"))
             (js "style") KEEP_BLOCK_STYLE)
          (wrapChildrenWithSpan kids spanStyle)
      else Element tagName attrs kids
  | other => other
  end.

(* ================================================================== *)
(** * The conversion *)
(* ================================================================== *)

(** The browser primitives the engine calls. *)
Record Platform := {
  (* new DOMParser().parseFromString(s, 'text/html').body.childNodes *)
  parseBody : jstring -> list Node;
  (* body.innerHTML of a document whose body holds these nodes *)
  innerHTML : list Node -> jstring;
  (* tmp.innerHTML = s; tmp.innerText, on a detached div *)
  innerText : jstring -> jstring
}.

Record ConvertedMarkup := {
  html : jstring;
  keepHtml : jstring;
  plainText : jstring
}.

(** What reading a property of the result object gives. *)
Inductive JsValue :=
| JsUndefined
| JsString (s : jstring).

Definition getProperty (r : ConvertedMarkup) (key : String.string) : JsValue :=
  if String.eqb key "html"%string then JsString (html r)
  else if String.eqb key "keepHtml"%string then JsString (keepHtml r)
  else if String.eqb key "plainText"%string then JsString (plainText r)
  else JsUndefined.

(** [rawHtml.replace(/\u00a0/g, " ")] *)
Definition normalizeInput (rawHtml : jstring) : jstring :=
  replaceChar NBSP (js " ") rawHtml.

(** [normalizedInput.replace(/<[^>]*>/g, "").trim()] *)
Definition textOnlyOf (normalizedInput : jstring) : jstring :=
  trim (replaceAll (constRule reTag0 []) normalizedInput).

Section Engine.

Variable platform : Platform.

Definition markupToPlainText (markup : jstring) : jstring :=
  if negb (truthy markup) then []
  else
    let source :=
      replaceAll (constRule reCloseHeading [LF])
        (replaceAll (constRule (mLit true (js "</p>")) [LF])
           (replaceAll (constRule reBr [LF])
              (injectHeadingSeparators markup))) in
    let textContent := replaceChar NBSP (js " ") (innerText platform source) in
    let normalizedLines :=
      join [LF] (map normalizeLine (splitOn LF textContent)) in
    trim (replaceAll (constRule reBlankLines [LF; LF]) normalizedLines).

Definition convertToKeepClipboardHtml (markup : jstring) : jstring :=
  if negb (truthy markup) then []
  else
    let body := parseBody platform (js "<div>" ++ markup ++ js "</div>") in
    innerHTML platform (map decorateBlocks body).

Definition convertRichTextToKeepMarkup (rawHtml : jstring) : ConvertedMarkup :=
  let normalizedInput := normalizeInput rawHtml in
  let textOnly := textOnlyOf normalizedInput in
  if negb (truthy textOnly) then
    {| html := []; keepHtml := []; plainText := [] |}
  else
    let body := parseBody platform
                  (js "<div>" ++ normalizedInput ++ js "</div>") in
    let fragments :=
      concat (filter truthy
                (map (fun node => serializeNode node false 0) body)) in
    let cleanHtml := cleanupOutput fragments in
    {| html := cleanHtml;
       keepHtml := convertToKeepClipboardHtml cleanHtml;
       plainText := markupToPlainText cleanHtml |}.

End Engine.

(* ================================================================== *)
(** * A model of the browser primitives *)
(* ================================================================== *)

(** An executable model of the HTML parser and serializer behind
    [DOMParser], [innerHTML] and [innerText], following the tokenizer and
    the "in body" tree construction rules of the HTML standard for the
    markup the engine reads and writes: text, the character references
    [&amp;] [&lt;] [&gt;] [&quot;] [&apos;] [&nbsp;] and [&#N;], comments, start and
    end tags with attributes, void elements, the raw text of [script] and
    [style], the implied end of [p] and [li], and the scoping rules for
    end tags.  Inline formatting elements are taken to be closed where
    they were opened: the reordering of misnested formatting, tables,
    forms, [select] and [template] are outside the model. *)
Module Browser.

Inductive Token :=
| TChar (c : jchar)
| TStart (name : jstring) (attrs : list (jstring * jstring))
| TEnd (name : jstring)
| TComment (data : jstring).

(** ASCII white space of the HTML standard. *)
Definition isHtmlSpace (c : jchar) : bool :=
  ((c =? 9) || (c =? 10) || (c =? 12) || (c =? 13) || (c =? 32))%N.

Definition isAsciiAlpha (c : jchar) : bool :=
  (((65 <=? c) && (c <=? 90)) || ((97 <=? c) && (c <=? 122)))%N.

Definition upperAscii (c : jchar) : jchar :=
  if ((97 <=? c) && (c <=? 122))%N then (c - 32)%N else c.

Fixpoint skipHtmlSpaces (s : jstring) : jstring :=
  match s with
  | c :: t => if isHtmlSpace c then skipHtmlSpaces t else s
  | [] => []
  end.

(** The longest prefix of code units that do not satisfy [stop], and
    the rest. *)
Fixpoint spanUntil (stop : jchar -> bool) (s : jstring) : jstring * jstring :=
  match s with
  | [] => ([], [])
  | c :: t =>
      if stop c then ([], s)
      else let '(a, b) := spanUntil stop t in (c :: a, b)
  end.

(** A character reference after [&]: the code unit and the rest. *)
Definition namedRefs : list (jstring * jchar) :=
  [(js "nbsp;", 160%N); (js "amp;", 38%N); (js "lt;", 60%N);
   (js "gt;", 62%N); (js "quot;", 34%N); (js "apos;", 39%N)].

Fixpoint dropPrefix (p s : jstring) : option jstring :=
  match p, s with
  | [], _ => Some s
  | x :: p', y :: s' => if N.eqb x y then dropPrefix p' s' else None
  | _ :: _, [] => None
  end.

Fixpoint lookupRef (refs : list (jstring * jchar)) (s : jstring)
  : option (jchar * jstring) :=
  match refs with
  | [] => None
  | (name, c) :: more =>
      match dropPrefix name s with
      | Some rest => Some (c, rest)
      | None => lookupRef more s
      end
  end.

Definition numericRef (s : jstring) : option (jchar * jstring) :=
  match s with
  | h :: t =>
      if N.eqb h 35 then
        match takeDigits t with
        | [] => None
        | ds =>
            match skipn (length ds) t with
            | semi :: rest =>
                if N.eqb semi 59
                then Some (Z.to_N (digitsValue ds), rest)
                else None
            | [] => None
            end
        end
      else None
  | [] => None
  end.

Definition charRef (s : jstring) : option (jchar * jstring) :=
  match lookupRef namedRefs s with
  | Some r => Some r
  | None => numericRef s
  end.

(** Text with its character references decoded (attribute values). *)
Fixpoint decodeRefs (fuel : nat) (s : jstring) : jstring :=
  match fuel with
  | O => s
  | S f =>
      match s with
      | [] => []
      | c :: t =>
          if N.eqb c AMP then
            match charRef t with
            | Some (d, rest) => d :: decodeRefs f rest
            | None => c :: decodeRefs f t
            end
          else c :: decodeRefs f t
      end
  end.

Definition isNameEnd (c : jchar) : bool :=
  isHtmlSpace c || N.eqb c SLASH || N.eqb c GT.

(** The attributes of a start tag, from just after the tag name up to
    the closing [>]; [None] when the input ends inside the tag. *)
Fixpoint scanAttrs (fuel : nat) (s : jstring)
  : option (list (jstring * jstring) * jstring) :=
  match fuel with
  | O => None
  | S f =>
      match skipHtmlSpaces s with
      | [] => None
      | c :: t =>
          if N.eqb c GT then Some ([], t)
          else if N.eqb c SLASH then scanAttrs f t
          else
            let '(name, r1) :=
              spanUntil (fun x => isNameEnd x || N.eqb x 61) (c :: t) in
            let name := map lowerAscii name in
            let r2 := skipHtmlSpaces r1 in
            let '(value, r3) :=
              match r2 with
              | e :: r =>
                  if N.eqb e 61 then
                    match skipHtmlSpaces r with
                    | q :: r' =>
                        if N.eqb q 34 || N.eqb q 39 then
                          let '(v, r'') := spanUntil (N.eqb q) r' in
                          (v, tl r'')
                        else
                          spanUntil (fun x => isHtmlSpace x || N.eqb x GT)
                                    (q :: r')
                    | [] => ([], [])
                    end
                  else ([], r2)
              | [] => ([], r2)
              end in
            match name with
            | [] => None
            | _ =>
                match scanAttrs f r3 with
                | Some (more, rest) =>
                    let value := decodeRefs (length value) value in
                    Some ((name, value)
                            :: filter (fun kv => negb (jeqb (fst kv) name)) more,
                          rest)
                | None => None
                end
            end
      end
  end.

(** The raw text of a [script] or [style] element: everything up to the
    matching end tag, and what follows that tag. *)
Fixpoint rawText (name : jstring) (s : jstring) : jstring * jstring :=
  match s with
  | [] => ([], [])
  | c :: t =>
      match mLit true (js "</" ++ name) s with
      | Some (_, after) =>
          match after with
          | x :: _ =>
              if isNameEnd x then
                ([], match mToGt after with
                     | Some (_, rest) => rest
                     | None => []
                     end)
              else let '(a, b) := rawText name t in (c :: a, b)
          | [] => let '(a, b) := rawText name t in (c :: a, b)
          end
      | None => let '(a, b) := rawText name t in (c :: a, b)
      end
  end.

Definition isRawTextTag (name : jstring) : bool :=
  jeqb name (js "script") || jeqb name (js "style").

(** The text of a comment opened by [<!--], and what follows [-->]. *)
Fixpoint commentText (s : jstring) : jstring * jstring :=
  match s with
  | [] => ([], [])
  | c :: t =>
      match dropPrefix (js "-->") s with
      | Some rest => ([], rest)
      | None => let '(a, b) := commentText t in (c :: a, b)
      end
  end.

(** The tokenizer, in its data state. *)
Fixpoint tokenizeFuel (fuel : nat) (s : jstring) : list Token :=
  match fuel with
  | O => []
  | S f =>
      match s with
      | [] => []
      | c :: t =>
          if N.eqb c AMP then
            match charRef t with
            | Some (d, rest) => TChar d :: tokenizeFuel f rest
            | None => TChar c :: tokenizeFuel f t
            end
          else if N.eqb c LT then
            match t with
            | x :: t' =>
                if isAsciiAlpha x then
                  let '(name, r1) := spanUntil isNameEnd t in
                  let name := map lowerAscii name in
                  match scanAttrs (S (length r1)) r1 with
                  | Some (attrs, rest) =>
                      if isRawTextTag name then
                        let '(text, rest') := rawText name rest in
                        TStart name attrs
                          :: map TChar text ++ TEnd name :: tokenizeFuel f rest'
                      else TStart name attrs :: tokenizeFuel f rest
                  | None => []
                  end
                else if N.eqb x SLASH then
                  match t' with
                  | y :: _ =>
                      if isAsciiAlpha y then
                        let '(name, r1) := spanUntil isNameEnd t' in
                        match mToGt r1 with
                        | Some (_, rest) =>
                            TEnd (map lowerAscii name) :: tokenizeFuel f rest
                        | None => []
                        end
                      else if N.eqb y GT then tokenizeFuel f (tl t')
                      else
                        match mToGt t' with
                        | Some (m, rest) =>
                            TComment (removelast m) :: tokenizeFuel f rest
                        | None => [TComment t']
                        end
                  | [] => [TChar c; TChar x]
                  end
                else if N.eqb x 33 then
                  match dropPrefix (js "--") t' with
                  | Some body =>
                      let '(text, rest) := commentText body in
                      TComment text :: tokenizeFuel f rest
                  | None =>
                      match mToGt t' with
                      | Some (m, rest) =>
                          TComment (removelast m) :: tokenizeFuel f rest
                      | None => [TComment t']
                      end
                  end
                else if N.eqb x 63 then
                  match mToGt t with
                  | Some (m, rest) =>
                      TComment (removelast m) :: tokenizeFuel f rest
                  | None => [TComment t]
                  end
                else TChar c :: tokenizeFuel f t
            | [] => [TChar c]
            end
          else TChar c :: tokenizeFuel f t
      end
  end.

Definition tokenize (s : jstring) : list Token :=
  tokenizeFuel (length s) s.

(** ** Tree construction *)

(** An element whose end has not been seen yet: its name in lower case,
    its attributes and its children so far, last child first. *)
Record Frame := {
  fName : jstring;
  fAttrs : list (jstring * jstring);
  fKids : list Node
}.

Definition nodeOfFrame (f : Frame) : Node :=
  Element (map upperAscii (fName f)) (fAttrs f) (rev (fKids f)).

Definition addKid (n : Node) (f : Frame) : Frame :=
  {| fName := fName f; fAttrs := fAttrs f; fKids := n :: fKids f |}.

(** The stack of open elements, current node first; the last frame is
    the body and is never popped. *)
Definition Stack := list Frame.

Definition appendNode (n : Node) (st : Stack) : Stack :=
  match st with
  | top :: below => addKid n top :: below
  | [] => []
  end.

(** A character goes to the text node that ends the current node, or to
    a new one. *)
Definition appendChar (c : jchar) (st : Stack) : Stack :=
  match st with
  | top :: below =>
      match fKids top with
      | Text d :: older =>
          {| fName := fName top; fAttrs := fAttrs top;
             fKids := Text (d ++ [c]) :: older |} :: below
      | _ => addKid (Text [c]) top :: below
      end
  | [] => []
  end.

Definition pop (st : Stack) : Stack :=
  match st with
  | top :: parent :: below => addKid (nodeOfFrame top) parent :: below
  | _ => st
  end.

Definition push (name : jstring) (attrs : list (jstring * jstring))
    (st : Stack) : Stack :=
  {| fName := name; fAttrs := attrs; fKids := [] |} :: st.

Definition oneOf (names : list jstring) (name : jstring) : bool :=
  existsb (jeqb name) names.

Definition headingNames : list jstring :=
  [js "h1"; js "h2"; js "h3"; js "h4"; js "h5"; js "h6"].

(** Start tags that close an open [p] and open a block. *)
Definition blockNames : list jstring :=
  [js "address"; js "article"; js "aside"; js "blockquote"; js "center";
   js "details"; js "dialog"; js "dir"; js "div"; js "dl"; js "fieldset";
   js "figcaption"; js "figure"; js "footer"; js "header"; js "hgroup";
   js "main"; js "menu"; js "nav"; js "ol"; js "p"; js "search";
   js "section"; js "summary"; js "ul"; js "pre"; js "listing"].

Definition voidNames : list jstring :=
  [js "area"; js "base"; js "br"; js "col"; js "embed"; js "hr"; js "img";
   js "input"; js "link"; js "meta"; js "param"; js "source"; js "track";
   js "wbr"].

Definition impliedEndNames : list jstring :=
  [js "dd"; js "dt"; js "li"; js "optgroup"; js "option"; js "p"; js "rb";
   js "rp"; js "rt"; js "rtc"].

Definition scopeMarkers : list jstring :=
  [js "applet"; js "caption"; js "html"; js "table"; js "td"; js "th";
   js "marquee"; js "object"; js "template"].

Definition specialNames : list jstring :=
  blockNames ++ headingNames ++ voidNames ++
  [js "applet"; js "body"; js "button"; js "caption"; js "colgroup";
   js "dd"; js "dt"; js "form"; js "head"; js "html"; js "iframe"; js "li";
   js "marquee"; js "noscript"; js "object"; js "script"; js "select";
   js "style"; js "table"; js "tbody"; js "td"; js "template";
   js "textarea"; js "tfoot"; js "th"; js "thead"; js "title"; js "tr";
   js "xmp"].

(** "Has an element in scope": an open element satisfying [target] is
    met before any of the [markers], going down from the current
    node.  The body itself is no target. *)
Fixpoint inScope (target : jstring -> bool) (markers : list jstring)
    (st : Stack) : bool :=
  match st with
  | top :: ((_ :: _) as below) =>
      if target (fName top) then true
      else if oneOf markers (fName top) then false
      else inScope target markers below
  | _ => false
  end.

Definition inButtonScope (name : jstring) (st : Stack) : bool :=
  inScope (jeqb name) (js "button" :: scopeMarkers) st.

(** Pop while the current node is one of the names. *)
Fixpoint popWhile (fuel : nat) (names : jstring -> bool) (st : Stack)
  : Stack :=
  match fuel with
  | O => st
  | S f =>
      match st with
      | top :: _ :: _ =>
          if names (fName top) then popWhile f names (pop st) else st
      | _ => st
      end
  end.

(** "Generate implied end tags" but for one name. *)
Definition impliedEnds (except : jstring) (st : Stack) : Stack :=
  popWhile (length st)
    (fun n => oneOf impliedEndNames n && negb (jeqb n except)) st.

(** Pop up to and including the first open element satisfying
    [target]. *)
Fixpoint popUntil (fuel : nat) (target : jstring -> bool) (st : Stack)
  : Stack :=
  match fuel with
  | O => st
  | S f =>
      match st with
      | top :: _ :: _ =>
          if target (fName top) then pop st
          else popUntil f target (pop st)
      | _ => st
      end
  end.

(** "Close a p element". *)
Definition closeP (st : Stack) : Stack :=
  let st1 := impliedEnds (js "p") st in
  popUntil (length st1) (jeqb (js "p")) st1.

Definition closePIfOpen (st : Stack) : Stack :=
  if inButtonScope (js "p") st then closeP st else st.

(** The loop a [li] start tag runs to end an open [li]. *)
Fixpoint closeOpenLi (look : Stack) (st : Stack) : Stack :=
  match look with
  | top :: ((_ :: _) as below) =>
      if jeqb (fName top) (js "li") then
        let st1 := impliedEnds (js "li") st in
        popUntil (length st1) (jeqb (js "li")) st1
      else if oneOf specialNames (fName top)
              && negb (oneOf [js "address"; js "div"; js "p"] (fName top))
      then st
      else closeOpenLi below st
  | _ => st
  end.

(** "Any other end tag". *)
Fixpoint closeOther (name : jstring) (look : Stack) (st : Stack) : Stack :=
  match look with
  | top :: ((_ :: _) as below) =>
      if jeqb (fName top) name then
        let st1 := impliedEnds name st in
        popUntil (length st1) (jeqb name) st1
      else if oneOf specialNames (fName top) then st
      else closeOther name below st
  | _ => st
  end.

Definition startTag (name : jstring) (attrs : list (jstring * jstring))
    (st : Stack) : Stack :=
  if oneOf [js "html"; js "head"; js "body"] name then st
  else if oneOf blockNames name then push name attrs (closePIfOpen st)
  else if oneOf headingNames name then
    let st1 := closePIfOpen st in
    let st2 := match st1 with
               | top :: _ :: _ =>
                   if oneOf headingNames (fName top) then pop st1 else st1
               | _ => st1
               end in
    push name attrs st2
  else if jeqb name (js "li") then
    push name attrs (closePIfOpen (closeOpenLi st st))
  else if jeqb name (js "hr") then
    pop (push name attrs (closePIfOpen st))
  else if oneOf voidNames name then pop (push name attrs st)
  else push name attrs st.

Definition endTag (name : jstring) (st : Stack) : Stack :=
  if oneOf [js "html"; js "head"; js "body"] name then st
  else if jeqb name (js "p") then
    closeP (if inButtonScope (js "p") st then st else push (js "p") [] st)
  else if jeqb name (js "li") then
    if inScope (jeqb (js "li")) (js "ol" :: js "ul" :: scopeMarkers) st then
      let st1 := impliedEnds (js "li") st in
      popUntil (length st1) (jeqb (js "li")) st1
    else st
  else if oneOf headingNames name then
    if inScope (oneOf headingNames) scopeMarkers st then
      let st1 := impliedEnds [] st in
      popUntil (length st1) (oneOf headingNames) st1
    else st
  else if oneOf blockNames name then
    if inScope (jeqb name) scopeMarkers st then
      let st1 := impliedEnds [] st in
      popUntil (length st1) (jeqb name) st1
    else st
  else if jeqb name (js "br") then pop (push (js "br") [] st)
  else closeOther name st st.

Definition treeStep (st : Stack) (t : Token) : Stack :=
  match t with
  | TChar c => appendChar c st
  | TComment d => appendNode (Comment d) st
  | TStart name attrs => startTag name attrs st
  | TEnd name => endTag name st
  end.

Fixpoint popAll (fuel : nat) (st : Stack) : Stack :=
  match fuel with
  | O => st
  | S f => match st with
           | _ :: _ :: _ => popAll f (pop st)
           | _ => st
           end
  end.

Definition bodyFrame : Frame :=
  {| fName := js "body"; fAttrs := []; fKids := [] |}.

(** The children of the body after the whole input has been read. *)
Definition buildTree (tokens : list Token) : list Node :=
  let st := fold_left treeStep tokens [bodyFrame] in
  match popAll (length st) st with
  | root :: _ => rev (fKids root)
  | [] => []
  end.

Definition parse (s : jstring) : list Node := buildTree (tokenize s).

(** ** Serialization *)

Definition escapeText (s : jstring) : jstring :=
  flat_map (fun c =>
    if N.eqb c AMP then js "&amp;"
    else if N.eqb c NBSP then js "&nbsp;"
    else if N.eqb c LT then js "&lt;"
    else if N.eqb c GT then js "&gt;"
    else [c]) s.

Definition escapeAttribute (s : jstring) : jstring :=
  flat_map (fun c =>
    if N.eqb c AMP then js "&amp;"
    else if N.eqb c NBSP then js "&nbsp;"
    else if N.eqb c QUOT then js "&quot;"
    else [c]) s.

Definition serializeAttributes (attrs : list (jstring * jstring)) : jstring :=
  flat_map (fun kv =>
    js " " ++ fst kv ++ js "=" ++ [QUOT] ++ escapeAttribute (snd kv) ++ [QUOT])
    attrs.

(** The HTML fragment serialization of a node; [raw] says that the
    parent is a [script] or [style], whose text is written as it is. *)
Fixpoint serialize (raw : bool) (n : Node) : jstring :=
  match n with
  | Text d => if raw then d else escapeText d
  | Comment d => js "<!--" ++ d ++ js "-->"
  | Element tag attrs kids =>
      let name := map lowerAscii tag in
      js "<" ++ name ++ serializeAttributes attrs ++ js ">" ++
      (if oneOf voidNames name then []
       else concat (map (serialize (isRawTextTag name)) kids)
            ++ js "</" ++ name ++ js ">")
  end.

(** [node.textContent] *)
Fixpoint textContent (n : Node) : jstring :=
  match n with
  | Text d => d
  | Comment _ => []
  | Element _ _ kids => concat (map textContent kids)
  end.

(** A detached element is not rendered, so its [innerText] is its
    [textContent]. *)
Definition platform : Platform :=
  {| parseBody := parse;
     innerHTML := fun nodes => concat (map (serialize false) nodes);
     innerText := fun s => concat (map textContent (parse s)) |}.

End Browser.

Definition convert := convertRichTextToKeepMarkup Browser.platform.

(** ** Cleaned markup with a paragraph directly followed by a heading *)




(** ** The inputs of the test suite *)



Definition badStartList : Node :=
  Element (js "OL") [(js "start", js "x")]
    [Element (js "LI") [] [Text (js "a")];
     Element (js "LI") [] [Text (js "b")]].


Definition nestedListInput : jstring :=
  jsq "<ol start=`3`><li>First</li><li>Second<ul><li>Nested</li></ul></li></ol>".

Definition unsupportedInput : jstring :=
  jsq "<h3>Subhead</h3><script>alert('x')</script><figure><img src=`x` /></figure>".

Definition headingInput : jstring :=
  js "<h1>Title</h1><div>Body <strong>text</strong></div>".

(* ================================================================== *)
(** * The restricted grammar *)
(* ================================================================== *)

Unset Implicit Arguments.

(** A code unit of text: neither [<] nor [>]. *)
Definition isText (c : jchar) : Prop := c <> LT /\ c <> GT.

(** The number of nodes of a tree. *)
Fixpoint nodeSize (n : Node) : nat :=
  match n with
  | Element _ _ kids => S (list_sum (map nodeSize kids))
  | _ => 1
  end.

(** The characters of the tokens of a text, in order. *)
Definition tokenChars (tokens : list Browser.Token) : jstring :=
  flat_map (fun t => match t with Browser.TChar c => [c] | _ => [] end) tokens.

(** The text below an open element, and below the whole stack of open
    elements, in document order. *)
Definition frameText (f : Browser.Frame) : jstring :=
  concat (map Browser.textContent (rev (Browser.fKids f))).

Definition stackText (st : Browser.Stack) : jstring :=
  concat (map frameText (rev st)).

(** An operation of the tree builder that moves no text. *)
Definition keepsText (f : Browser.Stack -> Browser.Stack) : Prop :=
  forall st, st <> [] -> f st <> [] /\ stackText (f st) = stackText st.

(** A character of plain text: a space, or a code unit that is neither
    white space nor one of [<], [>], [&], NUL. *)
Definition plainChar (c : jchar) : bool :=
  (c =? 32)%N
  || (negb (isSpace c) && negb (c =? 60)%N && negb (c =? 62)%N
      && negb (c =? 38)%N && negb (c =? 0)%N).

(** A phrase: non-empty plain text that neither starts nor ends with a
    space. *)
Definition Phrase (a : jstring) : Prop :=
  a <> [] /\ Forall (fun c => plainChar c = true) a
  /\ isSpace (hd SPACE a) = false /\ isSpace (last a SPACE) = false.

(** The tags the engine writes. *)
Definition tagTokens : list jstring :=
  [js "<p>"; js "</p>"; js "<h1>"; js "</h1>"; js "<h2>"; js "</h2>";
   js "<b>"; js "</b>"; js "<i>"; js "</i>"; js "<u>"; js "</u>";
   js "<br />"].

(** Markup of the restricted grammar: text free of [<] and [>], and the
    tags above. *)
Inductive Markup : jstring -> Prop :=
| Markup_nil : Markup []
| Markup_char c s : c <> LT -> c <> GT -> Markup s -> Markup (c :: s)
| Markup_tag t s : In t tagTokens -> Markup s -> Markup (t ++ s).

(** The non-empty suffixes of a string, longest first. *)
Fixpoint nonEmptyTails (s : jstring) : list jstring :=
  match s with
  | [] => []
  | _ :: t => s :: nonEmptyTails t
  end.

(** A matcher returns a split of its input. *)
Class Sound (m : matcher) : Prop :=
  sound : forall s a r, m s = Some (a, r) -> s = a ++ r.

(** A matcher never matches the empty string. *)
Class Progress (m : matcher) : Prop :=
  progress : forall s a r, m s = Some (a, r) -> a <> [].

(** A rule resumes strictly further in the string. *)
Class RuleOk (r : rule) : Prop :=
  ruleOk : forall s out rest, r s = Some (out, rest) -> length rest < length s.

(** A matcher that, on markup of the restricted grammar, matches exactly
    one tag. *)
Class TagMatcher (m : matcher) : Prop :=
  tagMatcher : forall s, Markup s -> forall a r,
      m s = Some (a, r) -> In a tagTokens /\ Markup r.

(** A rule that works tag by tag on the restricted grammar: it never
    matches from inside a tag, and what it writes and where it resumes
    are again in the grammar. *)
Class Compatible (r : rule) : Prop := {
  compat_out : forall s, Markup s -> forall out rest,
      r s = Some (out, rest) -> Markup out /\ Markup rest;
  compat_inside : forall t, In t tagTokens -> forall s,
      Forall (fun v => r (v ++ s) = None) (nonEmptyTails (tl t))
}.

(* ================================================================== *)
(** * Markup of the restricted grammar, piece by piece *)
(* ================================================================== *)

(** A piece of markup: one code unit of text, or one tag. *)
Inductive Piece :=
| PChar (c : jchar)
| PTag (t : jstring).

Definition pieceText (p : Piece) : jstring :=
  match p with
  | PChar c => [c]
  | PTag t => t
  end.

Definition flatten (l : list Piece) : jstring := flat_map pieceText l.

Definition wellFormed (p : Piece) : Prop :=
  match p with
  | PChar c => c <> LT /\ c <> GT
  | PTag t => In t tagTokens
  end.

Definition startsSpace (s : jstring) : bool :=
  match s with
  | c :: _ => isSpace c
  | [] => false
  end.

Fixpoint dropWs (l : list Piece) : list Piece :=
  match l with
  | PChar c :: l' => if isSpace c then dropWs l' else l
  | _ => l
  end.

Definition startsWs (l : list Piece) : bool :=
  match l with
  | PChar c :: _ => isSpace c
  | _ => false
  end.

Definition startsTag (P : jstring -> bool) (l : list Piece) : bool :=
  match l with
  | PTag t :: _ => P t
  | _ => false
  end.

(** What a rule of the shape [(tag)\s+] replaced by ["$1"] does to the
    pieces: the white space that follows a selected tag goes.  [skip] is
    set while the pieces read follow such a tag. *)
Fixpoint afterTags (P : jstring -> bool) (skip : bool) (l : list Piece)
  : list Piece :=
  match l with
  | [] => []
  | PChar c :: l' =>
      if skip && isSpace c then afterTags P true l'
      else PChar c :: afterTags P false l'
  | PTag t :: l' => PTag t :: afterTags P (P t) l'
  end.

(** What the rule [\s+(tag)] replaced by ["$1"] does to the pieces: the
    white space that runs up to a selected tag goes. *)
Fixpoint beforeTags (P : jstring -> bool) (l : list Piece) : list Piece :=
  match l with
  | [] => []
  | PChar c :: l' =>
      if isSpace c && startsTag P (dropWs l') then beforeTags P l'
      else PChar c :: beforeTags P l'
  | PTag t :: l' => PTag t :: beforeTags P l'
  end.

(** No white space right after a selected tag. *)
Fixpoint noSpaceAfter (P : jstring -> bool) (l : list Piece) : Prop :=
  match l with
  | [] => True
  | PTag t :: l' => (P t = true -> startsWs l' = false) /\ noSpaceAfter P l'
  | PChar _ :: l' => noSpaceAfter P l'
  end.

(** No white space right before a selected tag. *)
Fixpoint noSpaceBefore (P : jstring -> bool) (l : list Piece) : Prop :=
  match l with
  | [] => True
  | PChar c :: l' =>
      (isSpace c = true -> startsTag P l' = false) /\ noSpaceBefore P l'
  | PTag _ :: l' => noSpaceBefore P l'
  end.

(** [l'] is [l] with some of its white space deleted. *)
Inductive Squeezed : list Piece -> list Piece -> Prop :=
| Squeezed_nil : Squeezed [] []
| Squeezed_keep p l l' : Squeezed l l' -> Squeezed (p :: l) (p :: l')
| Squeezed_drop c l l' :
    isSpace c = true -> Squeezed l l' -> Squeezed (PChar c :: l) l'.

(** The tags the expressions of the cleaner select. *)
Definition isOpenP (t : jstring) : bool := jeqb t (js "<p>").

Definition isOpenHeading (t : jstring) : bool :=
  jeqb t (js "<h1>") || jeqb t (js "<h2>").

Definition isBr (t : jstring) : bool := jeqb t (js "<br />").

Definition isBlockTag (t : jstring) : bool :=
  existsb (jeqb t)
    [js "<p>"; js "</p>"; js "<h1>"; js "</h1>"; js "<h2>"; js "</h2>";
     js "<br />"].

(** On the restricted grammar the matcher [g] matches the tags that [P]
    selects, one whole tag at a time, and nothing else. *)
Class Selects (g : matcher) (P : jstring -> bool) : Prop := {
  selects_nil : g [] = None;
  selects_text : forall c s, c <> LT -> g (c :: s) = None;
  selects_tag : forall t s, In t tagTokens ->
      g (t ++ s) = if P t then Some (t, s) else None
}.

(** The first replacement of the cleaner: empty paragraphs go. *)
Definition removeEmptyParagraphs (markup : jstring) : jstring :=
  replaceAll (constRule reEmptyParagraph []) markup.

(** Removing an empty paragraph can leave another. *)
Definition nestedEmptyParagraph : jstring := js "<p><p></p></p>".

(** A decision procedure for the restricted grammar; the fuel bounds the
    number of pieces. *)
Fixpoint isMarkupFuel (fuel : nat) (s : jstring) : bool :=
  match fuel with
  | O => false
  | S f =>
      match s with
      | [] => true
      | c :: t =>
          if N.eqb c LT then
            existsb (fun tag => if startsWith tag s
                                then isMarkupFuel f (skipn (length tag) s)
                                else false)
              tagTokens
          else if N.eqb c GT then false else isMarkupFuel f t
      end
  end.

Definition isMarkup (s : jstring) : bool := isMarkupFuel (S (length s)) s.

(** ** Plain text and its conversions *)

(** No two white-space code units in a row. *)
Fixpoint singleSpaced (s : jstring) : bool :=
  match s with
  | c :: t =>
      negb (isSpace c && startsSpace t) && singleSpaced t
  | [] => true
  end.

(** Plain text that the serializer copies as it is: a phrase without
    double quotes and without runs of spaces. *)
Definition PlainText (w : jstring) : Prop :=
  Phrase w /\ Forall (fun c => c <> QUOT) w /\ singleSpaced w = true.

(** A paragraph of [w], and the same inside the paragraph that a
    conversion wraps around its input. *)
Definition paragraphOf (w : jstring) : jstring := js "<p>" ++ w ++ js "</p>".

Definition wrappedParagraphOf (w : jstring) : jstring :=
  js "<p><p>" ++ w ++ js "</p></p>".

(** The pieces of the two. *)
Definition paragraphPieces (w : jstring) : list Piece :=
  PTag (js "<p>") :: map PChar w ++ [PTag (js "</p>")].


(** ** Paragraphs that are not empty *)

(** One turn of the loop of the empty-paragraph expression, and what
    follows the opening [<p>] in it. *)
Definition fillerTurn : matcher :=
  mAlt (mChar isSpace) (mAlt (mLit true (js "&nbsp;")) reBr).

Definition emptyTail : matcher :=
  mSeq (mMany fillerTurn) (mLit true (js "</p>")).

Definition isCloseP (t : jstring) : bool := jeqb t (js "</p>").

(** The second code unit of [&amp;], [&lt;], [&gt;] and [&quot;]. *)
Definition isEntityInitial (d : jchar) : bool :=
  (d =? 97)%N || (d =? 108)%N || (d =? 103)%N || (d =? 113)%N.

(** Pieces that the empty-paragraph expression lets pass: white space,
    [<br />] and [&nbsp;]. *)
Inductive Fillers : list Piece -> Prop :=
| Fillers_nil : Fillers []
| Fillers_space c l : isSpace c = true -> Fillers l -> Fillers (PChar c :: l)
| Fillers_br l : Fillers l -> Fillers (PTag (js "<br />") :: l)
| Fillers_nbsp l : Fillers l -> Fillers (map PChar (js "&nbsp;") ++ l).

(** Pieces in which, after such fillers, comes something that is neither
    a filler nor a closing [</p>]. *)
Inductive GoodStart : list Piece -> Prop :=
| GoodStart_space c l :
    isSpace c = true -> GoodStart l -> GoodStart (PChar c :: l)
| GoodStart_br l : GoodStart l -> GoodStart (PTag (js "<br />") :: l)
| GoodStart_nbsp l : GoodStart l -> GoodStart (map PChar (js "&nbsp;") ++ l)
| GoodStart_tag t l :
    isBr t = false -> isCloseP t = false -> GoodStart (PTag t :: l)
| GoodStart_char c l :
    isSpace c = false -> c <> AMP -> GoodStart (PChar c :: l)
| GoodStart_entity d l :
    isEntityInitial d = true -> GoodStart (PChar AMP :: PChar d :: l).

(** Every paragraph holds more than fillers. *)
Fixpoint GoodPar (l : list Piece) : Prop :=
  match l with
  | [] => True
  | PTag t :: l' => (isOpenP t = true -> GoodStart l') /\ GoodPar l'
  | PChar _ :: l' => GoodPar l'
  end.

(** The first paragraph tag, if there is one, opens a paragraph. *)
Fixpoint PrefixOK (l : list Piece) : Prop :=
  match l with
  | [] => True
  | PTag t :: l' =>
      if isCloseP t then False else if isOpenP t then True else PrefixOK l'
  | PChar _ :: l' => PrefixOK l'
  end.

(** What follows an [&]: the rest of [&nbsp;], or the start of one of the
    four character references of [escapeHtml]. *)
Definition entityNext (l : list Piece) : Prop :=
  (exists l', l = map PChar (js "nbsp;") ++ l')
  \/ (exists d l', l = PChar d :: l' /\ isEntityInitial d = true).

Fixpoint EntityOK (l : list Piece) : Prop :=
  match l with
  | [] => True
  | PChar c :: l' => (c = AMP -> entityNext l') /\ EntityOK l'
  | PTag _ :: l' => EntityOK l'
  end.

(** Markup as the serializer writes it. *)
Definition Tidy (l : list Piece) : Prop :=
  Forall wellFormed l /\ GoodPar l /\ PrefixOK l /\ EntityOK l.

Definition TidyMarkup (s : jstring) : Prop :=
  exists l, s = flatten l /\ Tidy l.

(** What [isEffectivelyEmpty] measures. *)
Definition strippedOf (fragment : jstring) : jstring :=
  replaceAll (constRule mSpaces1 [])
    (replaceAll (constRule reTag1 [])
       (replaceAll (constRule (mLit true (js "&nbsp;")) (js " "))
          (replaceAll (constRule reBr []) fragment))).

(** ** Further notions used to state what the code guarantees *)

(** The names, with their semicolon, of the character references that
    [escapeHtml] writes. *)
Definition escapedNames : list jstring :=
  [js "amp;"; js "lt;"; js "gt;"; js "quot;"].

(** What [escapeHtml] writes for one code unit. *)
Definition escapeOne (c : jchar) : jstring :=
  if N.eqb c NBSP then js " "
  else if N.eqb c AMP then js "&amp;"
  else if N.eqb c LT then js "&lt;"
  else if N.eqb c GT then js "&gt;"
  else if N.eqb c QUOT then js "&quot;"
  else [c].

Definition startsLF (s : jstring) : bool :=
  match s with
  | c :: _ => N.eqb c LF
  | [] => false
  end.

(** The [p], [h1] and [h2] elements, which the clipboard projector
    decorates. *)
Definition isKeepBlock (tagName : jstring) : bool :=
  jeqb tagName (js "P") || jeqb tagName (js "H1") || jeqb tagName (js "H2").

Definition keepSpanStyle (tagName : jstring) : jstring :=
  if jeqb tagName (js "H1") then KEEP_H1_TEXT
  else if jeqb tagName (js "H2") then KEEP_H2_TEXT
  else KEEP_TEXT_BASE.

(** Every [p], [h1] and [h2] of the tree has the direction and the block
    style of Keep, and one child: a span with the text style of its tag. *)
Fixpoint AllDecorated (n : Node) : Prop :=
  match n with
  | Element t a kids =>
      (isKeepBlock t = true ->
       getAttribute a (js "dir") = Some (js "ltr")
       /\ getAttribute a (js "style") = Some KEEP_BLOCK_STYLE
       /\ exists inner,
            kids = [Element (js "SPAN") [(js "style", keepSpanStyle t)] inner])
      /\ (fix all (l : list Node) : Prop :=
            match l with
            | [] => True
            | k :: l' => AllDecorated k /\ all l'
            end) kids
  | _ => True
  end.

(** What the serializer does not look at: comments, [script] and [style]
    elements, and every attribute but the [start] of an [ol]. *)
Definition isIgnoredNode (n : Node) : bool :=
  match n with
  | Comment _ => true
  | Element t _ _ => jeqb t (js "SCRIPT") || jeqb t (js "STYLE")
  | Text _ => false
  end.

Definition startOnly (attrs : list (jstring * jstring))
  : list (jstring * jstring) :=
  match getAttribute attrs (js "start") with
  | Some v => [(js "start", v)]
  | None => []
  end.

Fixpoint withoutIgnored (n : Node) : Node :=
  match n with
  | Element t a kids =>
      Element t (if jeqb t (js "OL") then startOnly a else [])
        (filter (fun k => negb (isIgnoredNode k)) (map withoutIgnored kids))
  | other => other
  end.

(** ** The Markdown front end ([src/lib/markdown.ts]) *)

Definition CR : jchar := 13%N.             (* \r *)

(** [\r\n?] *)
Definition reNewline : matcher :=
  mSeq (mLit false [CR]) (mOpt (mLit false [LF])).

Section Markdown.

(** [markdownParser.render], the renderer of the markdown-it instance. *)
Variable render : jstring -> jstring.

Definition convertMarkdownToHtml (markdown : jstring) : jstring :=
  if negb (truthy markdown) || negb (truthy (trim markdown)) then []
  else
    let normalized := replaceAll (constRule reNewline [LF]) markdown in
    render normalized.

End Markdown.

(** The tags after which, and the tags before which, the cleaner deletes
    white space. *)
Definition spaceFreeAfter : list jstring :=
  [js "<p>"; js "<h1>"; js "<h2>"; js "<br />"].

Definition spaceFreeBefore : list jstring :=
  [js "<p>"; js "</p>"; js "<h1>"; js "</h1>"; js "<h2>"; js "</h2>";
   js "<br />"].

(** Neither a non-breaking space nor a double quote. *)
Definition keepSafe (c : jchar) : Prop := c <> NBSP /\ c <> QUOT.

(** The paragraph of [w] as the clipboard projector decorates it, inside
    the [div] the projector parses its markup in. *)
Definition keepParagraphOf (w : jstring) : jstring :=
  jsq "<div><p dir=`ltr` style=`" ++ KEEP_BLOCK_STYLE
  ++ jsq "`><span style=`" ++ KEEP_TEXT_BASE ++ jsq "`>"
  ++ w ++ js "</span></p></div>".

(* ================================================================== *)
(** * Properties *)
(* ================================================================== *)

(** ** Strings and matchers *)

Lemma jeqb_eq (a b : jstring) : jeqb a b = true <-> a = b.
Proof.
  revert b; induction a as [|x a IH]; intros [|y b]; simpl; split;
    try congruence; try reflexivity.
  - intros H. apply andb_true_iff in H as [Hx Hab].
    apply N.eqb_eq in Hx. apply IH in Hab. congruence.
  - intros H. injection H as -> ->. rewrite N.eqb_refl. simpl.
    now apply IH.
Qed.

Lemma jeqb_refl (a : jstring) : jeqb a a = true.
Proof. now apply jeqb_eq. Qed.

(** ** The short-circuit on empty input *)

(** C1.  When the text content of the input (non-breaking spaces replaced,
    tags stripped) trims to the empty string, the conversion returns the
    empty string in [html], [keepHtml] and [plainText].  The result object
    has these three properties only: reading [diagnostics] gives
    [undefined], not an empty list. *)
Theorem empty_input_short_circuit (platform : Platform) (rawHtml : jstring) :
  textOnlyOf (normalizeInput rawHtml) = [] ->
  let result := convertRichTextToKeepMarkup platform rawHtml in
  html result = [] /\ keepHtml result = [] /\ plainText result = []
  /\ getProperty result "diagnostics" = JsUndefined.
Proof.
  intros Hempty result. subst result.
  unfold convertRichTextToKeepMarkup. rewrite Hempty. simpl.
  repeat split; reflexivity.
Qed.

Lemma empty_input_short_circuit_witness :
  textOnlyOf (normalizeInput (js "<p> </p>")) = []
  /\ html (convert (js "<p> </p>")) = [].
Proof.
  split; [reflexivity |].
  apply (empty_input_short_circuit Browser.platform (js "<p> </p>")).
  reflexivity.
Defined.

(** No conversion result has a [diagnostics] property. *)
Lemma diagnostics_absent (platform : Platform) (rawHtml : jstring) :
  getProperty (convertRichTextToKeepMarkup platform rawHtml) "diagnostics"
  = JsUndefined.
Proof. reflexivity. Qed.

(** ** The scenarios of the test suite, run on the browser model *)

Example parse_headingInput :
  Browser.parse (js "<div>" ++ headingInput ++ js "</div>")
  = [Element (js "DIV") []
       [Element (js "H1") [] [Text (js "Title")];
        Element (js "DIV") []
          [Text (js "Body ");
           Element (js "STRONG") [] [Text (js "text")]]]].
Proof. vm_compute. reflexivity. Qed.

Example parse_nestedListInput :
  Browser.parse (js "<div>" ++ nestedListInput ++ js "</div>")
  = [Element (js "DIV") []
       [Element (js "OL") [(js "start", js "3")]
          [Element (js "LI") [] [Text (js "First")];
           Element (js "LI") []
             [Text (js "Second");
              Element (js "UL") []
                [Element (js "LI") [] [Text (js "Nested")]]]]]].
Proof. vm_compute. reflexivity. Qed.

Example parse_unsupportedInput :
  Browser.parse (js "<div>" ++ unsupportedInput ++ js "</div>")
  = [Element (js "DIV") []
       [Element (js "H3") [] [Text (js "Subhead")];
        Element (js "SCRIPT") [] [Text (js "alert('x')")];
        Element (js "FIGURE") []
          [Element (js "IMG") [(js "src", js "x")] []]]].
Proof. vm_compute. reflexivity. Qed.

(** The markup the engine emits is read back with the implied ends of
    the HTML standard: a [p] start tag or a heading closes the open [p],
    and an end tag [</p>] with no open [p] makes an empty one. *)
Example parse_nested_paragraphs :
  Browser.parse (js "<div><p><h1>Title</h1><p>Body</p></p></div>")
  = [Element (js "DIV") []
       [Element (js "P") [] [];
        Element (js "H1") [] [Text (js "Title")];
        Element (js "P") [] [Text (js "Body")];
        Element (js "P") [] []]].
Proof. vm_compute. reflexivity. Qed.

(** C3.  On [<h3>Subhead</h3>] the heading is written as [<h2>], and the
    result carries no diagnostics at all: the engine has no diagnostic
    trail, so the [downgraded-heading] record the claim asks for is never
    made. *)
Theorem downgraded_heading_not_recorded :
  let result := convert (js "<h3>Subhead</h3>") in
  html result = js "<p><h2>Subhead</h2></p>"
  /\ plainText result = js "Subhead"
  /\ getProperty result "diagnostics" = JsUndefined.
Proof. vm_compute. repeat split; reflexivity. Qed.

(** C5.  The nested item of the test input becomes a paragraph of four
    [&nbsp;] and [- Nested] right after its parent's paragraph, and the
    plain text keeps four spaces; no [list-flattened] diagnostic is
    recorded, the result has no [diagnostics] property. *)
Theorem nested_list_flattened_without_diagnostic :
  let result := convert nestedListInput in
  html result
  = js "<p><p>3. First</p><p>4. Second</p><p>&nbsp;&nbsp;&nbsp;&nbsp;- Nested</p></p>"
  /\ plainText result = js "3. First" ++ [LF] ++ js "4. Second" ++ [LF]
                        ++ js "    - Nested"
  /\ getProperty result "diagnostics" = JsUndefined.
Proof. vm_compute. repeat split; reflexivity. Qed.

(** C6.  The script of the test input leaves no trace in any output and
    neither [figure] nor [img] is written, but no [removed-element] or
    [unsupported-tag] diagnostic is recorded: the result has no
    [diagnostics] property. *)
Theorem removed_and_unsupported_not_recorded :
  let result := convert unsupportedInput in
  html result = js "<p><h2>Subhead</h2></p>"
  /\ plainText result = js "Subhead"
  /\ includes (js "alert") (keepHtml result) = false
  /\ includes (js "<figure") (keepHtml result) = false
  /\ includes (js "<img") (keepHtml result) = false
  /\ getProperty result "diagnostics" = JsUndefined.
Proof. vm_compute. repeat split; reflexivity. Qed.

(** C9.  The heading scenario: [html], [plainText] and the two styled
    spans of [keepHtml] are as the claim says; reading [diagnostics] gives
    [undefined] where the claim (and the test suite) expect an empty
    list. *)
Theorem heading_scenario :
  let result := convert headingInput in
  html result = js "<p><h1>Title</h1><p>Body <b>text</b></p></p>"
  /\ includes (js "<h1>Title</h1>") (html result) = true
  /\ includes (js "<p>Body <b>text</b></p>") (html result) = true
  /\ plainText result = js "Title" ++ [LF] ++ js "Body text"
  /\ includes (jsq "<span style=`font-size:15pt;") (keepHtml result) = true
  /\ includes (jsq "<span style=`font-size:11pt;") (keepHtml result) = true
  /\ getProperty result "diagnostics" = JsUndefined.
Proof. vm_compute. repeat split; reflexivity. Qed.

(** ** The serializer's equations *)

Arguments itemParagraph : simpl never.
Arguments wrapParagraph : simpl never.
Arguments wrapTag : simpl never.

Lemma Node_rect' (P : Node -> Prop) :
  (forall d, P (Text d)) ->
  (forall d, P (Comment d)) ->
  (forall t a kids, Forall P kids -> P (Element t a kids)) ->
  forall n, P n.
Proof.
  intros HT HC HE.
  fix IH 1. intros [d | t a kids | d].
  - apply HT.
  - apply HE. induction kids as [|k kids IHk]; constructor.
    + apply IH.
    + apply IHk.
  - apply HC.
Qed.

Lemma isListTag_cases (t : jstring) :
  isListTag t = true -> t = js "OL" \/ t = js "UL".
Proof.
  unfold isListTag. intros H. apply orb_true_iff in H as [H | H];
    apply jeqb_eq in H; auto.
Qed.

(** [serializeNode] on a list element runs the loop of [convertList]. *)
Lemma serializeNode_listLoop (t : jstring) a kids ic depth :
  isListTag t = true ->
  serializeNode (Element t a kids) ic depth
  = listLoop (jeqb t (js "OL")) depth kids (startValueOf (jeqb t (js "OL")) a).
Proof.
  intros H.
  destruct (isListTag_cases _ H) as [-> | ->];
    cbn -[listLoop startValueOf itemParagraph];
    generalize (startValueOf true a), (startValueOf false a);
    intros n1 n2.
  - clear n2. revert n1.
    induction kids as [|item rest IH]; intros current; [reflexivity |].
    cbn -[itemParagraph].
    destruct item as [d | t a' liNodes | d]; try apply IH.
    match goal with
    | |- context [jeqb t ?li] => destruct (jeqb t li); [| apply IH]
    end.
    now rewrite IH.
  - clear n1. revert n2.
    induction kids as [|item rest IH]; intros current; [reflexivity |].
    cbn -[itemParagraph].
    destruct item as [d | t a' liNodes | d]; try apply IH.
    match goal with
    | |- context [jeqb t ?li] => destruct (jeqb t li); [| apply IH]
    end.
    now rewrite IH.
Qed.

Lemma concat_map_select {A : Type} (p : A -> bool) (f : A -> jstring) l :
  concat (map (fun x => if p x then [] else f x) l)
  = concat (map f (filter (fun x => negb (p x)) l))
  /\ concat (map (fun x => if p x then f x else []) l)
     = concat (map f (filter p l)).
Proof.
  induction l as [|x l [IH1 IH2]]; simpl; [split; reflexivity |].
  destruct (p x); simpl; rewrite IH1, IH2; split; reflexivity.
Qed.

Section ConvertListLoop.

Variables (isOrdered : bool) (depth : nat).

Let step (acc : JsNumber * list jstring) (li : Node) :=
  let '(current, fragments) := acc in
  (addOne current,
   (fragments ++ [itemParagraph isOrdered depth current
                    (inlineContentOf depth li)])
   ++ map (fun nestedList => serializeNode nestedList true (S depth))
          (nestedOf li)).

Lemma listLoop_skips l current :
  listLoop isOrdered depth l current
  = listLoop isOrdered depth (filter (hasTag (js "LI")) (filter isElement l))
      current.
Proof.
  revert current. induction l as [|item l IH]; intros current; [reflexivity |].
  destruct item as [d | t a kids | d]; simpl; try apply IH.
  destruct (jeqb t (js "LI")) eqn:E; simpl; rewrite ?E; [| apply IH].
  now rewrite <- IH.
Qed.

Lemma fold_step_fragments items current fragments :
  concat (snd (fold_left step items (current, fragments)))
  = concat fragments ++ concat (snd (fold_left step items (current, []))).
Proof.
  revert current fragments.
  induction items as [|li items IH]; intros current fragments; simpl.
  - now rewrite app_nil_r.
  - rewrite (IH _ ((_ ++ _) ++ _)), (IH _ (_ :: _)).
    rewrite !concat_app. cbn [concat]. now rewrite ?app_nil_r, <- ?app_assoc.
Qed.

Lemma listLoop_fold items current :
  Forall (fun li => hasTag (js "LI") li = true) items ->
  listLoop isOrdered depth items current
  = concat (snd (fold_left step items (current, []))).
Proof.
  intros Hall. revert current.
  induction Hall as [|li items Hli _ IH]; intros current; [reflexivity |].
  destruct li as [d | t a kids | d]; try discriminate.
  simpl in Hli. simpl. rewrite Hli.
  rewrite fold_step_fragments, IH. simpl.
  destruct (concat_map_select isNestedList
              (fun child => serializeNode child true depth) kids) as [-> _].
  destruct (concat_map_select isNestedList
              (fun child => serializeNode child true (S depth)) kids) as [_ ->].
  unfold inlineContentOf, nestedOf. simpl.
  now rewrite <- ?app_assoc.
Qed.

End ConvertListLoop.

Lemma convertList_listLoop (listElement : Node) isOrdered depth :
  convertList listElement isOrdered depth
  = listLoop isOrdered depth (listItemsOf listElement)
      (startValueOf isOrdered (attributesOf listElement)).
Proof.
  unfold convertList.
  pose proof (listLoop_fold isOrdered depth (listItemsOf listElement)
                (startValueOf isOrdered (attributesOf listElement))) as H.
  destruct (listItemsOf listElement) as [|li items] eqn:E; [reflexivity |].
  rewrite H; [reflexivity |].
  rewrite <- E. apply Forall_forall. intros x Hx. now apply filter_In in Hx.
Qed.

(** [serializeNode] on an [OL] or [UL] is [convertList], in any context. *)
Lemma serializeNode_list (listElement : Node) ic depth :
  isNestedList listElement = true ->
  serializeNode listElement ic depth
  = convertList listElement (hasTag (js "OL") listElement) depth.
Proof.
  destruct listElement as [d | t a kids | d]; try discriminate.
  intros H. cbn [isNestedList] in H.
  rewrite serializeNode_listLoop by exact H. cbn [hasTag].
  rewrite listLoop_skips. symmetry. apply convertList_listLoop.
Qed.

(** One turn of the loop, with the sublists converted by [convertList]
    itself as in the source. *)
Lemma listLoop_item isOrdered depth li rest current :
  hasTag (js "LI") li = true ->
  listLoop isOrdered depth (li :: rest) current
  = itemParagraph isOrdered depth current (inlineContentOf depth li)
    ++ nestedOutputOf depth li
    ++ listLoop isOrdered depth rest (addOne current).
Proof.
  destruct li as [d | t a kids | d]; try discriminate.
  cbn [hasTag listLoop]. intros ->.
  destruct (concat_map_select isNestedList
              (fun child => serializeNode child true depth) kids) as [-> _].
  destruct (concat_map_select isNestedList
              (fun child => serializeNode child true (S depth)) kids) as [_ ->].
  unfold inlineContentOf, nestedOutputOf, nestedOf. cbn [childNodesOf].
  do 3 f_equal. apply map_ext_in. intros nl Hnl.
  apply filter_In in Hnl as [_ Hnl]. now apply serializeNode_list.
Qed.

Lemma listItemsOf_all (listElement : Node) :
  Forall (fun li => hasTag (js "LI") li = true) (listItemsOf listElement).
Proof.
  apply Forall_forall. intros x Hx. now apply filter_In in Hx.
Qed.


(** ** Ordered lists *)

Lemma uintChars_digits (u : Decimal.uint) :
  Forall (fun c => isDigit c = true) (uintChars u).
Proof. induction u; simpl; constructor; auto. Qed.





(** ** Headings *)

(** The six heading levels are written as [h1] or [h2]. *)
Lemma serializeNode_heading (level : jchar) attrs kids ic depth :
  (49 <= level <= 54)%N ->
  let element := Element [72%N; level] attrs kids in
  let inner := serializeChildren element true depth in
  serializeNode element ic depth
  = if truthy inner
    then wrapTag (if N.eqb level 49 then js "h1" else js "h2") inner
    else [].
Proof.
  intros Hrange element inner. subst element inner.
  assert (Hcases : (level = 49 \/ level = 50 \/ level = 51 \/ level = 52
                    \/ level = 53 \/ level = 54)%N) by lia.
  destruct Hcases as [-> | [-> | [-> | [-> | [-> | ->]]]]]; reflexivity.
Qed.

(** ** Matchers and rules *)

Lemma replaceAllFuel_enough (r : rule) `{RuleOk r} (n m : nat) (s : jstring) :
  length s <= n -> length s <= m ->
  replaceAllFuel n r s = replaceAllFuel m r s.
Proof.
  revert m s. induction n as [|n IH]; intros m s Hn Hm.
  - destruct s; [| simpl in Hn; lia]. destruct m; reflexivity.
  - destruct m as [|m].
    + destruct s; [reflexivity | simpl in Hm; lia].
    + destruct s as [|c t]; [reflexivity |]. simpl in Hn, Hm. simpl.
      destruct (r (c :: t)) as [[out rest] |] eqn:E.
      * apply ruleOk in E. simpl in E. f_equal. apply IH; lia.
      * f_equal. apply IH; lia.
Qed.

Lemma replaceAll_nil (r : rule) : replaceAll r [] = [].
Proof. reflexivity. Qed.

(** The equation of a global replace. *)
Lemma replaceAll_cons (r : rule) `{RuleOk r} (c : jchar) (t : jstring) :
  replaceAll r (c :: t)
  = match r (c :: t) with
    | Some (out, rest) => out ++ replaceAll r rest
    | None => c :: replaceAll r t
    end.
Proof.
  unfold replaceAll. simpl.
  destruct (r (c :: t)) as [[out rest] |] eqn:E.
  - apply ruleOk in E. simpl in E. f_equal.
    apply replaceAllFuel_enough; [assumption | lia | lia].
  - reflexivity.
Qed.

Lemma replaceAll_match (r : rule) `{RuleOk r} s out rest :
  r s = Some (out, rest) -> replaceAll r s = out ++ replaceAll r rest.
Proof.
  intros E. destruct s as [|c t].
  - apply ruleOk in E. simpl in E. lia.
  - now rewrite (replaceAll_cons r), E.
Qed.

(** Where the rule matches at no position of a prefix, the prefix is
    copied. *)
Lemma replaceAll_skip (r : rule) `{RuleOk r} (v s : jstring) :
  Forall (fun w => r (w ++ s) = None) (nonEmptyTails v) ->
  replaceAll r (v ++ s) = v ++ replaceAll r s.
Proof.
  induction v as [|c v IH]; intros Hall; [reflexivity |].
  inversion Hall as [|? ? Hhead Htail]; subst.
  cbn [app] in *. rewrite (replaceAll_cons r), Hhead. f_equal. now apply IH.
Qed.

#[export] Instance Sound_mLit ci p : Sound (mLit ci p).
Proof.
  induction p as [|x p IH]; intros s a r; simpl.
  - intros [= <- <-]. reflexivity.
  - destruct s as [|c t]; [discriminate |].
    destruct (charEq ci x c); [| discriminate].
    destruct (mLit ci p t) as [[m r'] |] eqn:E; [| discriminate].
    intros [= <- <-]. simpl. f_equal. now apply IH.
Qed.

#[export] Instance Sound_mSeq a b `{Sound a} `{Sound b} : Sound (mSeq a b).
Proof.
  intros s m r. unfold mSeq.
  destruct (a s) as [[m1 r1] |] eqn:Ea; [| discriminate].
  destruct (b r1) as [[m2 r2] |] eqn:Eb; [| discriminate].
  intros [= <- <-]. apply sound in Ea. apply sound in Eb. subst.
  now rewrite app_assoc.
Qed.

#[export] Instance Sound_mAlt a b `{Sound a} `{Sound b} : Sound (mAlt a b).
Proof.
  intros s m r. unfold mAlt. destruct (a s) as [[m1 r1] |] eqn:Ea.
  - intros [= <- <-]. now apply sound in Ea.
  - apply sound.
Qed.

#[export] Instance Sound_mOpt a `{Sound a} : Sound (mOpt a).
Proof.
  intros s m r. unfold mOpt. destruct (a s) as [[m1 r1] |] eqn:Ea.
  - intros [= <- <-]. now apply sound in Ea.
  - intros [= <- <-]. reflexivity.
Qed.

Lemma takeSpaces_dropSpaces (s : jstring) : s = takeSpaces s ++ dropSpaces s.
Proof.
  induction s as [|c t IH]; [reflexivity |]. simpl.
  destruct (isSpace c); simpl; congruence.
Qed.

#[export] Instance Sound_mSpaces0 : Sound mSpaces0.
Proof. intros s a r [= <- <-]. apply takeSpaces_dropSpaces. Qed.

#[export] Instance Sound_mSpaces1 : Sound mSpaces1.
Proof.
  intros s a r. unfold mSpaces1. destruct s as [|c t]; [discriminate |].
  destruct (isSpace c); [| discriminate].
  intros [= <- <-]. apply takeSpaces_dropSpaces.
Qed.

#[export] Instance Sound_mToGt : Sound mToGt.
Proof.
  intros s. induction s as [|c t IH]; intros a r; simpl; [discriminate |].
  destruct (N.eqb c GT).
  - intros [= <- <-]. reflexivity.
  - destruct (mToGt t) as [[m r'] |]; [| discriminate].
    intros [= <- <-]. simpl. f_equal. now apply IH.
Qed.

#[export] Instance Sound_mChar p : Sound (mChar p).
Proof.
  intros s a r. unfold mChar. destruct s as [|c t]; [discriminate |].
  destruct (p c); [| discriminate]. intros [= <- <-]. reflexivity.
Qed.

Lemma Sound_mStar fuel a `{Sound a} : Sound (mStar fuel a).
Proof.
  induction fuel as [|f IH]; intros s m r; simpl.
  - intros [= <- <-]. reflexivity.
  - destruct (a s) as [[m1 r1] |] eqn:Ea.
    + destruct (Nat.ltb (length r1) (length s)).
      * destruct (mStar f a r1) as [[m2 r2] |] eqn:Es; [| discriminate].
        intros [= <- <-]. apply sound in Ea. apply IH in Es. subst.
        now rewrite app_assoc.
      * intros [= <- <-]. reflexivity.
    + intros [= <- <-]. reflexivity.
Qed.

#[export] Instance Sound_mMany a `{Sound a} : Sound (mMany a).
Proof. intros s m r. unfold mMany. apply Sound_mStar. assumption. Qed.

#[export] Instance Progress_mLit ci x p : Progress (mLit ci (x :: p)).
Proof.
  intros s a r. simpl. destruct s as [|c t]; [discriminate |].
  destruct (charEq ci x c); [| discriminate].
  destruct (mLit ci p t) as [[m r'] |]; [| discriminate].
  intros [= <- <-]. discriminate.
Qed.

#[export] Instance Progress_mSeq a b `{Progress a} : Progress (mSeq a b).
Proof.
  intros s m r. unfold mSeq.
  destruct (a s) as [[m1 r1] |] eqn:Ea; [| discriminate].
  destruct (b r1) as [[m2 r2] |]; [| discriminate].
  intros [= <- <-]. apply progress in Ea. destruct m1; [congruence | discriminate].
Qed.

#[export] Instance Progress_mSpaces1 : Progress mSpaces1.
Proof.
  intros s a r. unfold mSpaces1. destruct s as [|c t]; [discriminate |].
  destruct (isSpace c) eqn:E; [| discriminate].
  intros [= <- <-]. simpl. rewrite E. discriminate.
Qed.

#[export] Instance Progress_mChar p : Progress (mChar p).
Proof.
  intros s a r. unfold mChar. destruct s as [|c t]; [discriminate |].
  destruct (p c); [| discriminate]. intros [= <- <-]. discriminate.
Qed.

Lemma rule_progress (s a rest : jstring) :
  s = a ++ rest -> a <> [] -> length rest < length s.
Proof.
  intros -> Ha. rewrite length_app. destruct a; [congruence | simpl; lia].
Qed.

#[export] Instance RuleOk_constRule m out `{Sound m} `{Progress m} :
  RuleOk (constRule m out).
Proof.
  intros s o rest. unfold constRule.
  destruct (m s) as [[a r] |] eqn:E; [| discriminate].
  intros [= <- <-]. eapply rule_progress; [eapply sound | eapply progress]; eauto.
Qed.

#[export] Instance RuleOk_keepFirst g tail `{Sound g} `{Progress g} `{Sound tail} :
  RuleOk (keepFirst g tail).
Proof.
  intros s o rest. unfold keepFirst.
  destruct (g s) as [[m1 r1] |] eqn:E1; [| discriminate].
  destruct (tail r1) as [[m2 r2] |] eqn:E2; [| discriminate].
  intros [= <- <-].
  assert (Hne := E1); apply progress in Hne. apply sound in E1. apply sound in E2. subst.
  rewrite !length_app. destruct m1; [congruence | simpl; lia].
Qed.

#[export] Instance RuleOk_keepSecond head g `{Sound head} `{Progress head} `{Sound g} :
  RuleOk (keepSecond head g).
Proof.
  intros s o rest. unfold keepSecond.
  destruct (head s) as [[m1 r1] |] eqn:E1; [| discriminate].
  destruct (g r1) as [[m2 r2] |] eqn:E2; [| discriminate].
  intros [= <- <-].
  assert (Hne := E1); apply progress in Hne. apply sound in E1. apply sound in E2. subst.
  rewrite !length_app. destruct m1; [congruence | simpl; lia].
Qed.

#[export] Instance Sound_reBr : Sound reBr.
Proof. unfold reBr. typeclasses eauto. Qed.
#[export] Instance Progress_reBr : Progress reBr.
Proof. unfold reBr. typeclasses eauto. Qed.
#[export] Instance Sound_reOpenP : Sound reOpenP.
Proof. unfold reOpenP. typeclasses eauto. Qed.
#[export] Instance Progress_reOpenP : Progress reOpenP.
Proof. unfold reOpenP. typeclasses eauto. Qed.
#[export] Instance Sound_reOpenHeading : Sound reOpenHeading.
Proof. unfold reOpenHeading. typeclasses eauto. Qed.
#[export] Instance Progress_reOpenHeading : Progress reOpenHeading.
Proof. unfold reOpenHeading. typeclasses eauto. Qed.
#[export] Instance Sound_reBlockTag : Sound reBlockTag.
Proof. unfold reBlockTag. typeclasses eauto. Qed.
#[export] Instance Progress_reBlockTag : Progress reBlockTag.
Proof. unfold reBlockTag. typeclasses eauto. Qed.
#[export] Instance Sound_reEmptyParagraph : Sound reEmptyParagraph.
Proof. unfold reEmptyParagraph. typeclasses eauto. Qed.
#[export] Instance Progress_reEmptyParagraph : Progress reEmptyParagraph.
Proof. unfold reEmptyParagraph. typeclasses eauto. Qed.
#[export] Instance Sound_reCloseBlock : Sound reCloseBlock.
Proof. unfold reCloseBlock. typeclasses eauto. Qed.
#[export] Instance Progress_reCloseBlock : Progress reCloseBlock.
Proof. unfold reCloseBlock. typeclasses eauto. Qed.
#[export] Instance Sound_reCloseHeading : Sound reCloseHeading.
Proof. unfold reCloseHeading. typeclasses eauto. Qed.
#[export] Instance Progress_reCloseHeading : Progress reCloseHeading.
Proof. unfold reCloseHeading. typeclasses eauto. Qed.
#[export] Instance Sound_reBlankLines : Sound reBlankLines.
Proof. unfold reBlankLines. typeclasses eauto. Qed.
#[export] Instance Progress_reBlankLines : Progress reBlankLines.
Proof. unfold reBlankLines. typeclasses eauto. Qed.
#[export] Instance Sound_reTag0 : Sound reTag0.
Proof. unfold reTag0. typeclasses eauto. Qed.
#[export] Instance Progress_reTag0 : Progress reTag0.
Proof. unfold reTag0. typeclasses eauto. Qed.
#[export] Instance Sound_reTag1 : Sound reTag1.
Proof. unfold reTag1. typeclasses eauto. Qed.
#[export] Instance Progress_reTag1 : Progress reTag1.
Proof. unfold reTag1. typeclasses eauto. Qed.

#[export] Instance RuleOk_separatorRule : RuleOk separatorRule.
Proof.
  intros s o rest. unfold separatorRule.
  destruct (reCloseBlock s) as [[g1 r1] |] eqn:E1; [| discriminate].
  cbn [mSpaces0].
  destruct (reOpenHeading (dropSpaces r1)) as [[g3 r3] |] eqn:E3;
    [| discriminate].
  intros [= <- <-].
  assert (Hne := E1); apply progress in Hne. apply sound in E1. apply sound in E3.
  pose proof (takeSpaces_dropSpaces r1) as E2.
  rewrite E1, E2, E3, !length_app. destruct g1; [congruence | simpl; lia].
Qed.

(** ** The restricted grammar is closed under the engine's operations *)

Lemma tag_head (t : jstring) :
  In t tagTokens -> exists t', t = LT :: t'.
Proof.
  intros H. simpl in H.
  repeat (destruct H as [<- | H]; [eexists; reflexivity |]).
  contradiction.
Qed.

(** A tag ends with its only [>]. *)
Lemma tag_shape (t : jstring) :
  In t tagTokens -> exists body, t = body ++ [GT] /\ Forall (fun c => c <> GT) body.
Proof.
  intros H. simpl in H.
  repeat (destruct H as [<- | H];
          [match goal with
           | |- exists body, ?t = _ /\ _ =>
               exists (removelast t); split;
               [reflexivity | repeat constructor; discriminate]
           end |]).
  contradiction.
Qed.

Lemma Markup_app (a b : jstring) : Markup a -> Markup b -> Markup (a ++ b).
Proof.
  intros Ha Hb. induction Ha as [| c s H1 H2 _ IH | t s Ht _ IH].
  - exact Hb.
  - simpl. now constructor.
  - rewrite <- app_assoc. now constructor.
Qed.

Lemma Markup_text (s : jstring) : Forall isText s -> Markup s.
Proof.
  induction 1 as [|c s [H1 H2] _ IH]; constructor; assumption.
Qed.

Lemma Markup_one_tag (t : jstring) : In t tagTokens -> Markup t.
Proof.
  intros H. rewrite <- (app_nil_r t). constructor; [assumption | constructor].
Qed.

Lemma Markup_concat (l : list jstring) : Forall Markup l -> Markup (concat l).
Proof.
  induction 1; simpl; [constructor | now apply Markup_app].
Qed.

Lemma Markup_uncons (c : jchar) (s : jstring) :
  Markup (c :: s) -> c <> LT -> Markup s.
Proof.
  intros H Hc. inversion H as [| c' s' _ _ Hs | t s' Ht Hs E]; subst.
  - assumption.
  - destruct (tag_head _ Ht) as [t' ->]. cbn in E. congruence.
Qed.

Lemma isSpace_text (c : jchar) : isSpace c = true -> isText c.
Proof. split; intros ->; discriminate. Qed.

Lemma Markup_dropSpaces (s : jstring) : Markup s -> Markup (dropSpaces s).
Proof.
  induction s as [|c t IH]; intros H; [exact H |]. simpl.
  destruct (isSpace c) eqn:E; [| exact H].
  apply IH. apply Markup_uncons with c; [exact H |].
  now apply isSpace_text.
Qed.

Lemma snoc_eq_in (a b : jstring) (g x : jchar) (l : jstring) :
  b ++ [g] = a ++ x :: l -> In g (x :: l).
Proof.
  revert b. induction a as [|y a IH]; intros b E.
  - cbn in E. rewrite <- E. apply in_or_app. right. now left.
  - destruct b as [|z b].
    + cbn in E. injection E as _ E. destruct a; discriminate.
    + cbn in E. injection E as _ E. now apply IH with b.
Qed.

(** Text taken off the end of markup leaves markup. *)
Lemma Markup_app_text_inv (x : jstring) :
  Markup x -> forall a w, x = a ++ w -> Forall isText w -> Markup a.
Proof.
  induction 1 as [| c s H1 H2 Hs IH | t s Ht Hs IH]; intros a w E Hw.
  - symmetry in E. apply app_eq_nil in E as [-> _]. constructor.
  - destruct a as [|c' a'].
    + constructor.
    + cbn in E. injection E as <- E. constructor; eauto.
  - symmetry in E. apply app_eq_app in E as [l [[-> E] | [E ->]]].
    + constructor; [assumption |]. now apply IH with w.
    + (* the tag would end inside the removed text *)
      destruct l as [|x l].
      * rewrite app_nil_r in E. subst a. now apply Markup_one_tag.
      * exfalso. destruct (tag_shape _ Ht) as [body [E' _]].
        apply Forall_app in Hw as [Hl _].
        assert (Hin : In GT (x :: l)).
        { apply snoc_eq_in with a body. congruence. }
        rewrite Forall_forall in Hl. destruct (Hl _ Hin) as [_ Hgt].
        now apply Hgt.
Qed.

Lemma trimEnd_split (s : jstring) :
  exists w, s = trimEnd s ++ w /\ Forall (fun c => isSpace c = true) w.
Proof.
  unfold trimEnd. exists (rev (takeSpaces (rev s))). split.
  - rewrite <- rev_app_distr, <- takeSpaces_dropSpaces. now rewrite rev_involutive.
  - apply Forall_rev. generalize (rev s). intros l.
    induction l as [|c l IH]; simpl; [constructor |].
    destruct (isSpace c) eqn:E; constructor; assumption.
Qed.

Lemma Markup_trim (s : jstring) : Markup s -> Markup (trim s).
Proof.
  intros H. unfold trim, trimStart.
  apply Markup_dropSpaces in H.
  destruct (trimEnd_split (dropSpaces s)) as [w [E Hw]].
  apply Markup_app_text_inv with (dropSpaces s) w; [assumption | exact E |].
  eapply Forall_impl; [| exact Hw]. apply isSpace_text.
Qed.

Lemma nodeSize_child (t : jstring) a kids (k : Node) :
  In k kids -> nodeSize k < nodeSize (Element t a kids).
Proof.
  intros H.
  assert (Hle : nodeSize k <= list_sum (map nodeSize kids)).
  { induction kids as [|x kids IH]; [contradiction |].
    cbn [map list_sum fold_right]. fold (list_sum (map nodeSize kids)).
    destruct H as [-> | H]; [lia | apply IH in H; lia]. }
  cbn [nodeSize]. lia.
Qed.

Lemma Node_size_ind (P : Node -> Prop) :
  (forall n, (forall m, nodeSize m < nodeSize n -> P m) -> P n) ->
  forall n, P n.
Proof.
  intros Hstep n.
  assert (H : forall k m, nodeSize m < k -> P m).
  { induction k as [|k IH]; intros m Hm; [lia |].
    apply Hstep. intros m' Hm'. apply IH. lia. }
  apply H with (S (nodeSize n)). lia.
Qed.

(** A literal is text. *)
Ltac literal_text :=
  repeat first [ apply Forall_nil
               | apply Forall_cons; [split; discriminate |] ].

Lemma replaceChar_Forall (P : jchar -> Prop) (c : jchar) (out s : jstring) :
  Forall P out -> Forall (fun x => x = c \/ P x) s ->
  Forall P (replaceChar c out s).
Proof.
  intros Hout. unfold replaceChar.
  induction 1 as [|x s Hx _ IH]; simpl; [constructor |].
  apply Forall_app. split; [| exact IH].
  destruct (N.eqb_spec x c) as [-> | Hne]; [exact Hout |].
  constructor; [| constructor]. destruct Hx; [contradiction | assumption].
Qed.

Lemma escapeHtml_text (value : jstring) : Forall isText (escapeHtml value).
Proof.
  unfold escapeHtml.
  set (v1 := replaceChar AMP _ _).
  assert (H1 : Forall (fun c => c <> LT) (replaceChar LT (js "&lt;") v1)).
  { apply replaceChar_Forall; [repeat constructor; discriminate |].
    apply Forall_forall. intros x _.
    destruct (N.eq_dec x LT); [now left | now right]. }
  assert (H2 : Forall isText
                 (replaceChar GT (js "&gt;") (replaceChar LT (js "&lt;") v1))).
  { apply replaceChar_Forall;
      [literal_text |].
    eapply Forall_impl; [| exact H1]. intros x Hx. cbn beta.
    destruct (N.eq_dec x GT); [now left | right; now split]. }
  apply replaceChar_Forall; [literal_text |].
  eapply Forall_impl; [| exact H2]. intros x Hx. now right.
Qed.

Lemma isDigit_text (c : jchar) : isDigit c = true -> isText c.
Proof.
  unfold isDigit. intros H. apply andb_true_iff in H as [H1 H2].
  apply N.leb_le in H1. apply N.leb_le in H2.
  split; intros ->; unfold LT, GT in *; lia.
Qed.

Lemma numberToString_text (n : JsNumber) : Forall isText (numberToString n).
Proof.
  assert (Hu : forall u, Forall isText (uintChars u)).
  { intros u. eapply Forall_impl; [| apply uintChars_digits].
    intros c. apply isDigit_text. }
  destruct n as [|[|p|p]]; cbn [numberToString].
  - literal_text.
  - literal_text.
  - apply Hu.
  - constructor; [split; discriminate | apply Hu].
Qed.

Lemma repeatStr_text (s : jstring) (n : nat) :
  Forall isText s -> Forall isText (repeatStr s n).
Proof.
  intros Hs. induction n as [|n IH]; simpl; [constructor |].
  apply Forall_app. now split.
Qed.

Lemma itemParagraph_Markup isOrdered depth current inlineContent :
  Markup inlineContent ->
  Markup (itemParagraph isOrdered depth current inlineContent).
Proof.
  intros H. unfold itemParagraph.
  apply Markup_tag with (t := js "<p>"); [cbn; auto |].
  apply Markup_app.
  { apply Markup_text. unfold indentOf. destruct depth; [constructor |].
    apply repeatStr_text. literal_text. }
  apply Markup_app.
  { apply Markup_text. unfold prefixOf. destruct isOrdered.
    - apply Forall_app. split; [apply numberToString_text |].
      literal_text.
    - literal_text. }
  apply Markup_app.
  { unfold lineContentOf. destruct (truthy inlineContent); [exact H |].
    apply Markup_text. literal_text. }
  apply Markup_one_tag. cbn. auto.
Qed.

Lemma wrapParagraph_Markup (content : jstring) :
  Markup content -> Markup (wrapParagraph content).
Proof.
  intros H. unfold wrapParagraph.
  destruct (negb (truthy content)); [constructor |].
  destruct (isEffectivelyEmpty content); [constructor |].
  apply Markup_tag with (t := js "<p>"); [cbn; auto |].
  apply Markup_app; [now apply Markup_trim |].
  apply Markup_one_tag. cbn. auto 10.
Qed.

Lemma wrapTag_Markup (tag inner : jstring) :
  In tag [js "b"; js "i"; js "u"; js "h1"; js "h2"] ->
  Markup inner -> Markup (wrapTag tag inner).
Proof.
  intros Htag H. unfold wrapTag.
  assert (Hopen : In (js "<" ++ tag ++ js ">") tagTokens
                  /\ In (js "</" ++ tag ++ js ">") tagTokens).
  { cbn in Htag.
    repeat (destruct Htag as [<- | Htag]; [split; cbn; auto 20 |]).
    contradiction. }
  destruct Hopen as [Ho Hc].
  replace (js "<" ++ tag ++ js ">" ++ inner ++ js "</" ++ tag ++ js ">")
    with ((js "<" ++ tag ++ js ">") ++ inner ++ (js "</" ++ tag ++ js ">"))
    by now rewrite <- !app_assoc.
  apply Markup_tag; [exact Ho |].
  apply Markup_app; [exact H | now apply Markup_one_tag].
Qed.

(** The body of [serializeNode] for an element, as the source has it. *)
Lemma serializeNode_element (t : jstring) a kids ic depth :
  let element := Element t a kids in
  serializeNode element ic depth
  = if jeqb t (js "SCRIPT") || jeqb t (js "STYLE") then []
    else
      match inlineTagMap t with
      | Some tag =>
          let inner := serializeChildren element true depth in
          if truthy inner then wrapTag tag inner else []
      | None =>
          if isHeadingTag t then
            let level := if jeqb t (js "H1") then js "h1" else js "h2" in
            let inner := serializeChildren element true depth in
            if truthy inner then wrapTag level inner else []
          else if jeqb t (js "BR") then js "<br />"
          else if isListTag t then
            convertList element (jeqb t (js "OL")) depth
          else if setHas blockTags t && negb ic then
            wrapParagraph (serializeChildren element false depth)
          else
            let inner := serializeChildren element ic depth in
            if ic then inner else wrapParagraph inner
      end.
Proof.
  intros element. subst element.
  destruct (isListTag t) eqn:Hlist.
  - rewrite (serializeNode_list (Element t a kids)) by exact Hlist.
    destruct (isListTag_cases _ Hlist) as [-> | ->]; reflexivity.
  - unfold serializeChildren. cbn [childNodesOf]. cbn [serializeNode].
    rewrite Hlist. reflexivity.
Qed.

Lemma inlineTagMap_range (t tag : jstring) :
  inlineTagMap t = Some tag -> In tag [js "b"; js "i"; js "u"].
Proof.
  unfold inlineTagMap.
  repeat match goal with
         | |- context [if jeqb t ?x then _ else _] => destruct (jeqb t x)
         end; intros [= <-]; cbn; auto.
Qed.

Lemma listLoop_Markup isOrdered depth (l : list Node) :
  (forall li, In li l -> forall child, In child (childNodesOf li) ->
     forall ic d, Markup (serializeNode child ic d)) ->
  forall current, Markup (listLoop isOrdered depth l current).
Proof.
  induction l as [|item rest IH]; intros Hkids current; [constructor |].
  assert (Hrest : forall current', Markup (listLoop isOrdered depth rest current')).
  { apply IH. intros li Hli. apply Hkids. now right. }
  cbn [listLoop]. destruct item as [d | t a liNodes | d]; try apply Hrest.
  destruct (jeqb t (js "LI")); [| apply Hrest].
  assert (Hsub : forall child, In child liNodes ->
                 forall ic d, Markup (serializeNode child ic d)).
  { intros child Hchild. apply (Hkids (Element t a liNodes)); [now left | exact Hchild]. }
  apply Markup_app; [| apply Markup_app; [| apply Hrest]].
  - apply itemParagraph_Markup, Markup_trim, Markup_concat, Forall_forall.
    intros x Hx. apply in_map_iff in Hx as [child [<- Hchild]].
    destruct (isNestedList child); [constructor | now apply Hsub].
  - apply Markup_concat, Forall_forall.
    intros x Hx. apply in_map_iff in Hx as [child [<- Hchild]].
    destruct (isNestedList child); [now apply Hsub | constructor].
Qed.

(** Whatever the tree, the serializer writes markup of the restricted
    grammar. *)
Lemma serializeNode_Markup (n : Node) :
  forall ic depth, Markup (serializeNode n ic depth).
Proof.
  induction n as [n IH] using Node_size_ind. intros ic depth.
  destruct n as [d | t a kids | d].
  - cbn [serializeNode]. apply Markup_text, escapeHtml_text.
  - assert (Hkids : forall ic' d',
               Markup (serializeChildren (Element t a kids) ic' d')).
    { intros ic' d'. unfold serializeChildren. cbn [childNodesOf].
      apply Markup_concat, Forall_forall. intros x Hx.
      apply in_map_iff in Hx as [child [<- Hchild]].
      apply IH. now apply nodeSize_child. }
    rewrite serializeNode_element. cbv zeta.
    destruct (jeqb t (js "SCRIPT") || jeqb t (js "STYLE")); [constructor |].
    destruct (inlineTagMap t) as [tag |] eqn:Etag.
    { destruct (truthy _); [| constructor].
      apply wrapTag_Markup; [| apply Hkids].
      apply inlineTagMap_range in Etag. cbn in Etag |- *. tauto. }
    destruct (isHeadingTag t).
    { destruct (truthy _); [| constructor].
      apply wrapTag_Markup; [| apply Hkids].
      destruct (jeqb t (js "H1")); cbn; auto 10. }
    destruct (jeqb t (js "BR")); [apply Markup_one_tag; cbn; auto 20 |].
    destruct (isListTag t).
    { rewrite convertList_listLoop. apply listLoop_Markup.
      intros li Hli child Hchild.
      apply IH. unfold listItemsOf, children in Hli.
      apply filter_In in Hli as [Hli _]. apply filter_In in Hli as [Hli _].
      apply Nat.lt_trans with (nodeSize li).
      - destruct li as [? | t' a' kids' | ?]; try contradiction.
        now apply nodeSize_child.
      - now apply nodeSize_child. }
    destruct (setHas blockTags t && negb ic).
    { apply wrapParagraph_Markup, Hkids. }
    destruct ic; [apply Hkids | apply wrapParagraph_Markup, Hkids].
  - constructor.
Qed.

(** A rule that works tag by tag keeps markup in the grammar. *)
Lemma replaceAll_Markup (r : rule) `{RuleOk r} `{Compatible r} (s : jstring) :
  Markup s -> Markup (replaceAll r s).
Proof.
  assert (Hn : forall n s', length s' < n -> Markup s' ->
                            Markup (replaceAll r s')).
  { induction n as [|n IH]; intros s' Hlen Hs; [lia |].
    assert (Hmatch : forall out rest,
               r s' = Some (out, rest) -> Markup (replaceAll r s')).
    { intros out rest E. rewrite (replaceAll_match r _ _ _ E).
      destruct (compat_out s' Hs out rest E) as [Hout Hrest].
      apply Markup_app; [exact Hout |]. apply IH; [| exact Hrest].
      apply ruleOk in E. lia. }
    inversion Hs as [| c t H1 H2 Ht | t u Ht Hu]; subst.
    - constructor.
    - destruct (r (c :: t)) as [[out rest] |] eqn:E; [eapply Hmatch; eauto |].
      rewrite (replaceAll_cons r), E. constructor; try assumption.
      apply IH; [cbn in Hlen; lia | exact Ht].
    - destruct (r (t ++ u)) as [[out rest] |] eqn:E; [eapply Hmatch; eauto |].
      destruct (tag_head _ Ht) as [t' ->].
      rewrite (replaceAll_skip r).
      + constructor; [exact Ht |]. apply IH; [| exact Hu].
        rewrite length_app in Hlen. cbn in Hlen. lia.
      + cbn [nonEmptyTails]. constructor; [exact E |].
        apply (compat_inside (LT :: t') Ht). }
  intros Hs. apply Hn with (S (length s)); [lia | exact Hs].
Qed.

Lemma lowerAscii_lt (x : jchar) : lowerAscii x = LT -> x = LT.
Proof.
  unfold lowerAscii, LT.
  destruct ((65 <=? x) && (x <=? 90))%N eqn:E; [| auto].
  apply andb_true_iff in E as [E1 E2]. apply N.leb_le in E1. lia.
Qed.

Lemma charEq_not_lt (ci : bool) (x c : jchar) :
  charEq ci x c = true -> x <> LT -> c <> LT.
Proof.
  intros H Hx ->. apply Hx. unfold charEq in H. destruct ci.
  - apply N.eqb_eq in H. now apply lowerAscii_lt.
  - now apply N.eqb_eq in H.
Qed.

Lemma charEq_lt (ci : bool) (c : jchar) : c <> LT -> charEq ci LT c = false.
Proof.
  intros Hc. unfold charEq. destruct ci.
  - apply N.eqb_neq. intros H. apply Hc. apply lowerAscii_lt. now rewrite <- H.
  - apply N.eqb_neq. congruence.
Qed.

(** A literal that opens with [<] does not match at a text character. *)
Lemma mLit_lt_head (ci : bool) (p : jstring) (c : jchar) (s : jstring) :
  c <> LT -> mLit ci (LT :: p) (c :: s) = None.
Proof. intros Hc. cbn [mLit]. now rewrite charEq_lt. Qed.

Lemma mSeq_none (a b : matcher) (s : jstring) :
  a s = None -> mSeq a b s = None.
Proof. intros E. unfold mSeq. now rewrite E. Qed.

(** A literal free of [<] consumes text only. *)
Lemma mLit_Markup_text (ci : bool) (p : jstring) :
  Forall (fun x => x <> LT) p ->
  forall s m r, Markup s -> mLit ci p s = Some (m, r) -> Markup r.
Proof.
  induction 1 as [|x p Hx _ IH]; intros s m r Hs; cbn [mLit].
  - now intros [= _ <-].
  - destruct s as [|c t]; [discriminate |].
    destruct (charEq ci x c) eqn:E; [| discriminate].
    destruct (mLit ci p t) as [[m' r'] |] eqn:El; [| discriminate].
    intros [= _ <-]. apply IH with t m'; [| exact El].
    apply Markup_uncons with c; [exact Hs |].
    now apply charEq_not_lt with ci x.
Qed.

(** The proof that a matcher of the source, run on markup of the
    grammar, matches one whole tag: it fails on text, and on each of the
    thirteen tags it is computed. *)
Ltac tag_matcher head_none :=
  let s := fresh "s" in let Hs := fresh "Hs" in let a := fresh "a" in
  let r := fresh "r" in let E := fresh "E" in
  intros s Hs a r E;
  inversion Hs as [| ? ? ? ? ? | ? ? Ht ?]; subst;
  [ vm_compute in E; discriminate E
  | exfalso; rewrite head_none in E by assumption; discriminate E
  | cbn in Ht;
    repeat (destruct Ht as [<- | Ht];
            [vm_compute in E;
             first [ discriminate E
                   | injection E as <- <-; split; [cbn; auto 20 | assumption] ]
            |]);
    contradiction ].

Lemma reBr_text c s : c <> LT -> reBr (c :: s) = None.
Proof. intros H. apply mSeq_none, (mLit_lt_head true (js "br")), H. Qed.

Lemma reOpenP_text c s : c <> LT -> reOpenP (c :: s) = None.
Proof. intros H. apply mSeq_none, (mLit_lt_head true (js "p")), H. Qed.

Lemma reOpenHeading_text c s : c <> LT -> reOpenHeading (c :: s) = None.
Proof. intros H. apply mSeq_none, (mLit_lt_head true (js "h")), H. Qed.

Lemma reBlockTag_text c s : c <> LT -> reBlockTag (c :: s) = None.
Proof. intros H. apply mSeq_none, (mLit_lt_head false []), H. Qed.

#[export] Instance TagMatcher_reBr : TagMatcher reBr.
Proof. tag_matcher reBr_text. Qed.

#[export] Instance TagMatcher_reOpenP : TagMatcher reOpenP.
Proof. tag_matcher reOpenP_text. Qed.

#[export] Instance TagMatcher_reOpenHeading : TagMatcher reOpenHeading.
Proof. tag_matcher reOpenHeading_text. Qed.

#[export] Instance TagMatcher_reBlockTag : TagMatcher reBlockTag.
Proof. tag_matcher reBlockTag_text. Qed.

#[export] Instance TagMatcher_openP : TagMatcher (mLit true (js "<p>")).
Proof. tag_matcher (mLit_lt_head true (js "p>")). Qed.

#[export] Instance TagMatcher_closeP : TagMatcher (mLit true (js "</p>")).
Proof. tag_matcher (mLit_lt_head true (js "/p>")). Qed.

(** No position strictly inside a tag starts a match: computed for the
    thirty-nine such positions. *)
Ltac inside_tags :=
  let t := fresh "t" in let Ht := fresh "Ht" in let s := fresh "s" in
  intros t Ht s; cbn in Ht;
  repeat (destruct Ht as [<- | Ht];
          [cbn [js map list_ascii_of_string N_of_ascii N_of_digits tl
                  nonEmptyTails];
           repeat (apply Forall_cons; [vm_compute; reflexivity |]);
           apply Forall_nil |]);
  contradiction.

Lemma mSpaces1_rest (s m r : jstring) :
  mSpaces1 s = Some (m, r) -> m = takeSpaces s /\ r = dropSpaces s.
Proof.
  unfold mSpaces1. destruct s as [|c t]; [discriminate |].
  destruct (isSpace c); [| discriminate]. intros [= <- <-]. now split.
Qed.

Lemma keepFirst_out (g : matcher) `{TagMatcher g} (s : jstring) :
  Markup s -> forall out rest,
    keepFirst g mSpaces1 s = Some (out, rest) -> Markup out /\ Markup rest.
Proof.
  intros Hs out rest. unfold keepFirst.
  destruct (g s) as [[m1 r1] |] eqn:E1; [| discriminate].
  destruct (tagMatcher s Hs m1 r1 E1) as [Hm Hr].
  destruct (mSpaces1 r1) as [[m2 r2] |] eqn:E2; [| discriminate].
  apply mSpaces1_rest in E2 as [_ ->]. intros [= <- <-].
  split; [now apply Markup_one_tag | now apply Markup_dropSpaces].
Qed.

Lemma keepSecond_out (g : matcher) `{TagMatcher g} (s : jstring) :
  Markup s -> forall out rest,
    keepSecond mSpaces1 g s = Some (out, rest) -> Markup out /\ Markup rest.
Proof.
  intros Hs out rest. unfold keepSecond.
  destruct (mSpaces1 s) as [[m1 r1] |] eqn:E1; [| discriminate].
  apply mSpaces1_rest in E1 as [_ ->].
  destruct (g (dropSpaces s)) as [[m2 r2] |] eqn:E2; [| discriminate].
  intros [= <- <-].
  destruct (tagMatcher _ (Markup_dropSpaces _ Hs) m2 r2 E2) as [Hm Hr].
  split; [now apply Markup_one_tag | exact Hr].
Qed.

#[export] Instance Compatible_openP : Compatible (keepFirst reOpenP mSpaces1).
Proof. split; [apply keepFirst_out; typeclasses eauto | inside_tags]. Qed.

#[export] Instance Compatible_openHeading :
  Compatible (keepFirst reOpenHeading mSpaces1).
Proof. split; [apply keepFirst_out; typeclasses eauto | inside_tags]. Qed.

#[export] Instance Compatible_br : Compatible (keepFirst reBr mSpaces1).
Proof. split; [apply keepFirst_out; typeclasses eauto | inside_tags]. Qed.

#[export] Instance Compatible_blockTag :
  Compatible (keepSecond mSpaces1 reBlockTag).
Proof. split; [apply keepSecond_out; typeclasses eauto | inside_tags]. Qed.

(** One turn of the loop of the empty-paragraph expression consumes white
    space, [&nbsp;] or a [br] tag. *)
Lemma emptyParagraph_turn (s m r : jstring) :
  Markup s ->
  mAlt (mChar isSpace) (mAlt (mLit true (js "&nbsp;")) reBr) s = Some (m, r) ->
  Markup r.
Proof.
  intros Hs. unfold mAlt.
  destruct (mChar isSpace s) as [[m1 r1] |] eqn:E1.
  - intros [= <- <-]. unfold mChar in E1.
    destruct s as [|c t]; [discriminate |].
    destruct (isSpace c) eqn:Ec; [| discriminate].
    injection E1 as <- <-. apply Markup_uncons with c; [exact Hs |].
    now apply isSpace_text.
  - destruct (mLit true (js "&nbsp;") s) as [[m2 r2] |] eqn:E2.
    + intros [= <- <-].
      apply (mLit_Markup_text true (js "&nbsp;")) with s m2; try assumption.
      repeat constructor; discriminate.
    + intros E3. now apply (tagMatcher s Hs m r E3).
Qed.

Lemma mStar_Markup (a : matcher) (fuel : nat) :
  (forall s m r, Markup s -> a s = Some (m, r) -> Markup r) ->
  forall s m r, Markup s -> mStar fuel a s = Some (m, r) -> Markup r.
Proof.
  intros Ha. induction fuel as [|f IH]; intros s m r Hs; cbn [mStar].
  - now intros [= _ <-].
  - destruct (a s) as [[m1 r1] |] eqn:E1; [| now intros [= _ <-]].
    destruct (Nat.ltb (length r1) (length s)); [| now intros [= _ <-]].
    destruct (mStar f a r1) as [[m2 r2] |] eqn:E2; [| discriminate].
    intros [= _ <-]. apply IH with r1 m2; [| exact E2].
    now apply Ha with s m1.
Qed.

#[export] Instance Compatible_emptyParagraph :
  Compatible (constRule reEmptyParagraph []).
Proof.
  split; [| inside_tags].
  intros s Hs out rest. unfold constRule, reEmptyParagraph, mSeq.
  destruct (mLit true (js "<p>") s) as [[m1 r1] |] eqn:E1; [| discriminate].
  destruct (tagMatcher s Hs m1 r1 E1) as [_ H1].
  destruct (mMany _ r1) as [[m2 r2] |] eqn:E2; [| discriminate].
  assert (H2 : Markup r2).
  { unfold mMany in E2. revert E2. apply mStar_Markup; [| exact H1].
    intros. eapply emptyParagraph_turn; eauto. }
  destruct (mLit true (js "</p>") r2) as [[m3 r3] |] eqn:E3; [| discriminate].
  destruct (tagMatcher r2 H2 m3 r3 E3) as [_ H3].
  intros [= <- <-]. split; [constructor | exact H3].
Qed.

(** The output cleaner keeps markup in the grammar. *)
Lemma cleanupOutput_Markup (markup : jstring) :
  Markup markup -> Markup (cleanupOutput markup).
Proof.
  intros H. unfold cleanupOutput.
  apply Markup_trim.
  repeat (apply replaceAll_Markup; try typeclasses eauto).
  exact H.
Qed.

(** In markup of the grammar every [<] opens one of the thirteen tags. *)
Lemma Markup_lt (x : jstring) :
  Markup x -> forall pre post, x = pre ++ LT :: post ->
  exists t rest, In t tagTokens /\ LT :: post = t ++ rest.
Proof.
  induction 1 as [| c s H1 H2 Hs IH | t s Ht Hs IH]; intros pre post E.
  - destruct pre; discriminate.
  - destruct pre as [|p pre]; cbn in E; injection E as -> E.
    + congruence.
    + now apply IH with pre.
  - apply app_eq_app in E as [l [[E1 E2] | [E1 E2]]].
    + destruct l as [|y l].
      * cbn in E2. subst s. now apply IH with [].
      * cbn in E2. injection E2 as Ey E2. subst y post.
        destruct pre as [|p pre].
        { exists t, s. split; [exact Ht |]. cbn in E1. now subst t. }
        exfalso. cbn in Ht.
        repeat (destruct Ht as [<- | Ht];
                [cbn in E1; injection E1 as _ E1;
                 assert (Hin : In LT (pre ++ LT :: l))
                   by (apply in_or_app; right; now left);
                 rewrite <- E1 in Hin; cbn in Hin;
                 repeat (destruct Hin as [Hin | Hin]; [discriminate Hin |]);
                 contradiction |]).
        contradiction.
    + subst s. now apply IH with l.
Qed.

Lemma html_Markup (platform : Platform) (rawHtml : jstring) :
  Markup (html (convertRichTextToKeepMarkup platform rawHtml)).
Proof.
  unfold convertRichTextToKeepMarkup.
  destruct (negb (truthy _)); cbn [html]; [constructor |].
  apply cleanupOutput_Markup, Markup_concat, Forall_forall.
  intros x Hx. apply filter_In in Hx as [Hx _].
  apply in_map_iff in Hx as [node [<- _]]. apply serializeNode_Markup.
Qed.

(** C2.  A heading element of level 1 to 6 whose serialized content is not
    empty is written as one heading: [h1] for level 1, [h2] for the levels
    2 to 6.  The [html] of a conversion is markup of the restricted grammar,
    so a [<h] or [</h] in it is always followed by 1 or 2: no other heading
    tag appears. *)
Theorem heading_levels (level : jchar) attrs kids ic depth
    (platform : Platform) (rawHtml : jstring) :
  (49 <= level <= 54)%N ->
  let element := Element [72%N; level] attrs kids in
  let inner := serializeChildren element true depth in
  let output := html (convertRichTextToKeepMarkup platform rawHtml) in
  (inner <> [] ->
   serializeNode element ic depth
   = if N.eqb level 49 then js "<h1>" ++ inner ++ js "</h1>"
     else js "<h2>" ++ inner ++ js "</h2>")
  /\ Markup output
  /\ (forall pre h d post,
        output = pre ++ js "<" ++ h :: d :: post ->
        lowerAscii h = 104%N -> d = 49%N \/ d = 50%N)
  /\ (forall pre h d post,
        output = pre ++ js "</" ++ h :: d :: post ->
        lowerAscii h = 104%N -> d = 49%N \/ d = 50%N).
Proof.
  intros Hlevel element inner output.
  pose proof (html_Markup platform rawHtml) as Hout. fold output in Hout.
  split; [| split; [exact Hout | split]].
  - intros Hinner. subst element inner.
    rewrite serializeNode_heading by exact Hlevel. cbv zeta.
    destruct (serializeChildren _ true depth) as [|c inner'] eqn:E;
      [congruence |].
    cbn [truthy]. unfold wrapTag. destruct (N.eqb level 49); reflexivity.
  - intros pre h d post E Hh.
    destruct (Markup_lt _ Hout pre (h :: d :: post) E) as [t [rest [Ht Et]]].
    cbn in Ht.
    repeat (destruct Ht as [<- | Ht];
            [cbn in Et; inversion Et; subst;
             first [ vm_compute in Hh; discriminate Hh
                   | now left | now right ] |]).
    contradiction.
  - intros pre h d post E Hh.
    destruct (Markup_lt _ Hout pre (SLASH :: h :: d :: post) E)
      as [t [rest [Ht Et]]].
    cbn in Ht.
    repeat (destruct Ht as [<- | Ht];
            [cbn in Et; first [ discriminate Et | inversion Et; subst ];
             first [ vm_compute in Hh; discriminate Hh
                   | now left | now right ] |]).
    contradiction.
Qed.

Lemma heading_levels_witness :
  serializeNode (Element (js "H3") [] [Text (js "Subhead")]) false 0
  = js "<h2>Subhead</h2>".
Proof.
  destruct (heading_levels 51%N [] [Text (js "Subhead")] false 0
              Browser.platform (js "<h3>Subhead</h3>")) as [H _].
  - cbv. split; discriminate.
  - apply H. discriminate.
Defined.

(** ** The browser model: text is neither lost nor reordered *)

Import Browser.

Lemma frameText_addKid (n : Node) (f : Frame) :
  frameText (addKid n f) = frameText f ++ textContent n.
Proof.
  unfold frameText, addKid. cbn [fKids rev].
  now rewrite map_app, concat_app; cbn; rewrite app_nil_r.
Qed.

Lemma stackText_cons (f : Frame) (st : Stack) :
  stackText (f :: st) = stackText st ++ frameText f.
Proof.
  unfold stackText. cbn [rev].
  now rewrite map_app, concat_app; cbn; rewrite app_nil_r.
Qed.

Lemma stackText_appendChar (c : jchar) (st : Stack) :
  st <> [] -> stackText (appendChar c st) = stackText st ++ [c].
Proof.
  destruct st as [|top below]; [congruence |]. intros _. unfold appendChar.
  rewrite (stackText_cons top).
  destruct (fKids top) as [|[d | t a k | d] older] eqn:E;
    try (rewrite stackText_cons, frameText_addKid; cbn [textContent];
         now rewrite app_assoc).
  rewrite stackText_cons. unfold frameText. cbn [fKids]. rewrite E.
  cbn [rev]. rewrite !map_app, !concat_app. cbn.
  now rewrite !app_nil_r, <- !app_assoc.
Qed.

Lemma stackText_appendNode_comment (d : jstring) (st : Stack) :
  stackText (appendNode (Comment d) st) = stackText st.
Proof.
  destruct st as [|top below]; [reflexivity |]. cbn [appendNode].
  rewrite !stackText_cons, frameText_addKid. cbn. now rewrite app_nil_r.
Qed.

Lemma stackText_push name attrs (st : Stack) :
  stackText (push name attrs st) = stackText st.
Proof.
  unfold push. rewrite stackText_cons. unfold frameText. cbn.
  now rewrite app_nil_r.
Qed.

Lemma stackText_pop (st : Stack) : stackText (pop st) = stackText st.
Proof.
  destruct st as [|top [|parent below]]; try reflexivity. cbn [pop].
  rewrite !stackText_cons, frameText_addKid. cbn [nodeOfFrame textContent].
  now rewrite <- app_assoc.
Qed.

Lemma pop_nonempty (st : Stack) : st <> [] -> pop st <> [].
Proof. destruct st as [|top [|parent below]]; cbn; congruence. Qed.


Lemma keepsText_id : keepsText (fun st => st).
Proof. intros st H. now split. Qed.

Lemma keepsText_pop : keepsText pop.
Proof. intros st H. split; [now apply pop_nonempty | apply stackText_pop]. Qed.

Lemma keepsText_push name attrs : keepsText (push name attrs).
Proof. intros st H. split; [discriminate | apply stackText_push]. Qed.

Lemma keepsText_comp (f g : Stack -> Stack) :
  keepsText f -> keepsText g -> keepsText (fun st => g (f st)).
Proof.
  intros Hf Hg st H. destruct (Hf st H) as [H1 E1].
  destruct (Hg (f st) H1) as [H2 E2]. split; [exact H2 | congruence].
Qed.

Lemma keepsText_popWhile fuel names : keepsText (popWhile fuel names).
Proof.
  induction fuel as [|f IH]; intros st H; cbn [popWhile]; [now split |].
  destruct st as [|top [|parent below]]; try now split.
  destruct (names (fName top)); [| now split].
  apply (keepsText_comp pop (popWhile f names) keepsText_pop IH). discriminate.
Qed.

Lemma keepsText_popUntil fuel target : keepsText (popUntil fuel target).
Proof.
  induction fuel as [|f IH]; intros st H; cbn [popUntil]; [now split |].
  destruct st as [|top [|parent below]]; try now split.
  destruct (target (fName top)); [now apply keepsText_pop |].
  apply (keepsText_comp pop (popUntil f target) keepsText_pop IH). discriminate.
Qed.

Lemma keepsText_popAll fuel : keepsText (popAll fuel).
Proof.
  induction fuel as [|f IH]; intros st H; cbn [popAll]; [now split |].
  destruct st as [|top [|parent below]]; try now split.
  apply (keepsText_comp pop (popAll f) keepsText_pop IH). discriminate.
Qed.

Lemma keepsText_impliedEnds except : keepsText (impliedEnds except).
Proof. intros st H. unfold impliedEnds. now apply keepsText_popWhile. Qed.

Lemma keepsText_impliedThenUntil except target :
  keepsText (fun st => let st1 := impliedEnds except st in
                       popUntil (length st1) target st1).
Proof.
  intros st H. cbv zeta.
  destruct (keepsText_impliedEnds except st H) as [H1 E1].
  destruct (keepsText_popUntil (length (impliedEnds except st)) target _ H1)
    as [H2 E2].
  split; [exact H2 | congruence].
Qed.

Lemma keepsText_closeP : keepsText closeP.
Proof. apply keepsText_impliedThenUntil. Qed.

Lemma keepsText_closePIfOpen : keepsText closePIfOpen.
Proof.
  intros st H. unfold closePIfOpen.
  destruct (inButtonScope (js "p") st); [now apply keepsText_closeP | now split].
Qed.

Lemma keepsText_closeOpenLi look : keepsText (closeOpenLi look).
Proof.
  induction look as [|top below IH]; intros st H; cbn [closeOpenLi];
    [now split |].
  destruct below as [|next below']; [now split |].
  destruct (jeqb (fName top) (js "li"));
    [now apply (keepsText_impliedThenUntil (js "li") (jeqb (js "li"))) |].
  destruct (_ && _); [now split | now apply IH].
Qed.

Lemma keepsText_closeOther name look : keepsText (closeOther name look).
Proof.
  induction look as [|top below IH]; intros st H; cbn [closeOther];
    [now split |].
  destruct below as [|next below']; [now split |].
  destruct (jeqb (fName top) name);
    [now apply (keepsText_impliedThenUntil name (jeqb name)) |].
  destruct (oneOf specialNames (fName top)); [now split | now apply IH].
Qed.

Lemma keepsText_startTag name attrs : keepsText (startTag name attrs).
Proof.
  intros st H. unfold startTag.
  destruct (oneOf [js "html"; js "head"; js "body"] name); [now split |].
  destruct (oneOf blockNames name).
  { now apply (keepsText_comp closePIfOpen (push name attrs)
                 keepsText_closePIfOpen (keepsText_push name attrs)). }
  destruct (oneOf headingNames name).
  { destruct (keepsText_closePIfOpen st H) as [H1 E1].
    cbv zeta.
    assert (H2 : keepsText (fun st1 =>
                   match st1 with
                   | top :: _ :: _ =>
                       if oneOf headingNames (fName top) then pop st1 else st1
                   | _ => st1
                   end)).
    { intros s1 Hs1. destruct s1 as [|top [|parent below]]; try now split.
      destruct (oneOf headingNames (fName top));
        [now apply keepsText_pop | now split]. }
    destruct (H2 _ H1) as [H3 E3].
    destruct (keepsText_push name attrs _ H3) as [H4 E4].
    split; [exact H4 | congruence]. }
  destruct (jeqb name (js "li")).
  { destruct (keepsText_closeOpenLi st st H) as [H1 E1].
    destruct (keepsText_closePIfOpen _ H1) as [H2 E2].
    destruct (keepsText_push name attrs _ H2) as [H3 E3].
    split; [exact H3 | congruence]. }
  destruct (jeqb name (js "hr")).
  { destruct (keepsText_closePIfOpen st H) as [H1 E1].
    destruct (keepsText_push name attrs _ H1) as [H2 E2].
    destruct (keepsText_pop _ H2) as [H3 E3].
    split; [exact H3 | congruence]. }
  destruct (oneOf voidNames name).
  { destruct (keepsText_push name attrs _ H) as [H2 E2].
    destruct (keepsText_pop _ H2) as [H3 E3].
    split; [exact H3 | congruence]. }
  now apply keepsText_push.
Qed.

Lemma keepsText_endTag name : keepsText (endTag name).
Proof.
  intros st H. unfold endTag.
  destruct (oneOf [js "html"; js "head"; js "body"] name); [now split |].
  destruct (jeqb name (js "p")).
  { destruct (inButtonScope (js "p") st); [now apply keepsText_closeP |].
    destruct (keepsText_push (js "p") [] _ H) as [H2 E2].
    destruct (keepsText_closeP _ H2) as [H3 E3].
    split; [exact H3 | congruence]. }
  destruct (jeqb name (js "li")).
  { destruct (inScope _ _ st); [| now split].
    now apply (keepsText_impliedThenUntil (js "li") (jeqb (js "li"))). }
  destruct (oneOf headingNames name).
  { destruct (inScope _ _ st); [| now split].
    now apply (keepsText_impliedThenUntil [] (oneOf headingNames)). }
  destruct (oneOf blockNames name).
  { destruct (inScope _ _ st); [| now split].
    now apply (keepsText_impliedThenUntil [] (jeqb name)). }
  destruct (jeqb name (js "br")).
  { destruct (keepsText_push (js "br") [] _ H) as [H2 E2].
    destruct (keepsText_pop _ H2) as [H3 E3].
    split; [exact H3 | congruence]. }
  now apply keepsText_closeOther.
Qed.

Lemma treeStep_text (st : Stack) (t : Token) :
  st <> [] ->
  treeStep st t <> [] /\ stackText (treeStep st t) = stackText st ++ tokenChars [t].
Proof.
  intros H. destruct t as [c | name attrs | name | d]; cbn [treeStep tokenChars flat_map];
    rewrite ?app_nil_r.
  - split; [| now apply stackText_appendChar].
    destruct st as [|top below]; [congruence |]. cbn.
    destruct (fKids top) as [|[? | ? ? ? | ?] ?]; discriminate.
  - now apply keepsText_startTag.
  - now apply keepsText_endTag.
  - split; [| apply stackText_appendNode_comment].
    destruct st; [congruence | discriminate].
Qed.

Lemma fold_treeStep_text (tokens : list Token) (st : Stack) :
  st <> [] ->
  fold_left treeStep tokens st <> []
  /\ stackText (fold_left treeStep tokens st) = stackText st ++ tokenChars tokens.
Proof.
  revert st. induction tokens as [|t tokens IH]; intros st H; cbn [fold_left].
  - split; [exact H | cbn; now rewrite app_nil_r].
  - destruct (treeStep_text st t H) as [H1 E1].
    destruct (IH _ H1) as [H2 E2]. split; [exact H2 |].
    rewrite E2, E1, <- app_assoc. f_equal.
    unfold tokenChars. cbn [flat_map]. now rewrite app_nil_r.
Qed.

Lemma popAll_single (fuel : nat) (st : Stack) :
  st <> [] -> length st <= S fuel -> length (popAll fuel st) = 1.
Proof.
  revert st. induction fuel as [|f IH]; intros st H Hlen; cbn [popAll].
  - destruct st as [|a [|b st]]; cbn in *; try congruence; lia.
  - destruct st as [|a [|b st]]; [congruence | reflexivity |].
    apply IH; [discriminate | cbn in *; lia].
Qed.

(** The text of the tree the model builds is the text of the tokens. *)
Lemma buildTree_text (tokens : list Token) :
  concat (map textContent (buildTree tokens)) = tokenChars tokens.
Proof.
  unfold buildTree.
  destruct (fold_treeStep_text tokens [bodyFrame]) as [H E]; [discriminate |].
  set (st := fold_left treeStep tokens [bodyFrame]) in *.
  destruct (keepsText_popAll (length st) st H) as [H1 E1].
  pose proof (popAll_single (length st) st H (Nat.le_succ_diag_r _)) as Hone.
  destruct (popAll (length st) st) as [|root [|x rest]]; try discriminate.
  rewrite E in E1. unfold stackText in E1. cbn in E1.
  rewrite !app_nil_r in E1. exact E1.
Qed.

(** ** The tokenizer never runs out of fuel *)

Lemma spanUntil_split stop (s a b : jstring) :
  spanUntil stop s = (a, b) -> s = a ++ b.
Proof.
  revert a b. induction s as [|c t IH]; intros a b; cbn [spanUntil].
  - now intros [= <- <-].
  - destruct (stop c); [now intros [= <- <-] |].
    destruct (spanUntil stop t) as [a' b']. intros [= <- <-].
    cbn. f_equal. now apply IH.
Qed.

Lemma spanUntil_length stop (s a b : jstring) :
  spanUntil stop s = (a, b) -> length b <= length s.
Proof.
  intros E. apply spanUntil_split in E. subst s. rewrite length_app. lia.
Qed.

Lemma skipHtmlSpaces_length (s : jstring) :
  length (skipHtmlSpaces s) <= length s.
Proof.
  induction s as [|c t IH]; cbn; [lia |]. destruct (isHtmlSpace c); cbn; lia.
Qed.

Lemma dropPrefix_length (p s r : jstring) :
  dropPrefix p s = Some r -> length r <= length s.
Proof.
  revert s. induction p as [|x p IH]; intros s; cbn [dropPrefix].
  - now intros [= <-].
  - destruct s as [|y s']; [discriminate |].
    destruct (N.eqb x y); [| discriminate].
    intros E. apply IH in E. cbn. lia.
Qed.

Lemma charRef_length (s rest : jstring) (c : jchar) :
  charRef s = Some (c, rest) -> length rest <= length s.
Proof.
  unfold charRef.
  assert (Hl : forall refs, lookupRef refs s = Some (c, rest) ->
                            length rest <= length s).
  { induction refs as [|[name d] more IH]; cbn [lookupRef]; [discriminate |].
    destruct (dropPrefix name s) as [r |] eqn:E; [| exact IH].
    intros [= <- <-]. now apply dropPrefix_length with name. }
  destruct (lookupRef namedRefs s) as [[d r] |] eqn:E.
  - intros [= <- <-]. now apply Hl with namedRefs.
  - unfold numericRef. destruct s as [|h t]; [discriminate |].
    destruct (N.eqb h 35); [| discriminate].
    destruct (takeDigits t) as [|d ds]; [discriminate |].
    destruct (skipn _ t) as [|semi r] eqn:Es; [discriminate |].
    destruct (N.eqb semi 59); [| discriminate]. intros [= <- <-].
    assert (Hs : length (semi :: r) <= length t)
      by (rewrite <- Es, length_skipn; lia).
    cbn in *. lia.
Qed.

Lemma mToGt_length (s m r : jstring) :
  mToGt s = Some (m, r) -> length r < length s.
Proof.
  revert m r. induction s as [|c t IH]; intros m r; cbn [mToGt];
    [discriminate |].
  destruct (N.eqb c GT); [intros [= <- <-]; cbn; lia |].
  destruct (mToGt t) as [[m' r'] |] eqn:E; [| discriminate].
  intros [= <- <-]. specialize (IH _ _ eq_refl). cbn. lia.
Qed.

Lemma rawText_length (name s a b : jstring) :
  rawText name s = (a, b) -> length b <= length s.
Proof.
  revert a b. induction s as [|c t IH]; intros a b; cbn [rawText].
  - now intros [= <- <-].
  - assert (Hrec : forall a' b', (let '(x, y) := rawText name t in (c :: x, y))
                                 = (a', b') -> length b' <= length (c :: t)).
    { intros a' b'. destruct (rawText name t) as [x y]. intros [= <- <-].
      specialize (IH _ _ eq_refl). cbn. lia. }
    destruct (mLit true (js "</" ++ name) (c :: t)) as [[m after] |] eqn:E;
      [| apply Hrec].
    destruct after as [|x after']; [apply Hrec |].
    destruct (isNameEnd x); [| apply Hrec].
    apply sound in E.
    assert (Ha : length (x :: after') <= length (c :: t))
      by (rewrite E, length_app; lia).
    destruct (mToGt (x :: after')) as [[m' rest] |] eqn:Eg;
      intros [= <- <-].
    + apply mToGt_length in Eg. cbn [length] in *. lia.
    + cbn [length] in *. lia.
Qed.

Lemma commentText_length (s a b : jstring) :
  commentText s = (a, b) -> length b <= length s.
Proof.
  revert a b. induction s as [|c t IH]; intros a b; cbn [commentText].
  - now intros [= <- <-].
  - destruct (dropPrefix (js "-->") (c :: t)) as [rest |] eqn:E.
    + intros [= <- <-]. now apply dropPrefix_length with (js "-->").
    + destruct (commentText t) as [x y]. intros [= <- <-].
      specialize (IH _ _ eq_refl). cbn. lia.
Qed.

Lemma scanAttrs_length (fuel : nat) (s : jstring) attrs (rest : jstring) :
  scanAttrs fuel s = Some (attrs, rest) -> length rest < length s.
Proof.
  revert s attrs rest. induction fuel as [|f IH]; intros s attrs rest;
    cbn [scanAttrs]; [discriminate |].
  pose proof (skipHtmlSpaces_length s) as Hs.
  destruct (skipHtmlSpaces s) as [|c t]; [discriminate |].
  destruct (N.eqb c GT); [intros [= <- <-]; cbn in Hs; lia |].
  destruct (N.eqb c SLASH).
  { intros E. apply IH in E. cbn in Hs. lia. }
  destruct (spanUntil _ (c :: t)) as [name r1] eqn:E1.
  apply spanUntil_length in E1.
  pose proof (skipHtmlSpaces_length r1) as H2.
  match goal with
  | |- context [let '(value, r3) := ?v in _] => destruct v as [value r3] eqn:E3
  end.
  assert (H3 : length r3 <= length r1).
  { destruct (skipHtmlSpaces r1) as [|e r] eqn:Er;
      [injection E3 as <- <-; cbn in *; lia |].
    destruct (N.eqb e 61); [| injection E3 as <- <-; cbn in *; lia].
    pose proof (skipHtmlSpaces_length r) as H4.
    destruct (skipHtmlSpaces r) as [|q r'];
      [injection E3 as <- <-; cbn in *; lia |].
    destruct (N.eqb q 34 || N.eqb q 39).
    - destruct (spanUntil (N.eqb q) r') as [v r''] eqn:E5.
      apply spanUntil_length in E5. injection E3 as <- <-.
      destruct r''; cbn in *; lia.
    - apply spanUntil_length in E3. cbn in *. lia. }
  destruct (map lowerAscii name); [discriminate |].
  destruct (scanAttrs f r3) as [[more rest'] |] eqn:E6; [| discriminate].
  intros [= <- <-]. apply IH in E6. cbn in *. lia.
Qed.

Lemma tokenizeFuel_enough (n m : nat) (s : jstring) :
  length s <= n -> length s <= m -> tokenizeFuel n s = tokenizeFuel m s.
Proof.
  revert m s. induction n as [|n IH]; intros m s Hn Hm.
  { destruct s; [| cbn in Hn; lia]. destruct m; reflexivity. }
  destruct m as [|m]; [destruct s; [reflexivity | cbn in Hm; lia] |].
  destruct s as [|c t]; [reflexivity |]. cbn [length] in Hn, Hm.
  assert (Hrec : forall rest, length rest <= length t ->
                 tokenizeFuel n rest = tokenizeFuel m rest)
    by (intros rest Hr; apply IH; lia).
  assert (Hgt : forall u, match mToGt u with
                          | Some (mm, rest) => length rest <= length u
                          | None => True
                          end).
  { intros u. destruct (mToGt u) as [[mm rest] |] eqn:E; [| exact I].
    apply mToGt_length in E. lia. }
  cbn [tokenizeFuel].
  destruct (N.eqb c AMP).
  { destruct (charRef t) as [[d rest] |] eqn:E.
    - apply charRef_length in E. now rewrite Hrec.
    - now rewrite Hrec. }
  destruct (N.eqb c LT); [| now rewrite Hrec].
  destruct t as [|x t']; [reflexivity |].
  destruct (isAsciiAlpha x).
  { destruct (spanUntil isNameEnd (x :: t')) as [name r1] eqn:E1.
    apply spanUntil_length in E1.
    destruct (scanAttrs _ r1) as [[attrs rest] |] eqn:E2; [| reflexivity].
    apply scanAttrs_length in E2.
    destruct (isRawTextTag _).
    - destruct (rawText _ rest) as [text rest'] eqn:E3.
      apply rawText_length in E3. rewrite Hrec by lia. reflexivity.
    - rewrite Hrec by lia. reflexivity. }
  destruct (N.eqb x SLASH).
  { destruct t' as [|y t'']; [reflexivity |].
    destruct (isAsciiAlpha y).
    - destruct (spanUntil isNameEnd (y :: t'')) as [name r1] eqn:E1.
      apply spanUntil_length in E1. specialize (Hgt r1).
      destruct (mToGt r1) as [[mm rest] |]; [| reflexivity].
      rewrite Hrec by (cbn [length] in *; lia). reflexivity.
    - destruct (N.eqb y GT); [apply Hrec; cbn; lia |].
      specialize (Hgt (y :: t'')).
      destruct (mToGt (y :: t'')) as [[mm rest] |]; [| reflexivity].
      rewrite Hrec by (cbn [length] in *; lia). reflexivity. }
  destruct (N.eqb x 33).
  { destruct (dropPrefix (js "--") t') as [body |] eqn:E1.
    - apply dropPrefix_length in E1.
      destruct (commentText body) as [text rest] eqn:E2.
      apply commentText_length in E2.
      rewrite Hrec by (cbn [length] in *; lia). reflexivity.
    - specialize (Hgt t').
      destruct (mToGt t') as [[mm rest] |]; [| reflexivity].
      rewrite Hrec by (cbn [length] in *; lia). reflexivity. }
  destruct (N.eqb x 63).
  { specialize (Hgt (x :: t')).
    destruct (mToGt (x :: t')) as [[mm rest] |]; [| reflexivity].
    rewrite Hrec by (cbn [length] in *; lia). reflexivity. }
  now rewrite Hrec.
Qed.

(** The equations of the tokenizer on the text the projector hands to
    [innerHTML]. *)
Lemma tokenize_char (c : jchar) (s : jstring) :
  c <> AMP -> c <> LT -> tokenize (c :: s) = TChar c :: tokenize s.
Proof.
  intros Ha Hl. unfold tokenize. cbn [length tokenizeFuel].
  apply N.eqb_neq in Ha, Hl. now rewrite Ha, Hl.
Qed.

Lemma tokenize_text (a s : jstring) :
  Forall (fun c => c <> AMP /\ c <> LT) a ->
  tokenize (a ++ s) = map TChar a ++ tokenize s.
Proof.
  induction 1 as [|c a [Ha Hl] _ IH]; [reflexivity |].
  cbn [app map]. rewrite tokenize_char by assumption. now rewrite IH.
Qed.

Lemma tokenizeFuel_open (n : nat) (name s : jstring) :
  In name [js "p"; js "h1"; js "h2"] ->
  tokenizeFuel (S n) (js "<" ++ name ++ js ">" ++ s)
  = TStart name [] :: tokenizeFuel n s.
Proof.
  intros H. cbn in H. destruct H as [<- | [<- | [<- | []]]]; reflexivity.
Qed.

Lemma tokenize_open (name s : jstring) :
  In name [js "p"; js "h1"; js "h2"] ->
  tokenize (js "<" ++ name ++ js ">" ++ s) = TStart name [] :: tokenize s.
Proof.
  intros H. unfold tokenize.
  assert (E : length (js "<" ++ name ++ js ">" ++ s)
              = S (S (length name + length s))).
  { rewrite !length_app. cbn. lia. }
  rewrite E, tokenizeFuel_open by exact H.
  f_equal. apply tokenizeFuel_enough; lia.
Qed.



(** ** The plain-text projector on a paragraph followed by a heading *)

Lemma plainChar_facts (c : jchar) :
  plainChar c = true ->
  c <> LT /\ c <> GT /\ c <> AMP /\ c <> LF /\ c <> NBSP.
Proof.
  unfold plainChar. intros H.
  repeat split; intros ->; vm_compute in H; discriminate.
Qed.

Lemma replaceAll_none (r : rule) `{RuleOk r} (c : jchar) (t : jstring) :
  r (c :: t) = None -> replaceAll r (c :: t) = c :: replaceAll r t.
Proof. intros E. now rewrite (replaceAll_cons r), E. Qed.

(** A rule that can only match at the code unit [x] copies text free of
    [x]. *)
Lemma replaceAll_text (r : rule) `{RuleOk r} (x : jchar) (a s : jstring) :
  (forall c t, c <> x -> r (c :: t) = None) ->
  Forall (fun c => c <> x) a ->
  replaceAll r (a ++ s) = a ++ replaceAll r s.
Proof.
  intros Hr. induction 1 as [|c a Hc _ IH]; [reflexivity |].
  cbn [app]. rewrite (replaceAll_none r) by now apply Hr. now rewrite IH.
Qed.

Lemma replaceChar_app (c : jchar) (out a b : jstring) :
  replaceChar c out (a ++ b) = replaceChar c out a ++ replaceChar c out b.
Proof. unfold replaceChar. apply flat_map_app. Qed.

Lemma replaceChar_id (c : jchar) (out a : jstring) :
  Forall (fun x => x <> c) a -> replaceChar c out a = a.
Proof.
  unfold replaceChar. induction 1 as [|x a Hx _ IH]; [reflexivity |].
  cbn [flat_map]. apply N.eqb_neq in Hx. rewrite Hx, IH. reflexivity.
Qed.

Lemma splitOn_line (sep : jchar) (a rest : jstring) :
  Forall (fun x => x <> sep) a ->
  splitOn sep (a ++ sep :: rest) = a :: splitOn sep rest.
Proof.
  induction 1 as [|x a Hx _ IH]; cbn [app splitOn].
  - now rewrite N.eqb_refl.
  - apply N.eqb_neq in Hx. now rewrite Hx, IH.
Qed.

Lemma splitOn_last (sep : jchar) (a : jstring) :
  Forall (fun x => x <> sep) a -> splitOn sep a = [a].
Proof.
  induction 1 as [|x a Hx _ IH]; cbn [splitOn]; [reflexivity |].
  apply N.eqb_neq in Hx. now rewrite Hx, IH.
Qed.

Lemma trimEnd_keep (s : jstring) :
  s <> [] -> isSpace (last s SPACE) = false -> trimEnd s = s.
Proof.
  intros Hne Hlast.
  assert (E : rev s = last s SPACE :: rev (removelast s)).
  { rewrite (app_removelast_last SPACE Hne) at 1. now rewrite rev_app_distr. }
  unfold trimEnd. rewrite E. cbn [dropSpaces]. rewrite Hlast, <- E.
  apply rev_involutive.
Qed.

Lemma trimEnd_space (s : jstring) (c : jchar) :
  isSpace c = true -> trimEnd (s ++ [c]) = trimEnd s.
Proof.
  intros Hc. unfold trimEnd. rewrite rev_app_distr. cbn [rev app dropSpaces].
  now rewrite Hc.
Qed.

Lemma last_app_cons (a b : jstring) (d : jchar) :
  b <> [] -> last (a ++ b) d = last b d.
Proof.
  intros Hb. induction a as [|x a IH]; [reflexivity |].
  cbn [app]. destruct (a ++ b) eqn:E.
  - apply app_eq_nil in E as [_ ->]. congruence.
  - rewrite <- E in *. cbn [last]. rewrite E. rewrite <- E. exact IH.
Qed.

Lemma replaceAll_match_cons (r : rule) `{RuleOk r} c t out rest :
  r (c :: t) = Some (out, rest) ->
  replaceAll r (c :: t) = out ++ replaceAll r rest.
Proof. apply (replaceAll_match r). Qed.

Lemma separatorRule_text c t : c <> LT -> separatorRule (c :: t) = None.
Proof.
  intros H. unfold separatorRule.
  replace (reCloseBlock (c :: t)) with (@None (jstring * jstring));
    [reflexivity |].
  symmetry. apply mSeq_none, (mLit_lt_head false (js "/")), H.
Qed.

Lemma constRule_text (m : matcher) (out : jstring) (x : jchar) :
  (forall c t, c <> x -> m (c :: t) = None) ->
  forall c t, c <> x -> constRule m out (c :: t) = None.
Proof. intros Hm c t Hc. unfold constRule. now rewrite Hm. Qed.

Lemma reCloseHeading_text c t : c <> LT -> reCloseHeading (c :: t) = None.
Proof. intros H. apply mSeq_none, (mLit_lt_head true (js "/h")), H. Qed.

Lemma reBlankLines_text c t : c <> LF -> reBlankLines (c :: t) = None.
Proof.
  intros H. apply mSeq_none. cbn [mLit charEq].
  apply N.eqb_neq in H. rewrite N.eqb_sym in H. now rewrite H.
Qed.

(** A line break before text is no run of blank lines; two line breaks
    before text are one run. *)
Lemma reBlankLines_one (b s : jstring) :
  b <> [] -> hd SPACE b <> LF -> reBlankLines (LF :: b ++ s) = None.
Proof.
  destruct b as [|c b]; [congruence |]. cbn [hd app]. intros _ H.
  apply mSeq_none. cbn [mLit charEq]. rewrite N.eqb_refl.
  apply N.eqb_neq in H. rewrite N.eqb_sym in H. now rewrite H.
Qed.

Lemma reBlankLines_two (b s : jstring) :
  b <> [] -> hd SPACE b <> LF ->
  reBlankLines (LF :: LF :: b ++ s) = Some ([LF; LF], b ++ s).
Proof.
  destruct b as [|c b]; [congruence |]. cbn [hd app]. intros _ H.
  unfold reBlankLines, mSeq. cbn [mLit charEq]. rewrite !N.eqb_refl.
  unfold mMany. cbn [length mStar mChar].
  apply N.eqb_neq in H. rewrite N.eqb_sym in H. now rewrite H.
Qed.

Lemma blankLinesRule_one (b s : jstring) :
  b <> [] -> hd SPACE b <> LF ->
  constRule reBlankLines [LF; LF] (LF :: b ++ s) = None.
Proof.
  intros H1 H2. unfold constRule. now rewrite reBlankLines_one.
Qed.

Lemma blankLinesRule_two (b s : jstring) :
  b <> [] -> hd SPACE b <> LF ->
  constRule reBlankLines [LF; LF] (LF :: LF :: b ++ s)
  = Some ([LF; LF], b ++ s).
Proof.
  intros H1 H2. unfold constRule. now rewrite reBlankLines_two.
Qed.

Lemma takeSpaces_app (ws s : jstring) :
  Forall (fun c => isSpace c = true) ws -> isSpace (hd LT s) = false ->
  takeSpaces (ws ++ s) = ws /\ dropSpaces (ws ++ s) = s.
Proof.
  intros Hws Hs. induction Hws as [|c ws Hc _ [IH1 IH2]].
  - destruct s as [|x s]; [now split |]. cbn in Hs |- *. now rewrite Hs.
  - cbn. rewrite Hc, IH1, IH2. now split.
Qed.


Arguments replaceAll : simpl never.

Ltac eval_js :=
  repeat match goal with
         | |- context [js ?s] =>
             let v := eval vm_compute in (js s) in change (js s) with v
         end.

(** Runs the innermost global replace one step over a string made of
    literals and of phrases known to be free of [<] (or of line breaks). *)
Ltac ra_step :=
  match goal with
  | |- context [replaceAll ?r ?s] =>
      lazymatch s with
      | context [replaceAll _ _] => fail
      | _ =>
          first
            [ rewrite (replaceAll_nil r)
            | rewrite (replaceAll_none r) by reflexivity
            | erewrite (replaceAll_match_cons r) by (cbn; reflexivity);
              cbn [app]
            | erewrite (replaceAll_match_cons r _ _ [LF; LF]) by
                (apply blankLinesRule_two; assumption)
            | rewrite (replaceAll_none r) by
                (apply blankLinesRule_one; assumption)
            | rewrite (replaceAll_text r LT) by
                first [ apply separatorRule_text
                      | apply constRule_text;
                        first [ apply reBr_text
                              | apply (mLit_lt_head true (js "/p>"))
                              | apply reCloseHeading_text ]
                      | assumption ]
            | rewrite (replaceAll_text r LF) by
                first [ apply constRule_text; apply reBlankLines_text
                      | assumption ] ]
      end
  end.

Ltac ra_run := repeat ra_step.

Lemma tokenize_lit_p s :
  tokenize (60 :: 112 :: 62 :: s)%N = TStart (js "p") [] :: tokenize s.
Proof. apply (tokenize_open (js "p")). cbn. auto. Qed.




Lemma tokenize_lf s : tokenize (LF :: s) = TChar LF :: tokenize s.
Proof. apply tokenize_char; discriminate. Qed.

Lemma tokenChars_text (a : jstring) (tokens : list Token) :
  tokenChars (map TChar a ++ tokens) = a ++ tokenChars tokens.
Proof.
  unfold tokenChars. rewrite flat_map_app. f_equal.
  induction a as [|c a IH]; [reflexivity |]. cbn. now rewrite IH.
Qed.

Lemma tokenChars_cons (t : Token) (tokens : list Token) :
  tokenChars (t :: tokens)
  = match t with TChar c => [c] | _ => [] end ++ tokenChars tokens.
Proof. reflexivity. Qed.


Lemma dropSpaces_app_keep (a s : jstring) :
  a <> [] -> isSpace (hd SPACE a) = false -> dropSpaces (a ++ s) = a ++ s.
Proof.
  destruct a as [|c a]; [congruence |]. cbn. intros _ H. now rewrite H.
Qed.

Lemma normalizeLine_phrase (a : jstring) : Phrase a -> normalizeLine a = a.
Proof.
  intros (H0 & _ & H1 & _). unfold normalizeLine.
  destruct a as [|c a]; [congruence |]. cbn [hd] in H1.
  assert (E : startsWith (js "    ") (c :: a) = false).
  { change (js "    ") with (32%N :: js "   "). cbn [startsWith].
    destruct (N.eqb_spec 32 c) as [<- | Hne]; [discriminate H1 | reflexivity]. }
  rewrite E. cbn [dropSpaces]. now rewrite H1.
Qed.

Lemma Phrase_free (a : jstring) :
  Phrase a ->
  Forall (fun c => c <> LT) a /\ Forall (fun c => c <> LF) a
  /\ Forall (fun c => c <> NBSP) a
  /\ Forall (fun c => c <> AMP /\ c <> LT) a
  /\ hd SPACE a <> LF.
Proof.
  intros (H0 & Ha & H1 & _).
  repeat split;
    try (eapply Forall_impl; [| exact Ha]; intros c Hc;
         apply plainChar_facts in Hc; tauto).
  intros E. rewrite E in H1. discriminate.
Qed.


Lemma trimEnd_tail (pre b ws : jstring) :
  b <> [] -> isSpace (last b SPACE) = false ->
  Forall (fun c => isSpace c = true) ws ->
  trimEnd (pre ++ b ++ ws) = pre ++ b.
Proof.
  intros Hb Hlast Hws. unfold trimEnd.
  rewrite !rev_app_distr, <- app_assoc.
  assert (E : rev b = last b SPACE :: rev (removelast b)).
  { rewrite (app_removelast_last SPACE Hb) at 1. now rewrite rev_app_distr. }
  destruct (takeSpaces_app (rev ws) (rev b ++ rev pre)) as [_ Hd].
  - now apply Forall_rev.
  - rewrite E. cbn [app hd]. exact Hlast.
  - rewrite Hd, <- rev_app_distr. apply rev_involutive.
Qed.


Section ParagraphHeading.

Variables (a b : jstring).
Hypotheses (Hpa : Phrase a) (Hpb : Phrase b).





End ParagraphHeading.



(** ** The cleaner on markup, piece by piece *)

Lemma flatten_char c l : flatten (PChar c :: l) = c :: flatten l.
Proof. reflexivity. Qed.

Lemma flatten_tag t l : flatten (PTag t :: l) = t ++ flatten l.
Proof. reflexivity. Qed.

Lemma Markup_pieces (s : jstring) :
  Markup s -> exists l, Forall wellFormed l /\ s = flatten l.
Proof.
  induction 1 as [| c s H1 H2 _ [l [Hl ->]] | t s Ht _ [l [Hl ->]]].
  - exists []. split; [constructor | reflexivity].
  - exists (PChar c :: l). split; [| reflexivity].
    constructor; [split; assumption | assumption].
  - exists (PTag t :: l). split; [| reflexivity].
    constructor; assumption.
Qed.

Lemma pieces_Markup (l : list Piece) : Forall wellFormed l -> Markup (flatten l).
Proof.
  induction 1 as [| [c | t] l Hp _ IH].
  - constructor.
  - rewrite flatten_char. destruct Hp. now constructor.
  - rewrite flatten_tag. now constructor.
Qed.

Lemma tag_not_space (t : jstring) (s : jstring) :
  In t tagTokens -> startsSpace (t ++ s) = false /\ dropSpaces (t ++ s) = t ++ s.
Proof. intros Ht. destruct (tag_head _ Ht) as [t' ->]. now split. Qed.

Lemma flatten_dropWs (l : list Piece) :
  Forall wellFormed l -> dropSpaces (flatten l) = flatten (dropWs l).
Proof.
  induction 1 as [| [c | t] l Hp _ IH]; [reflexivity | |].
  - rewrite flatten_char. cbn [dropSpaces dropWs].
    destruct (isSpace c); [exact IH | reflexivity].
  - rewrite flatten_tag. now apply tag_not_space.
Qed.

Lemma flatten_startsWs (l : list Piece) :
  Forall wellFormed l -> startsSpace (flatten l) = startsWs l.
Proof.
  destruct 1 as [| [c | t] l Hp _]; [reflexivity | reflexivity |].
  rewrite flatten_tag. now apply tag_not_space.
Qed.

Lemma dropWs_wellFormed (l : list Piece) :
  Forall wellFormed l -> Forall wellFormed (dropWs l).
Proof.
  induction 1 as [| [c | t] l Hp Hl IH]; cbn [dropWs].
  - constructor.
  - destruct (isSpace c); [exact IH | now constructor].
  - now constructor.
Qed.

Lemma dropWs_length (l : list Piece) : length (dropWs l) <= length l.
Proof.
  induction l as [| [c | t] l IH]; cbn [dropWs]; [lia | | lia].
  destruct (isSpace c); cbn [length]; lia.
Qed.

Lemma dropWs_startsWs (l : list Piece) : startsWs (dropWs l) = false.
Proof.
  induction l as [| [c | t] l IH]; cbn [dropWs]; [reflexivity | | reflexivity].
  destruct (isSpace c) eqn:E; [exact IH | cbn; exact E].
Qed.

Lemma dropWs_id (l : list Piece) : startsWs l = false -> dropWs l = l.
Proof.
  destruct l as [| [c | t] l]; cbn; [reflexivity | | reflexivity].
  now intros ->.
Qed.

Lemma mSpaces1_spec (s : jstring) :
  mSpaces1 s
  = if startsSpace s then Some (takeSpaces s, dropSpaces s) else None.
Proof. destruct s as [|c t]; [reflexivity |]. reflexivity. Qed.

(** ** The rules of the cleaner, piece by piece *)

Lemma replaceAll_tag (r : rule) `{RuleOk r} `{Compatible r}
    (t s : jstring) :
  In t tagTokens -> r (t ++ s) = None ->
  replaceAll r (t ++ s) = t ++ replaceAll r s.
Proof.
  intros Ht E. destruct (tag_head _ Ht) as [t' ->].
  apply (replaceAll_skip r). cbn [nonEmptyTails]. constructor; [exact E |].
  apply (compat_inside (LT :: t') Ht).
Qed.

Section AfterTags.

Variables (g : matcher) (P : jstring -> bool).
Context `{Selects g P} `{Sound g} `{Progress g}
        `{Compatible (keepFirst g mSpaces1)}.

Lemma keepFirst_text (c : jchar) (s : jstring) :
  c <> LT -> keepFirst g mSpaces1 (c :: s) = None.
Proof. intros Hc. unfold keepFirst. now rewrite selects_text. Qed.

Lemma keepFirst_tag (t s : jstring) :
  In t tagTokens ->
  keepFirst g mSpaces1 (t ++ s)
  = if P t && startsSpace s then Some (t, dropSpaces s) else None.
Proof.
  intros Ht. unfold keepFirst. rewrite selects_tag by exact Ht.
  destruct (P t); [| reflexivity]. rewrite mSpaces1_spec.
  now destruct (startsSpace s).
Qed.

Lemma afterTags_skip (l : list Piece) :
  afterTags P true l = afterTags P false (dropWs l).
Proof.
  induction l as [| [c | t] l IH]; [reflexivity | | reflexivity].
  cbn [afterTags dropWs andb]. destruct (isSpace c); [exact IH | reflexivity].
Qed.

Lemma replaceAll_afterTags (l : list Piece) :
  Forall wellFormed l ->
  replaceAll (keepFirst g mSpaces1) (flatten l) = flatten (afterTags P false l).
Proof.
  assert (Hn : forall n l, length l < n -> Forall wellFormed l ->
                 replaceAll (keepFirst g mSpaces1) (flatten l)
                 = flatten (afterTags P false l)).
  { clear l. induction n as [|n IH]; intros l Hlen Hl; [lia |].
    destruct Hl as [| [c | t] l Hp Hl]; [reflexivity | |].
    - destruct Hp as [Hc _]. rewrite flatten_char.
      rewrite (replaceAll_none _) by now apply keepFirst_text.
      cbn [afterTags andb]. rewrite flatten_char. f_equal.
      apply IH; [cbn in Hlen; lia | exact Hl].
    - cbn in Hp. rewrite flatten_tag. cbn [afterTags]. rewrite flatten_tag.
      pose proof (keepFirst_tag t (flatten l) Hp) as E.
      destruct (P t) eqn:EP; cbn [andb] in E.
      + rewrite afterTags_skip.
        destruct (startsSpace (flatten l)) eqn:Es.
        * rewrite (replaceAll_match _ _ _ _ E). f_equal.
          rewrite flatten_dropWs by exact Hl.
          apply IH; [| now apply dropWs_wellFormed].
          pose proof (dropWs_length l). cbn in Hlen. lia.
        * rewrite (replaceAll_tag _ t _ Hp E). f_equal.
          rewrite flatten_startsWs in Es by exact Hl.
          rewrite dropWs_id by exact Es.
          apply IH; [cbn in Hlen; lia | exact Hl].
      + rewrite (replaceAll_tag _ t _ Hp E). f_equal.
        apply IH; [cbn in Hlen; lia | exact Hl]. }
  intros Hl. apply Hn with (S (length l)); [lia | exact Hl].
Qed.

End AfterTags.

Section BeforeTags.

Variables (g : matcher) (P : jstring -> bool).
Context `{Selects g P} `{Sound g}
        `{Compatible (keepSecond mSpaces1 g)}.

(** Where the rule stands at a piece: it fires at white space that runs up
    to a selected tag, and resumes after the tag. *)
Lemma keepSecond_pieces (l : list Piece) :
  Forall wellFormed l ->
  keepSecond mSpaces1 g (flatten l)
  = if startsWs l then
      match dropWs l with
      | PTag t :: rest => if P t then Some (t, flatten rest) else None
      | _ => None
      end
    else None.
Proof.
  intros Hl. unfold keepSecond. rewrite mSpaces1_spec.
  rewrite flatten_startsWs by exact Hl.
  destruct (startsWs l); [| reflexivity].
  rewrite flatten_dropWs by exact Hl.
  pose proof (dropWs_wellFormed l Hl) as Hd.
  destruct Hd as [| [c | t] rest Hp _].
  - cbn [flatten flat_map]. now rewrite selects_nil.
  - destruct Hp as [Hc _]. rewrite flatten_char.
    now rewrite selects_text by exact Hc.
  - cbn in Hp. rewrite flatten_tag, selects_tag by exact Hp.
    now destruct (P t).
Qed.

Lemma replaceAll_run (l rest : list Piece) (t : jstring) :
  Forall wellFormed l -> dropWs l = PTag t :: rest -> P t = true ->
  replaceAll (keepSecond mSpaces1 g) (flatten l)
  = t ++ replaceAll (keepSecond mSpaces1 g) (flatten rest).
Proof.
  intros Hl Ed Pt. pose proof (keepSecond_pieces l Hl) as E.
  rewrite Ed, Pt in E.
  destruct (startsWs l) eqn:Es.
  - exact (replaceAll_match _ _ _ _ E).
  - rewrite dropWs_id in Ed by exact Es. subst l.
    rewrite flatten_tag in *.
    refine (replaceAll_tag _ t (flatten rest) _ E). now inversion Hl.
Qed.

Lemma replaceAll_beforeTags (l : list Piece) :
  Forall wellFormed l ->
  replaceAll (keepSecond mSpaces1 g) (flatten l) = flatten (beforeTags P l).
Proof.
  induction 1 as [| [c | t] l Hp Hl IH]; [reflexivity | |].
  - pose proof (keepSecond_pieces (PChar c :: l)
                  (Forall_cons _ Hp Hl)) as E.
    cbn [startsWs dropWs beforeTags] in *.
    destruct (isSpace c) eqn:Ec; cbn [andb].
    + destruct (dropWs l) as [| [c' | t] rest] eqn:Ed; cbn [startsTag].
      * rewrite flatten_char in *.
        rewrite (replaceAll_none _) by exact E.
        rewrite flatten_char. now f_equal.
      * rewrite flatten_char in *.
        rewrite (replaceAll_none _) by exact E.
        rewrite flatten_char. now f_equal.
      * destruct (P t) eqn:Pt.
        -- rewrite <- IH. rewrite (replaceAll_match _ _ _ _ E).
           symmetry. now apply replaceAll_run.
        -- rewrite flatten_char in *.
           rewrite (replaceAll_none _) by exact E.
           rewrite flatten_char. now f_equal.
    + rewrite flatten_char in *.
      rewrite (replaceAll_none _) by exact E.
      rewrite flatten_char. now f_equal.
  - cbn [beforeTags]. rewrite !flatten_tag.
    pose proof (keepSecond_pieces (PTag t :: l) (Forall_cons _ Hp Hl)) as E.
    rewrite (replaceAll_tag _ t (flatten l) Hp E). now f_equal.
Qed.

End BeforeTags.

Ltac selects_tags head_none :=
  split;
  [ reflexivity
  | intros c s Hc; now apply head_none
  | let t := fresh "t" in let s := fresh "s" in let Ht := fresh "Ht" in
    intros t s Ht; cbn in Ht;
    repeat (destruct Ht as [<- | Ht]; [vm_compute; reflexivity |]);
    contradiction ].

#[export] Instance Selects_reOpenP : Selects reOpenP isOpenP.
Proof. selects_tags reOpenP_text. Qed.

#[export] Instance Selects_reOpenHeading : Selects reOpenHeading isOpenHeading.
Proof. selects_tags reOpenHeading_text. Qed.

#[export] Instance Selects_reBr : Selects reBr isBr.
Proof. selects_tags reBr_text. Qed.

#[export] Instance Selects_reBlockTag : Selects reBlockTag isBlockTag.
Proof. selects_tags reBlockTag_text. Qed.

(** ** White space next to a tag *)

Lemma Squeezed_refl (l : list Piece) : Squeezed l l.
Proof. induction l; constructor; assumption. Qed.

Lemma Squeezed_trans (a b c : list Piece) :
  Squeezed a b -> Squeezed b c -> Squeezed a c.
Proof.
  intros Hab. revert c. induction Hab as [| p l l' _ IH | x l l' Hx _ IH];
    intros c Hbc.
  - exact Hbc.
  - inversion Hbc; subst.
    + constructor. now apply IH.
    + constructor; [assumption |]. now apply IH.
  - constructor; [exact Hx |]. now apply IH.
Qed.

Lemma Squeezed_wellFormed (l l' : list Piece) :
  Squeezed l l' -> Forall wellFormed l -> Forall wellFormed l'.
Proof.
  induction 1 as [| p l l' _ IH | c l l' _ _ IH]; intros Hl.
  - constructor.
  - inversion Hl; subst. constructor; auto.
  - inversion Hl; subst. auto.
Qed.

Lemma Squeezed_dropWs (l : list Piece) : Squeezed l (dropWs l).
Proof.
  induction l as [| [c | t] l IH]; cbn [dropWs].
  - constructor.
  - destruct (isSpace c) eqn:E; [now constructor | apply Squeezed_refl].
  - apply Squeezed_refl.
Qed.

Lemma Squeezed_afterTags (P : jstring -> bool) (l : list Piece) (skip : bool) :
  Squeezed l (afterTags P skip l).
Proof.
  revert skip. induction l as [| [c | t] l IH]; intros skip; cbn [afterTags].
  - constructor.
  - destruct (skip && isSpace c) eqn:E.
    + apply andb_true_iff in E as [_ E]. now constructor.
    + now constructor.
  - now constructor.
Qed.

Lemma Squeezed_beforeTags (P : jstring -> bool) (l : list Piece) :
  Squeezed l (beforeTags P l).
Proof.
  induction l as [| [c | t] l IH]; cbn [beforeTags].
  - constructor.
  - destruct (isSpace c && startsTag P (dropWs l)) eqn:E.
    + apply andb_true_iff in E as [E _]. now constructor.
    + now constructor.
  - now constructor.
Qed.

Lemma Squeezed_startsWs (l l' : list Piece) :
  Squeezed l l' -> startsWs l = false -> startsWs l' = false.
Proof.
  destruct 1 as [| p l l' _ | c l l' Hc _]; cbn; [auto | auto |].
  congruence.
Qed.

Lemma noSpaceAfter_Squeezed (P : jstring -> bool) (l l' : list Piece) :
  Squeezed l l' -> noSpaceAfter P l -> noSpaceAfter P l'.
Proof.
  induction 1 as [| [c | t] l l' Hs IH | c l l' _ _ IH]; cbn [noSpaceAfter].
  - auto.
  - exact IH.
  - intros [H1 H2]. split; [| now apply IH].
    intros Pt. apply Squeezed_startsWs with l; auto.
  - exact IH.
Qed.

Lemma Squeezed_startsTag (P : jstring -> bool) (l l' : list Piece) :
  Squeezed l l' -> noSpaceBefore P l ->
  startsTag P l' = true -> startsTag P l = true.
Proof.
  induction 1 as [| p l l' _ _ | c l l' Hc _ IH]; cbn [noSpaceBefore].
  - auto.
  - auto.
  - intros [H1 H2] Hl'. rewrite H1 in IH by exact Hc.
    specialize (IH H2 Hl'). discriminate IH.
Qed.

Lemma noSpaceBefore_Squeezed (P : jstring -> bool) (l l' : list Piece) :
  Squeezed l l' -> noSpaceBefore P l -> noSpaceBefore P l'.
Proof.
  induction 1 as [| [c | t] l l' Hs IH | c l l' _ _ IH]; cbn [noSpaceBefore].
  - auto.
  - intros [H1 H2]. split; [| now apply IH].
    intros Hc. specialize (H1 Hc).
    destruct (startsTag P l') eqn:E; [| reflexivity].
    rewrite (Squeezed_startsTag P l l' Hs H2 E) in H1. discriminate H1.
  - exact IH.
  - intros [_ H2]. now apply IH.
Qed.

(** After the rule has run, no selected tag is followed by white space. *)
Lemma afterTags_noSpaceAfter (P : jstring -> bool) (l : list Piece) (skip : bool) :
  noSpaceAfter P (afterTags P skip l)
  /\ (skip = true -> startsWs (afterTags P skip l) = false).
Proof.
  revert skip. induction l as [| [c | t] l IH]; intros skip; cbn [afterTags].
  - now split.
  - destruct skip; cbn [andb].
    + destruct (isSpace c) eqn:E; [apply IH |].
      split; [apply IH | intros _; exact E].
    + split; [apply IH | discriminate].
  - cbn [noSpaceAfter startsWs]. split; [| reflexivity].
    split; [| apply IH]. intros Pt. rewrite Pt. now apply IH.
Qed.

(** Where no selected tag is followed by white space, the rule changes
    nothing. *)
Lemma afterTags_fixed (P : jstring -> bool) (l : list Piece) (skip : bool) :
  noSpaceAfter P l -> (skip = true -> startsWs l = false) ->
  afterTags P skip l = l.
Proof.
  revert skip. induction l as [| [c | t] l IH]; intros skip Hl Hs;
    cbn [afterTags noSpaceAfter] in *.
  - reflexivity.
  - destruct skip; cbn [andb].
    + cbn [startsWs] in Hs. rewrite Hs by reflexivity. f_equal.
      apply IH; [exact Hl | discriminate].
    + f_equal. apply IH; [exact Hl | discriminate].
  - destruct Hl as [H1 H2]. f_equal. apply IH; assumption.
Qed.

Lemma startsTag_dropWs (P : jstring -> bool) (l : list Piece) :
  noSpaceBefore P l -> startsWs l = true -> startsTag P (dropWs l) = false.
Proof.
  induction l as [| [c | t] l IH]; cbn [noSpaceBefore startsWs dropWs];
    [discriminate | | discriminate].
  intros [H1 H2] Hc. rewrite Hc. specialize (H1 Hc).
  destruct (startsWs l) eqn:E; [now apply IH |].
  now rewrite dropWs_id.
Qed.

Lemma beforeTags_noSpaceBefore (P : jstring -> bool) (l : list Piece) :
  noSpaceBefore P (beforeTags P l).
Proof.
  induction l as [| [c | t] l IH]; cbn [beforeTags]; [exact I | | exact IH].
  destruct (isSpace c) eqn:Ec; cbn [andb].
  - destruct (startsTag P (dropWs l)) eqn:Et; [exact IH |].
    cbn [noSpaceBefore]. split; [intros _ | exact IH].
    destruct l as [| [c' | t] l]; [reflexivity | | exact Et].
    cbn [beforeTags dropWs] in *.
    destruct (isSpace c'); [| reflexivity].
    rewrite Et. cbn [andb]. reflexivity.
  - cbn [noSpaceBefore]. split; [congruence | exact IH].
Qed.

Lemma beforeTags_fixed (P : jstring -> bool) (l : list Piece) :
  noSpaceBefore P l -> beforeTags P l = l.
Proof.
  induction l as [| [c | t] l IH]; cbn [beforeTags noSpaceBefore].
  - reflexivity.
  - intros [H1 H2]. destruct (isSpace c) eqn:Ec; cbn [andb].
    + specialize (H1 eq_refl).
      assert (E : startsTag P (dropWs l) = false).
      { destruct (startsWs l) eqn:Es; [now apply startsTag_dropWs |].
        now rewrite dropWs_id. }
      rewrite E. f_equal. now apply IH.
    + f_equal. now apply IH.
  - intros H. f_equal. now apply IH.
Qed.

(** ** Trimming *)

Lemma dropSpaces_idem (s : jstring) : dropSpaces (dropSpaces s) = dropSpaces s.
Proof.
  induction s as [|c s IH]; [reflexivity |]. cbn [dropSpaces].
  destruct (isSpace c) eqn:E; [exact IH |]. cbn [dropSpaces]. now rewrite E.
Qed.

Lemma trimEnd_idem (s : jstring) : trimEnd (trimEnd s) = trimEnd s.
Proof. unfold trimEnd. now rewrite rev_involutive, dropSpaces_idem. Qed.

Lemma trimEnd_startsSpace (s : jstring) :
  startsSpace s = false -> startsSpace (trimEnd s) = false.
Proof.
  intros Hs. destruct (trimEnd_split s) as [w [E _]].
  destruct (trimEnd s) as [|c u]; [reflexivity |].
  rewrite E in Hs. exact Hs.
Qed.

Lemma dropSpaces_startsSpace (s : jstring) : startsSpace (dropSpaces s) = false.
Proof.
  induction s as [|c s IH]; [reflexivity |]. cbn [dropSpaces].
  destruct (isSpace c) eqn:E; [exact IH | exact E].
Qed.

Lemma dropSpaces_id (s : jstring) : startsSpace s = false -> dropSpaces s = s.
Proof. destruct s as [|c s]; [reflexivity |]. cbn. now intros ->. Qed.

Lemma trim_idem (s : jstring) : trim (trim s) = trim s.
Proof.
  unfold trim, trimStart.
  rewrite (dropSpaces_id (trimEnd (dropSpaces s))).
  - apply trimEnd_idem.
  - apply trimEnd_startsSpace, dropSpaces_startsSpace.
Qed.

Lemma Squeezed_snoc (l l' : list Piece) (c : jchar) :
  isSpace c = true -> Squeezed l l' -> Squeezed (l ++ [PChar c]) l'.
Proof.
  intros Hc. induction 1.
  - cbn. constructor; [exact Hc | constructor].
  - cbn. now constructor.
  - cbn. now constructor.
Qed.

Lemma flatten_app (a b : list Piece) : flatten (a ++ b) = flatten a ++ flatten b.
Proof. apply flat_map_app. Qed.

Lemma trimEnd_pieces (l : list Piece) :
  Forall wellFormed l ->
  exists l', trimEnd (flatten l) = flatten l' /\ Squeezed l l'.
Proof.
  induction l as [| p l IH] using rev_ind; intros Hl.
  - exists []. split; [reflexivity | constructor].
  - apply Forall_app in Hl as [Hl Hp]. inversion Hp as [| ? ? Hp' _]; subst.
    rewrite flatten_app. destruct p as [c | t].
    + cbn [flatten flat_map pieceText app]. destruct (isSpace c) eqn:Ec.
      * rewrite trimEnd_space by exact Ec.
        destruct (IH Hl) as [l' [E Hs]]. exists l'. split; [exact E |].
        now apply Squeezed_snoc.
      * exists (l ++ [PChar c]). split; [| apply Squeezed_refl].
        rewrite flatten_app. cbn [flatten flat_map pieceText app].
        rewrite <- (app_nil_r [c]) at 1.
        rewrite (trimEnd_tail (flatten l) [c] []);
          [reflexivity | discriminate | exact Ec | constructor].
    + exists (l ++ [PTag t]). split; [| apply Squeezed_refl].
      rewrite flatten_app. cbn [flatten flat_map pieceText app].
      rewrite app_nil_r. cbn in Hp'.
      destruct (tag_shape _ Hp') as [body [-> _]].
      rewrite <- (app_nil_r (body ++ [GT])) at 1.
      rewrite (trimEnd_tail (flatten l) (body ++ [GT]) []);
        [reflexivity | now destruct body | | constructor].
      rewrite last_last. reflexivity.
Qed.

Lemma trim_pieces (l : list Piece) :
  Forall wellFormed l ->
  exists l', trim (flatten l) = flatten l' /\ Squeezed l l'.
Proof.
  intros Hl. unfold trim, trimStart. rewrite flatten_dropWs by exact Hl.
  destruct (trimEnd_pieces (dropWs l) (dropWs_wellFormed l Hl)) as [l' [E Hs]].
  exists l'. split; [exact E |].
  apply Squeezed_trans with (dropWs l); [apply Squeezed_dropWs | exact Hs].
Qed.

(** ** The cleaner on the restricted grammar *)

Lemma startsWith_skipn (p s : jstring) :
  startsWith p s = true -> s = p ++ skipn (length p) s.
Proof.
  revert s. induction p as [|x p IH]; intros s; [reflexivity |].
  destruct s as [|y s]; [discriminate |]. cbn [startsWith].
  intros H. apply andb_true_iff in H as [H1 H2].
  apply N.eqb_eq in H1. subst y. cbn. f_equal. now apply IH.
Qed.

Lemma isMarkupFuel_sound (fuel : nat) (s : jstring) :
  isMarkupFuel fuel s = true -> Markup s.
Proof.
  revert s. induction fuel as [|f IH]; intros s; [discriminate |].
  destruct s as [|c t]; [constructor |]. cbn [isMarkupFuel].
  destruct (N.eqb_spec c LT) as [-> | Hc].
  - intros H. apply existsb_exists in H as [tag [Hin H]].
    destruct (startsWith tag (LT :: t)) eqn:H1; [| discriminate].
    rewrite (startsWith_skipn _ _ H1). constructor; [exact Hin | now apply IH].
  - destruct (N.eqb_spec c GT) as [-> | Hg]; [discriminate |].
    intros H. constructor; [exact Hc | exact Hg | now apply IH].
Qed.

Lemma isMarkup_sound (s : jstring) : isMarkup s = true -> Markup s.
Proof. apply isMarkupFuel_sound. Qed.

(** Markup in which no tag that the cleaner looks at has white space on
    the side it deletes, and with no empty paragraph, is left as it is. *)
Lemma cleanupOutput_fixed (l : list Piece) :
  Forall wellFormed l ->
  removeEmptyParagraphs (flatten l) = flatten l ->
  noSpaceAfter isOpenP l -> noSpaceAfter isOpenHeading l ->
  noSpaceAfter isBr l -> noSpaceBefore isBlockTag l ->
  trim (flatten l) = flatten l ->
  cleanupOutput (flatten l) = flatten l.
Proof.
  intros Hl HE H2 H3 H4 H5 Ht. unfold cleanupOutput.
  fold (removeEmptyParagraphs (flatten l)). rewrite HE.
  rewrite (replaceAll_afterTags reOpenP isOpenP) by exact Hl.
  rewrite afterTags_fixed by (assumption || discriminate).
  rewrite (replaceAll_afterTags reOpenHeading isOpenHeading) by exact Hl.
  rewrite afterTags_fixed by (assumption || discriminate).
  rewrite (replaceAll_afterTags reBr isBr) by exact Hl.
  rewrite afterTags_fixed by (assumption || discriminate).
  rewrite (replaceAll_beforeTags reBlockTag isBlockTag) by exact Hl.
  rewrite beforeTags_fixed by assumption.
  exact Ht.
Qed.

(** ** Lengths *)

Lemma replaceAll_length (r : rule) `{RuleOk r} :
  (forall s out rest, r s = Some (out, rest) ->
     length out + length rest <= length s) ->
  forall s, length (replaceAll r s) <= length s.
Proof.
  intros Hr.
  assert (Hn : forall n s, length s < n -> length (replaceAll r s) <= length s).
  { induction n as [|n IH]; intros s Hlen; [lia |].
    destruct s as [|c t]; [rewrite replaceAll_nil; cbn; lia |].
    rewrite (replaceAll_cons r).
    destruct (r (c :: t)) as [[out rest] |] eqn:E.
    - pose proof (Hr _ _ _ E) as H1. pose proof (ruleOk _ _ _ E) as H2.
      rewrite length_app. specialize (IH rest). lia.
    - cbn [length] in *. specialize (IH t). lia. }
  intros s. apply Hn with (S (length s)). lia.
Qed.

(** A replacement that deletes its matches returns its input or a shorter
    string. *)
Lemma replaceAll_shrinks (m : matcher) `{Sound m} `{Progress m} (s : jstring) :
  replaceAll (constRule m []) s = s
  \/ length (replaceAll (constRule m []) s) < length s.
Proof.
  assert (Hr : forall s out rest, constRule m [] s = Some (out, rest) ->
                 length out + length rest <= length s).
  { intros u out rest E. pose proof (ruleOk _ _ _ E) as H2.
    unfold constRule in E. destruct (m u) as [[a r'] |]; [| discriminate].
    injection E as <- <-. cbn. lia. }
  induction s as [|c t IH]; [now left |].
  rewrite (replaceAll_cons _).
  destruct (constRule m [] (c :: t)) as [[out rest] |] eqn:E.
  - right. pose proof (ruleOk _ _ _ E) as H2.
    pose proof (replaceAll_length _ Hr rest) as H3.
    unfold constRule in E. destruct (m (c :: t)) as [[a r'] |]; [| discriminate].
    injection E as <- <-. cbn [app]. lia.
  - destruct IH as [-> | IH]; [now left | right; cbn [length]; lia].
Qed.

Lemma keepFirst_length (g tail : matcher) `{Sound g} `{Sound tail}
    (s out rest : jstring) :
  keepFirst g tail s = Some (out, rest) -> length out + length rest <= length s.
Proof.
  unfold keepFirst.
  destruct (g s) as [[m1 r1] |] eqn:E1; [| discriminate].
  destruct (tail r1) as [[m2 r2] |] eqn:E2; [| discriminate].
  intros [= <- <-]. apply sound in E1. apply sound in E2. subst.
  rewrite !length_app. lia.
Qed.

Lemma keepSecond_length (head g : matcher) `{Sound head} `{Sound g}
    (s out rest : jstring) :
  keepSecond head g s = Some (out, rest) -> length out + length rest <= length s.
Proof.
  unfold keepSecond.
  destruct (head s) as [[m1 r1] |] eqn:E1; [| discriminate].
  destruct (g r1) as [[m2 r2] |] eqn:E2; [| discriminate].
  intros [= <- <-]. apply sound in E1. apply sound in E2. subst.
  rewrite !length_app. lia.
Qed.

Lemma dropSpaces_length (s : jstring) : length (dropSpaces s) <= length s.
Proof.
  induction s as [|c s IH]; [cbn; lia |]. cbn [dropSpaces].
  destruct (isSpace c); cbn [length]; lia.
Qed.

Lemma trim_length (s : jstring) : length (trim s) <= length s.
Proof.
  unfold trim, trimStart, trimEnd. rewrite length_rev.
  etransitivity; [apply dropSpaces_length |]. rewrite length_rev.
  apply dropSpaces_length.
Qed.

(** The cleaner never returns more than is left once the empty paragraphs
    are gone. *)
Lemma cleanupOutput_length (markup : jstring) :
  length (cleanupOutput markup) <= length (removeEmptyParagraphs markup).
Proof.
  unfold cleanupOutput. fold (removeEmptyParagraphs markup).
  etransitivity; [apply trim_length |].
  etransitivity;
    [exact (replaceAll_length _ (keepSecond_length mSpaces1 reBlockTag) _) |].
  etransitivity;
    [exact (replaceAll_length _ (keepFirst_length reBr mSpaces1) _) |].
  etransitivity;
    [exact (replaceAll_length _ (keepFirst_length reOpenHeading mSpaces1) _) |].
  exact (replaceAll_length _ (keepFirst_length reOpenP mSpaces1) _).
Qed.

(** ** Converting the html of a conversion again *)

(** ** Reading plain text and paragraphs back *)

Lemma tokenizeFuel_tag (n : nat) (s : jstring) :
  tokenizeFuel (S n) (js "<div>" ++ s) = TStart (js "div") [] :: tokenizeFuel n s
  /\ tokenizeFuel (S n) (js "</div>" ++ s) = TEnd (js "div") :: tokenizeFuel n s
  /\ tokenizeFuel (S n) (js "</p>" ++ s) = TEnd (js "p") :: tokenizeFuel n s.
Proof. repeat split; reflexivity. Qed.

Lemma tokenize_lit_div s :
  tokenize (60 :: 100 :: 105 :: 118 :: 62 :: s)%N
  = TStart (js "div") [] :: tokenize s.
Proof.
  unfold tokenize. cbn [length].
  rewrite (proj1 (tokenizeFuel_tag _ s)). f_equal.
  apply tokenizeFuel_enough; lia.
Qed.

Lemma tokenize_lit_end_div s :
  tokenize (60 :: 47 :: 100 :: 105 :: 118 :: 62 :: s)%N
  = TEnd (js "div") :: tokenize s.
Proof.
  unfold tokenize. cbn [length].
  rewrite (proj1 (proj2 (tokenizeFuel_tag _ s))). f_equal.
  apply tokenizeFuel_enough; lia.
Qed.

Lemma tokenize_lit_end_p s :
  tokenize (60 :: 47 :: 112 :: 62 :: s)%N = TEnd (js "p") :: tokenize s.
Proof.
  unfold tokenize. cbn [length].
  rewrite (proj2 (proj2 (tokenizeFuel_tag _ s))). f_equal.
  apply tokenizeFuel_enough; lia.
Qed.

(** Characters that follow a text node extend it. *)
Lemma fold_text_more (w d name : jstring) attrs older (below : Stack) :
  fold_left treeStep (map TChar w)
    ({| fName := name; fAttrs := attrs; fKids := Text d :: older |} :: below)
  = {| fName := name; fAttrs := attrs; fKids := Text (d ++ w) :: older |}
      :: below.
Proof.
  revert d. induction w as [|c w IH]; intros d.
  - now rewrite app_nil_r.
  - cbn [map fold_left treeStep appendChar fKids fName fAttrs].
    rewrite IH, <- app_assoc. reflexivity.
Qed.

(** Characters read in an element that is still empty become its text. *)
Lemma fold_text_new (w name : jstring) attrs (below : Stack) :
  w <> [] ->
  fold_left treeStep (map TChar w)
    ({| fName := name; fAttrs := attrs; fKids := [] |} :: below)
  = {| fName := name; fAttrs := attrs; fKids := [Text w] |} :: below.
Proof.
  destruct w as [|c w]; [congruence |]. intros _.
  cbn [map fold_left treeStep appendChar fKids].
  unfold addKid. cbn [fName fAttrs fKids].
  now rewrite fold_text_more.
Qed.

Section PlainTextTrees.

Variable w : jstring.
Hypothesis Hw : Phrase w.

Lemma parse_plain :
  parse (js "<div>" ++ w ++ js "</div>") = [Element (js "DIV") [] [Text w]].
Proof.
  destruct (Phrase_free w Hw) as (_ & _ & _ & Htok & _).
  destruct Hw as (Hne & _).
  unfold parse. eval_js. cbn [app].
  rewrite tokenize_lit_div, tokenize_text, tokenize_lit_end_div by assumption.
  change (tokenize []) with (@nil Token).
  unfold buildTree. cbn [fold_left]. rewrite fold_left_app.
  change (treeStep [bodyFrame] (TStart (js "div") []))
    with [ {| fName := js "div"; fAttrs := []; fKids := [] |}; bodyFrame].
  rewrite fold_text_new by exact Hne. reflexivity.
Qed.

Lemma parse_paragraph :
  parse (js "<div>" ++ paragraphOf w ++ js "</div>")
  = [Element (js "DIV") [] [Element (js "P") [] [Text w]]].
Proof.
  destruct (Phrase_free w Hw) as (_ & _ & _ & Htok & _).
  destruct Hw as (Hne & _).
  unfold parse, paragraphOf. rewrite <- !app_assoc. eval_js. cbn [app].
  rewrite tokenize_lit_div, tokenize_lit_p, tokenize_text, tokenize_lit_end_p,
    tokenize_lit_end_div by assumption.
  change (tokenize []) with (@nil Token).
  unfold buildTree. cbn [fold_left]. rewrite fold_left_app.
  change (treeStep (treeStep [bodyFrame] (TStart (js "div") []))
            (TStart (js "p") []))
    with [ {| fName := js "p"; fAttrs := []; fKids := [] |};
           {| fName := js "div"; fAttrs := []; fKids := [] |}; bodyFrame].
  rewrite fold_text_new by exact Hne. reflexivity.
Qed.


End PlainTextTrees.

(** ** The serializer and the cleaner on plain text *)

Lemma PlainText_facts (w : jstring) :
  PlainText w ->
  w <> []
  /\ Forall (fun c => c <> LT) w /\ Forall (fun c => c <> GT) w
  /\ Forall (fun c => c <> AMP) w /\ Forall (fun c => c <> NBSP) w
  /\ Forall (fun c => c <> QUOT) w
  /\ isSpace (hd SPACE w) = false /\ isSpace (last w SPACE) = false.
Proof.
  intros ((H0 & Ha & H1 & H2) & Hq & _).
  repeat split; try assumption;
    (eapply Forall_impl; [| exact Ha]; intros c Hc;
     apply plainChar_facts in Hc; tauto).
Qed.

Lemma plainChar_space (c : jchar) :
  plainChar c = true -> isSpace c = true -> c = SPACE.
Proof.
  unfold plainChar. intros H Hs. rewrite Hs in H. cbn in H.
  rewrite orb_false_r in H. now apply N.eqb_eq in H.
Qed.

Lemma replaceAll_text_only (r : rule) `{RuleOk r} (x : jchar) (a : jstring) :
  (forall c t, c <> x -> r (c :: t) = None) ->
  Forall (fun c => c <> x) a ->
  replaceAll r a = a.
Proof.
  intros Hr Ha. rewrite <- (app_nil_r a) at 1.
  rewrite (replaceAll_text r x) by assumption.
  now rewrite replaceAll_nil, app_nil_r.
Qed.

Lemma collapseSpaces_plain (w : jstring) :
  Forall (fun c => plainChar c = true) w -> singleSpaced w = true ->
  collapseSpaces w = w.
Proof.
  unfold collapseSpaces.
  induction 1 as [|c t Hc _ IH]; intros Hs; [reflexivity |].
  cbn [singleSpaced] in Hs. apply andb_true_iff in Hs as [Hs1 Hs2].
  destruct (isSpace c) eqn:Ec.
  - cbn [andb negb] in Hs1. apply negb_true_iff in Hs1.
    rewrite (plainChar_space c Hc Ec) in *.
    assert (E : constRule mSpaces1 (js " ") (SPACE :: t) = Some (js " ", t)).
    { unfold constRule. rewrite mSpaces1_spec. cbn [startsSpace dropSpaces].
      change (isSpace SPACE) with true. cbv iota.
      now rewrite (dropSpaces_id t Hs1). }
    rewrite (replaceAll_match_cons _ _ _ _ _ E).
    change (js " " ++ ?x) with (SPACE :: x). f_equal. now apply IH.
  - rewrite (replaceAll_none _).
    + f_equal. now apply IH.
    + unfold constRule. rewrite mSpaces1_spec. cbn [startsSpace].
      now rewrite Ec.
Qed.

Lemma escapeHtml_plain (w : jstring) :
  Forall (fun c => c <> NBSP) w -> Forall (fun c => c <> AMP) w ->
  Forall (fun c => c <> LT) w -> Forall (fun c => c <> GT) w ->
  Forall (fun c => c <> QUOT) w ->
  escapeHtml w = w.
Proof.
  intros Hn Ha Hl Hg Hq. unfold escapeHtml.
  rewrite (replaceChar_id NBSP) by exact Hn.
  rewrite (replaceChar_id AMP) by exact Ha.
  rewrite (replaceChar_id LT) by exact Hl.
  rewrite (replaceChar_id GT) by exact Hg.
  now apply replaceChar_id.
Qed.

Lemma lowerAscii_amp (x : jchar) : lowerAscii x = AMP -> x = AMP.
Proof.
  unfold lowerAscii, AMP.
  destruct ((65 <=? x) && (x <=? 90))%N eqn:E; [| auto].
  apply andb_true_iff in E as [E1 E2]. apply N.leb_le in E1. lia.
Qed.

Lemma nbsp_text (c : jchar) (t : jstring) :
  c <> AMP -> mLit true (js "&nbsp;") (c :: t) = None.
Proof.
  intros Hc. change (js "&nbsp;") with (AMP :: js "nbsp;"). cbn [mLit].
  replace (charEq true AMP c) with false; [reflexivity |].
  symmetry. unfold charEq. apply N.eqb_neq. intros E. apply Hc.
  apply lowerAscii_amp. now rewrite <- E.
Qed.

Lemma reTag0_text c t : c <> LT -> reTag0 (c :: t) = None.
Proof. intros H. apply mSeq_none, (mLit_lt_head false []), H. Qed.

Lemma reTag1_text c t : c <> LT -> reTag1 (c :: t) = None.
Proof. intros H. apply mSeq_none, (mLit_lt_head false []), H. Qed.

Lemma reEmptyParagraph_text c t : c <> LT -> reEmptyParagraph (c :: t) = None.
Proof. intros H. apply mSeq_none, (mLit_lt_head true (js "p>")), H. Qed.

(** A paragraph that starts with text is not empty. *)
Lemma reEmptyParagraph_filled (w rest : jstring) :
  w <> [] -> isSpace (hd SPACE w) = false ->
  Forall (fun c => c <> AMP) w -> Forall (fun c => c <> LT) w ->
  constRule reEmptyParagraph [] (60 :: 112 :: 62 :: w ++ rest)%N = None.
Proof.
  destruct w as [|c w]; [congruence |]. intros _ Hs Ha Hl.
  cbn [hd] in Hs. inversion Ha as [|? ? Hc _]; subst.
  inversion Hl as [|? ? Hc' _]; subst.
  unfold constRule, reEmptyParagraph, mSeq.
  change (mLit true (js "<p>") (60 :: 112 :: 62 :: (c :: w) ++ rest)%N)
    with (Some (js "<p>", (c :: w) ++ rest)).
  cbn [app]. unfold mMany. cbn [length mStar].
  unfold mAlt at 1. unfold mChar at 1. rewrite Hs.
  unfold mAlt at 1. rewrite nbsp_text by exact Hc.
  rewrite reBr_text by exact Hc'.
  rewrite (mLit_lt_head true (js "/p>")) by exact Hc'. reflexivity.
Qed.

Lemma stripSpaces_head (w : jstring) :
  w <> [] -> isSpace (hd SPACE w) = false ->
  replaceAll (constRule mSpaces1 []) w <> [].
Proof.
  destruct w as [|c w]; [congruence |]. cbn [hd]. intros _ Hc.
  rewrite (replaceAll_none _); [discriminate |].
  unfold constRule. rewrite mSpaces1_spec. cbn [startsSpace]. now rewrite Hc.
Qed.

Lemma trim_plain (w : jstring) :
  w <> [] -> isSpace (hd SPACE w) = false -> isSpace (last w SPACE) = false ->
  trim w = w.
Proof.
  intros H0 H1 H2. unfold trim, trimStart.
  rewrite dropSpaces_id by (destruct w; [congruence | exact H1]).
  now apply trimEnd_keep.
Qed.

(** Markup that starts with a tag and ends with one has nothing to trim. *)
Lemma trim_tagged (s : jstring) : trim (LT :: s ++ [GT]) = LT :: s ++ [GT].
Proof.
  unfold trim, trimStart. cbn [dropSpaces]. change (isSpace LT) with false.
  cbv iota.
  change (LT :: s ++ [GT]) with ((LT :: s) ++ [GT] ++ []).
  apply trimEnd_tail; [discriminate | reflexivity | constructor].
Qed.

(** One step of a global replace over literals and plain text. *)
Ltac ra_plain :=
  match goal with
  | |- context [replaceAll ?r ?s] =>
      lazymatch s with
      | context [replaceAll _ _] => fail
      | _ =>
          first
            [ rewrite (replaceAll_nil r)
            | rewrite (replaceAll_none r) by reflexivity
            | erewrite (replaceAll_match_cons r) by (cbn; reflexivity);
              cbn [app]
            | rewrite (replaceAll_none r) by
                (apply reEmptyParagraph_filled; assumption)
            | rewrite (replaceAll_text r LT) by
                first [ apply constRule_text;
                        first [ apply reBr_text | apply reTag0_text
                              | apply reTag1_text
                              | apply reEmptyParagraph_text ]
                      | assumption ]
            | rewrite (replaceAll_text r AMP) by
                first [ apply constRule_text; apply nbsp_text | assumption ]
            | rewrite (replaceAll_text_only r LT) by
                first [ apply constRule_text;
                        first [ apply reBr_text | apply reTag0_text
                              | apply reTag1_text
                              | apply reEmptyParagraph_text ]
                      | assumption ]
            | rewrite (replaceAll_text_only r AMP) by
                first [ apply constRule_text; apply nbsp_text | assumption ] ]
      end
  end.

Section PlainTextConversion.

Variable w : jstring.
Hypothesis Hw : PlainText w.

Lemma serializeNode_plain (ic : bool) (depth : nat) :
  serializeNode (Text w) ic depth = w.
Proof.
  destruct (PlainText_facts w Hw) as (H0 & Hl & Hg & Ha & Hn & Hq & H1 & H2).
  destruct Hw as ((_ & Hp & _) & _ & Hs).
  cbn [serializeNode]. rewrite collapseSpaces_plain by assumption.
  now apply escapeHtml_plain.
Qed.

Lemma isEffectivelyEmpty_plain : isEffectivelyEmpty w = false.
Proof.
  destruct (PlainText_facts w Hw) as (H0 & Hl & Hg & Ha & Hn & Hq & H1 & H2).
  unfold isEffectivelyEmpty. repeat ra_plain.
  destruct (replaceAll (constRule mSpaces1 []) w) eqn:E; [| reflexivity].
  now apply stripSpaces_head in E.
Qed.


Lemma wrapParagraph_plain : wrapParagraph w = paragraphOf w.
Proof.
  destruct (PlainText_facts w Hw) as (H0 & Hl & Hg & Ha & Hn & Hq & H1 & H2).
  unfold wrapParagraph. rewrite isEffectivelyEmpty_plain.
  rewrite trim_plain by assumption.
  destruct w; [congruence | reflexivity].
Qed.

Lemma trim_paragraph : trim (paragraphOf w) = paragraphOf w.
Proof.
  unfold paragraphOf.
  replace (js "<p>" ++ w ++ js "</p>")
    with (LT :: (js "p>" ++ w ++ js "</p") ++ [GT]).
  - apply trim_tagged.
  - cbn [app js]. rewrite <- !app_assoc. reflexivity.
Qed.


End PlainTextConversion.

(** ** Plain text, piece by piece *)

Lemma flatten_chars (w : jstring) (rest : list Piece) :
  flatten (map PChar w ++ rest) = w ++ flatten rest.
Proof.
  induction w as [|c w IH]; [reflexivity |].
  cbn [map app]. rewrite flatten_char. now rewrite IH.
Qed.

Lemma wellFormed_chars (w : jstring) :
  Forall (fun c => c <> LT) w -> Forall (fun c => c <> GT) w ->
  Forall wellFormed (map PChar w).
Proof.
  intros Hl. induction Hl as [|c w Hc _ IH]; intros Hg; [constructor |].
  inversion Hg; subst. constructor; [now split | now apply IH].
Qed.

Lemma startsWs_chars (w : jstring) (rest : list Piece) :
  w <> [] -> startsWs (map PChar w ++ rest) = isSpace (hd SPACE w).
Proof. destruct w; [congruence | reflexivity]. Qed.

Lemma noSpaceAfter_chars (P : jstring -> bool) (w : jstring)
    (rest : list Piece) :
  noSpaceAfter P rest -> noSpaceAfter P (map PChar w ++ rest).
Proof. intros H. induction w as [|c w IH]; [exact H | exact IH]. Qed.

Lemma noSpaceBefore_chars (P : jstring -> bool) (w : jstring)
    (rest : list Piece) :
  w <> [] -> isSpace (last w SPACE) = false ->
  noSpaceBefore P rest -> noSpaceBefore P (map PChar w ++ rest).
Proof.
  intros H0 H1 H. induction w as [|c w IH]; [congruence |].
  destruct w as [|d w].
  - cbn [map app noSpaceBefore last] in *. split; [congruence | exact H].
  - cbn [map app noSpaceBefore]. split; [reflexivity |].
    apply IH; [discriminate | exact H1].
Qed.

Ltac tag_in := cbn; auto 20.

Section PlainTextCleaning.

Variable w : jstring.
Hypothesis Hw : PlainText w.

Lemma flatten_paragraphPieces : flatten (paragraphPieces w) = paragraphOf w.
Proof.
  unfold paragraphPieces, paragraphOf.
  rewrite flatten_tag, flatten_chars. reflexivity.
Qed.



Lemma cleanupOutput_paragraph : cleanupOutput (paragraphOf w) = paragraphOf w.
Proof.
  destruct (PlainText_facts w Hw) as (H0 & Hl & Hg & Ha & Hn & Hq & H1 & H2).
  rewrite <- flatten_paragraphPieces. apply cleanupOutput_fixed.
  - constructor; [tag_in |]. apply Forall_app. split.
    + now apply wellFormed_chars.
    + constructor; [tag_in | constructor].
  - rewrite flatten_paragraphPieces.
    unfold removeEmptyParagraphs, paragraphOf. eval_js. cbn [app].
    repeat ra_plain. reflexivity.
  - split; [intros _; now rewrite startsWs_chars |].
    apply noSpaceAfter_chars. now split.
  - split; [discriminate |]. apply noSpaceAfter_chars. now split.
  - split; [discriminate |]. apply noSpaceAfter_chars. now split.
  - cbn [paragraphPieces noSpaceBefore].
    apply noSpaceBefore_chars; [assumption | assumption | exact I].
  - rewrite flatten_paragraphPieces. apply trim_paragraph.
Qed.


Lemma normalizeInput_plain (pre post : jstring) :
  Forall (fun c => c <> NBSP) pre -> Forall (fun c => c <> NBSP) post ->
  normalizeInput (pre ++ w ++ post) = pre ++ w ++ post.
Proof.
  destruct (PlainText_facts w Hw) as (H0 & Hl & Hg & Ha & Hn & Hq & H1 & H2).
  intros Hpre Hpost. unfold normalizeInput.
  now rewrite !replaceChar_app, !replaceChar_id.
Qed.

Lemma textOnlyOf_plain :
  textOnlyOf w = w /\ textOnlyOf (paragraphOf w) = w
  /\ textOnlyOf (wrappedParagraphOf w) = w.
Proof.
  destruct (PlainText_facts w Hw) as (H0 & Hl & Hg & Ha & Hn & Hq & H1 & H2).
  unfold textOnlyOf, paragraphOf, wrappedParagraphOf. eval_js. cbn [app].
  repeat ra_plain. rewrite ?app_nil_r.
  rewrite trim_plain by assumption. now repeat split.
Qed.

End PlainTextCleaning.

Lemma html_convert (rawHtml : jstring) :
  truthy (textOnlyOf (normalizeInput rawHtml)) = true ->
  html (convert rawHtml)
  = cleanupOutput
      (concat (filter truthy
         (map (fun node => serializeNode node false 0)
            (parse (js "<div>" ++ normalizeInput rawHtml ++ js "</div>"))))).
Proof.
  intros H. unfold convert, convertRichTextToKeepMarkup. now rewrite H.
Qed.




(** ** The cleaner on what the serializer writes *)

(** ** The loop of the empty-paragraph expression *)

Lemma mStar_enough (a : matcher) (n m : nat) (s : jstring) :
  length s <= n -> length s <= m -> mStar n a s = mStar m a s.
Proof.
  revert m s. induction n as [|n IH]; intros m s Hn Hm.
  - destruct s; [| cbn in Hn; lia].
    destruct m; cbn [mStar]; [reflexivity |].
    destruct (a []) as [[m1 r1] |]; [| reflexivity].
    cbn [length]. now destruct (length r1).
  - destruct m as [|m].
    + destruct s; [| cbn in Hm; lia]. cbn [mStar].
      destruct (a []) as [[m1 r1] |]; [| reflexivity].
      cbn [length]. now destruct (length r1).
    + cbn [mStar]. destruct (a s) as [[m1 r1] |]; [| reflexivity].
      destruct (Nat.ltb_spec (length r1) (length s)); [| reflexivity].
      rewrite (IH m r1) by lia. reflexivity.
Qed.

(** The equation of the loop. *)
Lemma mMany_step (a : matcher) (s : jstring) :
  mMany a s
  = match a s with
    | Some (m1, r1) =>
        if Nat.ltb (length r1) (length s) then
          match mMany a r1 with
          | Some (m2, r2) => Some (m1 ++ m2, r2)
          | None => None
          end
        else Some ([], s)
    | None => Some ([], s)
    end.
Proof.
  unfold mMany. destruct s as [|c s].
  - cbn [length mStar]. destruct (a []) as [[m1 r1] |]; [| reflexivity].
    now destruct (length r1).
  - cbn [length mStar]. destruct (a (c :: s)) as [[m1 r1] |]; [| reflexivity].
    cbn [length].
    destruct (Nat.ltb_spec (length r1) (S (length s))); [| reflexivity].
    rewrite (mStar_enough a (length s) (length r1)) by lia. reflexivity.
Qed.

(** After a turn of the loop that fails, the closing tag decides. *)
Lemma emptyTail_stop (s : jstring) :
  fillerTurn s = None -> mLit true (js "</p>") s = None -> emptyTail s = None.
Proof.
  intros E1 E2. unfold emptyTail, mSeq. now rewrite mMany_step, E1, E2.
Qed.

(** A turn of the loop passes the decision on. *)
Lemma emptyTail_turn (s m1 r1 : jstring) :
  fillerTurn s = Some (m1, r1) -> length r1 < length s ->
  emptyTail r1 = None -> emptyTail s = None.
Proof.
  intros E1 Hlen E2. unfold emptyTail, mSeq in *. rewrite mMany_step, E1.
  apply Nat.ltb_lt in Hlen. rewrite Hlen.
  destruct (mMany fillerTurn r1) as [[m2 r2] |]; [| reflexivity].
  destruct (mLit true (js "</p>") r2) as [[m3 r3] |];
    [discriminate E2 | reflexivity].
Qed.

#[export] Instance Selects_openP : Selects (mLit true (js "<p>")) isOpenP.
Proof. selects_tags (mLit_lt_head true (js "p>")). Qed.

#[export] Instance Selects_closeP : Selects (mLit true (js "</p>")) isCloseP.
Proof. selects_tags (mLit_lt_head true (js "/p>")). Qed.

Lemma isSpace_not_amp (c : jchar) : isSpace c = true -> c <> AMP.
Proof. intros H ->. discriminate H. Qed.

Lemma fillerTurn_text (c : jchar) (s : jstring) :
  isSpace c = false -> c <> AMP -> c <> LT -> fillerTurn (c :: s) = None.
Proof.
  intros Hs Ha Hl. unfold fillerTurn, mAlt. cbn [mChar]. rewrite Hs.
  now rewrite nbsp_text, reBr_text.
Qed.

Lemma isEntityInitial_cases (d : jchar) :
  isEntityInitial d = true -> d = 97%N \/ d = 108%N \/ d = 103%N \/ d = 113%N.
Proof.
  unfold isEntityInitial. intros H.
  repeat (apply orb_true_iff in H as [H | H]);
    apply N.eqb_eq in H; auto.
Qed.

Lemma fillerTurn_entity (d : jchar) (s : jstring) :
  isEntityInitial d = true -> fillerTurn (AMP :: d :: s) = None.
Proof.
  intros Hd. apply isEntityInitial_cases in Hd.
  destruct Hd as [-> | [-> | [-> | ->]]]; reflexivity.
Qed.

(** Where the pieces have a good start, no empty paragraph ends. *)
Lemma GoodStart_emptyTail (l : list Piece) :
  GoodStart l -> Forall wellFormed l -> emptyTail (flatten l) = None.
Proof.
  induction 1 as [c l Hc _ IH | l _ IH | l _ IH | t l Hb Hp | c l Hc Ha
                 | d l Hd]; intros Hl.
  - inversion Hl; subst. rewrite flatten_char.
    apply emptyTail_turn with [c] (flatten l); [| cbn; lia | now apply IH].
    unfold fillerTurn, mAlt. cbn [mChar]. now rewrite Hc.
  - inversion Hl; subst. rewrite flatten_tag.
    apply emptyTail_turn with (js "<br />") (flatten l);
      [reflexivity | | now apply IH].
    rewrite length_app. cbn. lia.
  - apply Forall_app in Hl as [_ Hl]. rewrite flatten_chars.
    apply emptyTail_turn with (js "&nbsp;") (flatten l);
      [reflexivity | | now apply IH].
    rewrite length_app. cbn. lia.
  - inversion Hl as [| ? ? Ht _]; subst.
    assert (Hin : In t tagTokens) by exact Ht.
    rewrite flatten_tag. apply emptyTail_stop.
    + unfold fillerTurn, mAlt.
      rewrite (@selects_tag reBr isBr _ t (flatten l) Hin), Hb.
      destruct (tag_head _ Hin) as [t' ->]. cbn [app mChar].
      change (isSpace LT) with false. cbv iota.
      now rewrite (nbsp_text LT) by discriminate.
    + now rewrite (@selects_tag (mLit true (js "</p>")) isCloseP _ t
                     (flatten l) Hin), Hp.
  - inversion Hl as [| ? ? Hwf _]; subst. destruct Hwf as [Hlt _].
    rewrite flatten_char.
    apply emptyTail_stop; [now apply fillerTurn_text |].
    now apply (mLit_lt_head true (js "/p>")).
  - rewrite !flatten_char.
    apply emptyTail_stop; [now apply fillerTurn_entity |].
    now apply (mLit_lt_head true (js "/p>")).
Qed.

Lemma reEmptyParagraph_emptyTail (t s : jstring) :
  In t tagTokens ->
  (isOpenP t = true -> emptyTail s = None) ->
  constRule reEmptyParagraph [] (t ++ s) = None.
Proof.
  intros Ht H. unfold constRule.
  change reEmptyParagraph with (mSeq (mLit true (js "<p>")) emptyTail).
  unfold mSeq at 1.
  rewrite (@selects_tag (mLit true (js "<p>")) isOpenP _ t s Ht).
  destruct (isOpenP t); [| reflexivity]. now rewrite H.
Qed.

(** Where every paragraph holds more than fillers, the first replacement
    of the cleaner finds nothing. *)
Lemma GoodPar_removeEmptyParagraphs (l : list Piece) :
  Forall wellFormed l -> GoodPar l ->
  removeEmptyParagraphs (flatten l) = flatten l.
Proof.
  unfold removeEmptyParagraphs.
  induction 1 as [| [c | t] l Hp Hl IH]; intros Hg; [reflexivity | |].
  - destruct Hp as [Hc _]. rewrite flatten_char.
    rewrite (replaceAll_none _)
      by (apply (constRule_text reEmptyParagraph [] LT);
          [apply reEmptyParagraph_text | exact Hc]).
    f_equal. now apply IH.
  - destruct Hg as [Hg1 Hg2]. rewrite flatten_tag.
    rewrite (replaceAll_tag _ t (flatten l) Hp).
    + f_equal. now apply IH.
    + apply reEmptyParagraph_emptyTail; [exact Hp |].
      intros Ho. apply GoodStart_emptyTail; [now apply Hg1 | exact Hl].
Qed.

(** ** Deleting white space keeps paragraphs filled *)

Lemma Squeezed_chars (w : jstring) (l l' : list Piece) :
  Forall (fun c => isSpace c = false) w ->
  Squeezed (map PChar w ++ l) l' ->
  exists l'', l' = map PChar w ++ l'' /\ Squeezed l l''.
Proof.
  intros Hw. revert l'. induction Hw as [|c w Hc _ IH]; intros l' Hs.
  - exists l'. now split.
  - cbn [map app] in Hs.
    inversion Hs as [| p l0 l0' Hs0 | c0 l0 l0' Hc0 Hs0]; subst.
    + destruct (IH _ Hs0) as [l'' [-> Hs']]. exists l''. now split.
    + congruence.
Qed.

Lemma GoodStart_Squeezed (l : list Piece) :
  GoodStart l -> forall l', Squeezed l l' -> GoodStart l'.
Proof.
  induction 1 as [c l Hc _ IH | l _ IH | l _ IH | t l Hb Hp | c l Hc Ha
                 | d l Hd]; intros l' Hs.
  - inversion Hs; subst; [constructor 1; auto | auto].
  - inversion Hs; subst. constructor 2. auto.
  - apply Squeezed_chars in Hs as [l'' [-> Hs]];
      [| repeat constructor]. constructor 3. auto.
  - inversion Hs; subst. now constructor 4.
  - inversion Hs; subst; [now constructor 5 | congruence].
  - inversion Hs; subst; [| discriminate].
    match goal with H : Squeezed (PChar d :: _) _ |- _ => inversion H; subst end.
    + now constructor 6.
    + apply isEntityInitial_cases in Hd.
      destruct Hd as [-> | [-> | [-> | ->]]]; discriminate.
Qed.

Lemma GoodPar_Squeezed (l l' : list Piece) :
  Squeezed l l' -> GoodPar l -> GoodPar l'.
Proof.
  induction 1 as [| [c | t] l l' Hs IH | c l l' _ _ IH]; cbn [GoodPar].
  - auto.
  - exact IH.
  - intros [H1 H2]. split; [| now apply IH].
    intros Ho. apply GoodStart_Squeezed with l; auto.
  - exact IH.
Qed.

Lemma PrefixOK_Squeezed (l l' : list Piece) :
  Squeezed l l' -> PrefixOK l -> PrefixOK l'.
Proof.
  induction 1 as [| [c | t] l l' Hs IH | c l l' _ _ IH]; cbn [PrefixOK].
  - auto.
  - exact IH.
  - destruct (isCloseP t); [auto |]. destruct (isOpenP t); auto.
  - exact IH.
Qed.

Lemma entityNext_Squeezed (l l' : list Piece) :
  Squeezed l l' -> entityNext l -> entityNext l'.
Proof.
  intros Hs [[l0 ->] | [d [l0 [-> Hd]]]].
  - apply Squeezed_chars in Hs as [l'' [-> _]]; [| repeat constructor].
    left. now exists l''.
  - inversion Hs; subst.
    + right. eauto.
    + apply isEntityInitial_cases in Hd.
      destruct Hd as [-> | [-> | [-> | ->]]]; discriminate.
Qed.

Lemma EntityOK_Squeezed (l l' : list Piece) :
  Squeezed l l' -> EntityOK l -> EntityOK l'.
Proof.
  induction 1 as [| [c | t] l l' Hs IH | c l l' _ _ IH]; cbn [EntityOK].
  - auto.
  - intros [H1 H2]. split; [| now apply IH].
    intros Hc. apply entityNext_Squeezed with l; auto.
  - exact IH.
  - intros [_ H2]. now apply IH.
Qed.

Lemma Tidy_Squeezed (l l' : list Piece) :
  Squeezed l l' -> Tidy l -> Tidy l'.
Proof.
  intros Hs (H1 & H2 & H3 & H4). repeat split.
  - now apply Squeezed_wellFormed with l.
  - now apply GoodPar_Squeezed with l.
  - now apply PrefixOK_Squeezed with l.
  - now apply EntityOK_Squeezed with l.
Qed.

(** ** Fillers are effectively empty *)

Lemma stripSpaces_dropSpaces (s : jstring) :
  replaceAll (constRule mSpaces1 []) s
  = replaceAll (constRule mSpaces1 []) (dropSpaces s).
Proof.
  destruct s as [|c t]; [reflexivity |].
  destruct (isSpace c) eqn:Ec.
  - rewrite (replaceAll_match_cons _ c t [] (dropSpaces (c :: t)));
      [reflexivity |].
    unfold constRule. rewrite mSpaces1_spec. cbn [startsSpace]. now rewrite Ec.
  - cbn [dropSpaces]. now rewrite Ec.
Qed.

Lemma stripSpaces_space (c : jchar) (s : jstring) :
  isSpace c = true ->
  replaceAll (constRule mSpaces1 []) (c :: s)
  = replaceAll (constRule mSpaces1 []) s.
Proof.
  intros Hc. rewrite stripSpaces_dropSpaces. cbn [dropSpaces]. rewrite Hc.
  symmetry. apply stripSpaces_dropSpaces.
Qed.

Lemma strippedOf_space (c : jchar) (s : jstring) :
  isSpace c = true -> strippedOf (c :: s) = strippedOf s.
Proof.
  intros Hc. unfold strippedOf.
  destruct (isSpace_text c Hc) as [Hl _].
  pose proof (isSpace_not_amp c Hc) as Ha.
  rewrite (replaceAll_none (constRule reBr []))
    by (apply (constRule_text reBr [] LT); [apply reBr_text | exact Hl]).
  rewrite (replaceAll_none (constRule (mLit true (js "&nbsp;")) (js " ")))
    by (apply (constRule_text _ _ AMP); [apply nbsp_text | exact Ha]).
  rewrite (replaceAll_none (constRule reTag1 []))
    by (apply (constRule_text reTag1 [] LT); [apply reTag1_text | exact Hl]).
  now apply stripSpaces_space.
Qed.

Lemma strippedOf_br (s : jstring) : strippedOf (js "<br />" ++ s) = strippedOf s.
Proof.
  unfold strippedOf.
  rewrite (replaceAll_match (constRule reBr []) (js "<br />" ++ s) [] s);
    reflexivity.
Qed.

Lemma strippedOf_nbsp (s : jstring) : strippedOf (js "&nbsp;" ++ s) = strippedOf s.
Proof.
  unfold strippedOf.
  change (js "&nbsp;" ++ s) with (38 :: 110 :: 98 :: 115 :: 112 :: 59 :: s)%N.
  do 6 rewrite (replaceAll_none (constRule reBr [])) by reflexivity.
  rewrite (replaceAll_match_cons
             (constRule (mLit true (js "&nbsp;")) (js " ")) _ _ (js " ")
             (replaceAll (constRule reBr []) s)) by reflexivity.
  change (js " " ++ ?x) with (SPACE :: x).
  rewrite (replaceAll_none (constRule reTag1 [])) by reflexivity.
  now apply stripSpaces_space.
Qed.

Lemma Fillers_strippedOf (l : list Piece) :
  Fillers l -> strippedOf (flatten l) = [].
Proof.
  induction 1 as [| c l Hc _ IH | l _ IH | l _ IH].
  - reflexivity.
  - rewrite flatten_char. now rewrite strippedOf_space.
  - rewrite flatten_tag. now rewrite strippedOf_br.
  - rewrite flatten_chars. now rewrite strippedOf_nbsp.
Qed.

Lemma Fillers_isEffectivelyEmpty (l : list Piece) :
  Fillers l -> isEffectivelyEmpty (flatten l) = true.
Proof.
  intros H. unfold isEffectivelyEmpty. fold (strippedOf (flatten l)).
  now rewrite Fillers_strippedOf.
Qed.

(** ** Fillers or a good start *)

Lemma EntityOK_app_inv (a b : list Piece) : EntityOK (a ++ b) -> EntityOK b.
Proof.
  induction a as [| [c | t] a IH]; cbn [app EntityOK]; [auto | | auto].
  intros [_ H]. auto.
Qed.

Lemma PrefixOK_chars_inv (w : jstring) (l : list Piece) :
  PrefixOK (map PChar w ++ l) -> PrefixOK l.
Proof. induction w as [|c w IH]; cbn [map app PrefixOK]; auto. Qed.

Lemma Fillers_or_GoodStart (l : list Piece) :
  Forall wellFormed l -> EntityOK l -> PrefixOK l -> Fillers l \/ GoodStart l.
Proof.
  assert (Hn : forall n l, length l < n ->
                 Forall wellFormed l -> EntityOK l -> PrefixOK l ->
                 Fillers l \/ GoodStart l).
  { clear l. induction n as [|n IH]; intros l Hlen Hl He Hp; [lia |].
    destruct l as [| [c | t] l]; [left; constructor | |].
    - inversion Hl; subst. cbn [EntityOK PrefixOK length] in *.
      destruct He as [He1 He2].
      destruct (isSpace c) eqn:Ec.
      { destruct (IH l) as [H | H]; try assumption; try lia;
          [left | right]; now constructor. }
      destruct (N.eq_dec c AMP) as [-> | Ha];
        [| right; now constructor 5].
      destruct (He1 eq_refl) as [[l0 ->] | [d [l0 [-> Hd]]]].
      + assert (Hl0 : Forall wellFormed l0).
        { match goal with H : Forall wellFormed (_ ++ l0) |- _ =>
            apply Forall_app in H as [_ H]; exact H end. }
        assert (Hlen0 : length l0 < n)
          by (rewrite length_app in Hlen; cbn in Hlen; lia).
        pose proof (EntityOK_app_inv (map PChar (js "nbsp;")) l0 He2) as He0.
        pose proof (PrefixOK_chars_inv (js "nbsp;") l0 Hp) as Hp0.
        destruct (IH l0 Hlen0 Hl0 He0 Hp0) as [H | H].
        * left. now apply (Fillers_nbsp l0).
        * right. now apply (GoodStart_nbsp l0).
      + right. now constructor 6.
    - inversion Hl; subst. cbn [EntityOK PrefixOK length] in *.
      destruct (isCloseP t) eqn:Ec; [contradiction |].
      destruct (isBr t) eqn:Eb; [| right; now constructor 4].
      apply jeqb_eq in Eb. subst t. cbn in Hp.
      destruct (IH l) as [H | H]; try assumption; try lia;
        [left | right]; now constructor. }
  intros. apply Hn with (S (length l)); auto.
Qed.

(** Content that is not effectively empty has a good start. *)
Lemma Tidy_GoodStart (l : list Piece) :
  Tidy l -> isEffectivelyEmpty (flatten l) = false -> GoodStart l.
Proof.
  intros (H1 & _ & H3 & H4) He.
  destruct (Fillers_or_GoodStart l H1 H4 H3) as [H | H]; [| exact H].
  apply Fillers_isEffectivelyEmpty in H. congruence.
Qed.

(** ** What the serializer writes is tidy *)

Lemma GoodStart_app (l m : list Piece) : GoodStart l -> GoodStart (l ++ m).
Proof.
  induction 1 as [c l Hc _ IH | l _ IH | l _ IH | t l Hb Hp | c l Hc Ha
                 | d l Hd]; cbn [app].
  - now constructor 1.
  - now constructor 2.
  - rewrite <- app_assoc. now constructor 3.
  - now constructor 4.
  - now constructor 5.
  - now constructor 6.
Qed.

Lemma entityNext_app (l m : list Piece) : entityNext l -> entityNext (l ++ m).
Proof.
  intros [[l0 ->] | [d [l0 [-> Hd]]]].
  - left. exists (l0 ++ m). now rewrite <- app_assoc.
  - right. exists d, (l0 ++ m). now split.
Qed.

Lemma Tidy_nil : Tidy [].
Proof. repeat split. constructor. Qed.

Lemma GoodPar_app (a b : list Piece) :
  GoodPar a -> GoodPar b -> GoodPar (a ++ b).
Proof.
  intros A B. induction a as [| [c | t] a IH]; cbn [app GoodPar] in *.
  - exact B.
  - now apply IH.
  - destruct A as [H1 H2]. split; [| now apply IH].
    intros Ho. now apply GoodStart_app, H1.
Qed.

Lemma PrefixOK_app (a b : list Piece) :
  PrefixOK a -> PrefixOK b -> PrefixOK (a ++ b).
Proof.
  intros A B. induction a as [| [c | t] a IH]; cbn [app PrefixOK] in *.
  - exact B.
  - now apply IH.
  - destruct (isCloseP t); [contradiction |].
    destruct (isOpenP t); [exact I | now apply IH].
Qed.

Lemma EntityOK_app (a b : list Piece) :
  EntityOK a -> EntityOK b -> EntityOK (a ++ b).
Proof.
  intros A B. induction a as [| [c | t] a IH]; cbn [app EntityOK] in *.
  - exact B.
  - destruct A as [H1 H2]. split; [| now apply IH].
    intros Hc. now apply entityNext_app, H1.
  - now apply IH.
Qed.

Lemma Tidy_app (a b : list Piece) : Tidy a -> Tidy b -> Tidy (a ++ b).
Proof.
  intros (A1 & A2 & A3 & A4) (B1 & B2 & B3 & B4).
  split; [apply Forall_app; now split |].
  split; [now apply GoodPar_app |].
  split; [now apply PrefixOK_app | now apply EntityOK_app].
Qed.

(** Text without [&] is tidy. *)
Lemma Tidy_plain (w : jstring) :
  Forall (fun c => c <> AMP /\ c <> LT /\ c <> GT) w -> Tidy (map PChar w).
Proof.
  induction 1 as [|c w (Ha & Hl & Hg) _ (I1 & I2 & I3 & I4)];
    [apply Tidy_nil |].
  cbn [map]. repeat split; try assumption.
  - constructor; [now split | exact I1].
  - intros E. contradiction.
Qed.

Lemma Tidy_nbsp : Tidy (map PChar (js "&nbsp;")).
Proof.
  repeat split.
  - repeat constructor; discriminate.
  - intros _. left. now exists [].
  - discriminate.
  - discriminate.
  - discriminate.
  - discriminate.
  - discriminate.
Qed.

Lemma Tidy_tag (t : jstring) :
  In t tagTokens -> isOpenP t = false -> isCloseP t = false -> Tidy [PTag t].
Proof.
  intros Ht Ho Hc. repeat split.
  - constructor; [exact Ht | constructor].
  - congruence.
  - cbn [PrefixOK]. now rewrite Hc, Ho.
Qed.

Lemma TidyMarkup_nil : TidyMarkup [].
Proof. exists []. split; [reflexivity | apply Tidy_nil]. Qed.

Lemma TidyMarkup_app (a b : jstring) :
  TidyMarkup a -> TidyMarkup b -> TidyMarkup (a ++ b).
Proof.
  intros [la [-> Ha]] [lb [-> Hb]]. exists (la ++ lb).
  split; [now rewrite flatten_app | now apply Tidy_app].
Qed.

Lemma TidyMarkup_concat (l : list jstring) :
  Forall TidyMarkup l -> TidyMarkup (concat l).
Proof.
  induction 1; cbn [concat]; [apply TidyMarkup_nil | now apply TidyMarkup_app].
Qed.

Lemma TidyMarkup_trim (s : jstring) : TidyMarkup s -> TidyMarkup (trim s).
Proof.
  intros [l [-> Hl]].
  destruct (trim_pieces l (proj1 Hl)) as [l' [E Hs]].
  exists l'. split; [exact E | now apply Tidy_Squeezed with l].
Qed.

Lemma flatten_plain (w : jstring) : flatten (map PChar w) = w.
Proof.
  rewrite <- (app_nil_r (map PChar w)), flatten_chars. apply app_nil_r.
Qed.

Lemma escapeHtml_app (a b : jstring) :
  escapeHtml (a ++ b) = escapeHtml a ++ escapeHtml b.
Proof. unfold escapeHtml. now rewrite !replaceChar_app. Qed.

(** What [escapeHtml] writes for one code unit. *)
Lemma escapeHtml_one (c : jchar) :
  Tidy (map PChar (escapeHtml [c])).
Proof.
  destruct (N.eq_dec c NBSP) as [-> | H1];
    [apply Tidy_plain; repeat constructor; discriminate |].
  destruct (N.eq_dec c AMP) as [-> | H2].
  { repeat split; try discriminate.
    - repeat constructor; discriminate.
    - intros _. right. exists 97%N. eexists. split; reflexivity. }
  destruct (N.eq_dec c LT) as [-> | H3].
  { repeat split; try discriminate.
    - repeat constructor; discriminate.
    - intros _. right. exists 108%N. eexists. split; reflexivity. }
  destruct (N.eq_dec c GT) as [-> | H4].
  { repeat split; try discriminate.
    - repeat constructor; discriminate.
    - intros _. right. exists 103%N. eexists. split; reflexivity. }
  destruct (N.eq_dec c QUOT) as [-> | H5].
  { repeat split; try discriminate.
    - repeat constructor; discriminate.
    - intros _. right. exists 113%N. eexists. split; reflexivity. }
  assert (E : escapeHtml [c] = [c]).
  { unfold escapeHtml.
    rewrite (replaceChar_id NBSP), (replaceChar_id AMP), (replaceChar_id LT),
      (replaceChar_id GT), (replaceChar_id QUOT);
      first [reflexivity | now repeat constructor]. }
  rewrite E. apply Tidy_plain. repeat constructor; assumption.
Qed.

Lemma TidyMarkup_escapeHtml (value : jstring) : TidyMarkup (escapeHtml value).
Proof.
  induction value as [|c v IH]; [apply TidyMarkup_nil |].
  change (c :: v) with ([c] ++ v). rewrite escapeHtml_app.
  apply TidyMarkup_app; [| exact IH].
  exists (map PChar (escapeHtml [c])).
  split; [now rewrite flatten_plain | apply escapeHtml_one].
Qed.

Lemma TidyMarkup_br : TidyMarkup (js "<br />").
Proof.
  exists [PTag (js "<br />")]. split; [reflexivity |].
  apply Tidy_tag; [cbn; auto 20 | reflexivity | reflexivity].
Qed.

Lemma TidyMarkup_wrapTag (tag inner : jstring) :
  In tag [js "b"; js "i"; js "u"; js "h1"; js "h2"] ->
  TidyMarkup inner -> TidyMarkup (wrapTag tag inner).
Proof.
  intros Htag [l [-> Hl]].
  exists ([PTag (js "<" ++ tag ++ js ">")] ++ l
          ++ [PTag (js "</" ++ tag ++ js ">")]).
  split.
  - unfold wrapTag. rewrite !flatten_app. cbn [flatten flat_map pieceText].
    rewrite !app_nil_r, <- !app_assoc. reflexivity.
  - cbn in Htag.
    repeat (destruct Htag as [<- | Htag];
            [apply Tidy_app;
             [apply Tidy_tag; [cbn; auto 20 | reflexivity | reflexivity]
             | apply Tidy_app;
               [exact Hl
               | apply Tidy_tag; [cbn; auto 20 | reflexivity | reflexivity]]]
            |]).
    contradiction.
Qed.

(** A paragraph around tidy content with a good start is tidy. *)
Lemma TidyMarkup_paragraph (l : list Piece) :
  Tidy l -> GoodStart l -> TidyMarkup (js "<p>" ++ flatten l ++ js "</p>").
Proof.
  intros (H1 & H2 & H3 & H4) Hg.
  assert (Hclose : Forall wellFormed [PTag (js "</p>")]
                   /\ GoodPar [PTag (js "</p>")]
                   /\ EntityOK [PTag (js "</p>")]).
  { split; [constructor; [cbn; auto 20 | constructor] |].
    split; [split; [discriminate | exact I] | exact I]. }
  assert (Hopen : In (js "<p>") tagTokens) by (cbn; auto 20).
  exists (PTag (js "<p>") :: l ++ [PTag (js "</p>")]). split.
  - rewrite flatten_tag, flatten_app. cbn [flatten flat_map pieceText].
    now rewrite app_nil_r.
  - destruct Hclose as (C1 & C2 & C4).
    assert (Hbody : Forall wellFormed (l ++ [PTag (js "</p>")])
                    /\ GoodPar (l ++ [PTag (js "</p>")])
                    /\ EntityOK (l ++ [PTag (js "</p>")])).
    { split; [apply Forall_app; now split |].
      split; [now apply GoodPar_app | now apply EntityOK_app]. }
    destruct Hbody as (B1 & B2 & B4).
    repeat split.
    + constructor; [exact Hopen | exact B1].
    + intros _. now apply GoodStart_app.
    + exact B2.
    + exact B4.
Qed.

Lemma TidyMarkup_wrapParagraph (content : jstring) :
  TidyMarkup content -> TidyMarkup (wrapParagraph content).
Proof.
  intros [l [-> Hl]]. unfold wrapParagraph.
  destruct (negb (truthy (flatten l))); [apply TidyMarkup_nil |].
  destruct (isEffectivelyEmpty (flatten l)) eqn:He; [apply TidyMarkup_nil |].
  destruct (trim_pieces l (proj1 Hl)) as [l' [-> Hs]].
  apply TidyMarkup_paragraph.
  - now apply Tidy_Squeezed with l.
  - apply GoodStart_Squeezed with l; [| exact Hs].
    now apply Tidy_GoodStart.
Qed.

Lemma GoodStart_indent (n : nat) (l : list Piece) :
  GoodStart l -> GoodStart (map PChar (repeatStr (js "&nbsp;") n) ++ l).
Proof.
  intros H. induction n as [|n IH]; [exact H |].
  cbn [repeatStr]. rewrite map_app, <- app_assoc. now constructor 3.
Qed.

Lemma Tidy_indent (depth : nat) : Tidy (map PChar (indentOf depth)).
Proof.
  unfold indentOf. destruct depth as [|d]; [apply Tidy_nil |].
  induction (S d * 4) as [|n IH]; [apply Tidy_nil |].
  cbn [repeatStr]. rewrite map_app. apply Tidy_app; [apply Tidy_nbsp | exact IH].
Qed.

(** The prefix of a list item starts with a digit, a sign, a letter or a
    dot, and holds no [&]. *)
Lemma prefixOf_shape (isOrdered : bool) (current : JsNumber) :
  exists c rest,
    prefixOf isOrdered current = c :: rest
    /\ isSpace c = false
    /\ Forall (fun x => x <> AMP /\ x <> LT /\ x <> GT) (c :: rest).
Proof.
  assert (Hdigit : forall x, isDigit x = true ->
                     isSpace x = false /\ x <> AMP /\ x <> LT /\ x <> GT).
  { intros x H. unfold isDigit in H. apply andb_true_iff in H as [A B].
    apply N.leb_le in A. apply N.leb_le in B.
    repeat split; try (intros ->; unfold AMP, LT, GT in *; lia).
    unfold isSpace.
    repeat match goal with
           | |- context [(?a <=? ?b)%N] =>
               destruct (N.leb_spec a b); try lia
           | |- context [(?a =? ?b)%N] =>
               destruct (N.eqb_spec a b); try lia
           end; reflexivity. }
  assert (Hu : forall u tail,
             isSpace (hd 46%N tail) = false ->
             Forall (fun x => x <> AMP /\ x <> LT /\ x <> GT) tail ->
             tail <> [] ->
             exists c rest, uintChars u ++ tail = c :: rest
               /\ isSpace c = false
               /\ Forall (fun x => x <> AMP /\ x <> LT /\ x <> GT) (c :: rest)).
  { intros u tail Hh Ht Hne. pose proof (uintChars_digits u) as Hall.
    destruct (uintChars u) as [|x xs].
    - destruct tail as [|y ys]; [congruence |]. exists y, ys.
      repeat split; try assumption; now inversion Ht.
    - exists x, (xs ++ tail). inversion Hall; subst.
      split; [reflexivity |]. split; [now apply Hdigit |].
      change (x :: xs ++ tail) with ((x :: xs) ++ tail).
      apply Forall_app. split; [| exact Ht].
      eapply Forall_impl; [| exact Hall]. intros y Hy. now apply Hdigit. }
  assert (Htail : Forall (fun x => x <> AMP /\ x <> LT /\ x <> GT) (js ". "))
    by (repeat constructor; discriminate).
  unfold prefixOf. destruct isOrdered.
  - destruct current as [|[|p|p]]; cbn [numberToString].
    + eexists _, _. split; [reflexivity |]. split; [reflexivity |].
      repeat constructor; discriminate.
    + eexists _, _. split; [reflexivity |]. split; [reflexivity |].
      repeat constructor; discriminate.
    + apply Hu; [reflexivity | exact Htail | discriminate].
    + destruct (Hu (Pos.to_uint p) (js ". ")) as (c & rest & E & _ & Hall);
        [reflexivity | exact Htail | discriminate |].
      exists 45%N, (uintChars (Pos.to_uint p) ++ js ". ").
      split; [reflexivity |]. split; [reflexivity |].
      constructor; [repeat split; discriminate |]. now rewrite E.
  - eexists _, _. split; [reflexivity |]. split; [reflexivity |].
    repeat constructor; discriminate.
Qed.

Lemma TidyMarkup_itemParagraph isOrdered depth current inlineContent :
  TidyMarkup inlineContent ->
  TidyMarkup (itemParagraph isOrdered depth current inlineContent).
Proof.
  intros [l [-> Hl]].
  destruct (prefixOf_shape isOrdered current) as (c & rest & E & Hc & Hall).
  set (line := if truthy (flatten l) then l else map PChar (js "&nbsp;")).
  assert (Hline : lineContentOf (flatten l) = flatten line /\ Tidy line).
  { unfold lineContentOf, line. destruct (truthy (flatten l)).
    - now split.
    - split; [now rewrite flatten_plain | apply Tidy_nbsp]. }
  destruct Hline as [Eline Hline].
  pose (body := map PChar (indentOf depth)
                  ++ map PChar (prefixOf isOrdered current) ++ line).
  assert (Ebody : indentOf depth ++ prefixOf isOrdered current
                    ++ lineContentOf (flatten l) = flatten body).
  { unfold body. rewrite !flatten_chars. now rewrite Eline. }
  unfold itemParagraph.
  replace (js "<p>" ++ indentOf depth ++ prefixOf isOrdered current
             ++ lineContentOf (flatten l) ++ js "</p>")
    with (js "<p>" ++ flatten body ++ js "</p>")
    by (rewrite <- Ebody, <- !app_assoc; reflexivity).
  apply TidyMarkup_paragraph.
  - unfold body. apply Tidy_app; [apply Tidy_indent |].
    apply Tidy_app; [| exact Hline].
    rewrite E. apply Tidy_plain. exact Hall.
  - unfold body, indentOf.
    assert (Hg : GoodStart (map PChar (prefixOf isOrdered current) ++ line)).
    { rewrite E. cbn [map app]. inversion Hall as [|? ? (Ha & _) _]; subst.
      now constructor 5. }
    destruct depth; [exact Hg | now apply GoodStart_indent].
Qed.

(** A property of strings that the operations of the serializer preserve
    holds of whatever the serializer writes. *)
Section SerializerClosure.

Variable Q : jstring -> Prop.
Hypothesis Q_nil : Q [].
Hypothesis Q_app : forall a b, Q a -> Q b -> Q (a ++ b).
Hypothesis Q_trim : forall s, Q s -> Q (trim s).
Hypothesis Q_escapeHtml : forall value, Q (escapeHtml value).
Hypothesis Q_br : Q (js "<br />").
Hypothesis Q_wrapTag : forall tag inner,
  In tag [js "b"; js "i"; js "u"; js "h1"; js "h2"] ->
  Q inner -> Q (wrapTag tag inner).
Hypothesis Q_wrapParagraph : forall content, Q content -> Q (wrapParagraph content).
Hypothesis Q_itemParagraph : forall isOrdered depth current inlineContent,
  Q inlineContent -> Q (itemParagraph isOrdered depth current inlineContent).

Lemma Q_concat (l : list jstring) : Forall Q l -> Q (concat l).
Proof. induction 1; cbn [concat]; auto. Qed.

Lemma listLoop_closed isOrdered depth (l : list Node) :
  (forall li, In li l -> forall child, In child (childNodesOf li) ->
     forall ic d, Q (serializeNode child ic d)) ->
  forall current, Q (listLoop isOrdered depth l current).
Proof.
  induction l as [|item rest IH]; intros Hkids current; [exact Q_nil |].
  assert (Hrest : forall current', Q (listLoop isOrdered depth rest current')).
  { apply IH. intros li Hli. apply Hkids. now right. }
  cbn [listLoop]. destruct item as [d | t a liNodes | d]; try apply Hrest.
  destruct (jeqb t (js "LI")); [| apply Hrest].
  assert (Hsub : forall child, In child liNodes ->
                 forall ic d, Q (serializeNode child ic d)).
  { intros child Hchild.
    apply (Hkids (Element t a liNodes)); [now left | exact Hchild]. }
  apply Q_app; [| apply Q_app; [| apply Hrest]].
  - apply Q_itemParagraph, Q_trim, Q_concat, Forall_forall.
    intros x Hx. apply in_map_iff in Hx as [child [<- Hchild]].
    destruct (isNestedList child); [exact Q_nil | now apply Hsub].
  - apply Q_concat, Forall_forall.
    intros x Hx. apply in_map_iff in Hx as [child [<- Hchild]].
    destruct (isNestedList child); [now apply Hsub | exact Q_nil].
Qed.

Lemma serializeNode_closed (n : Node) :
  forall ic depth, Q (serializeNode n ic depth).
Proof.
  induction n as [n IH] using Node_size_ind. intros ic depth.
  destruct n as [d | t a kids | d].
  - cbn [serializeNode]. apply Q_escapeHtml.
  - assert (Hkids : forall ic' d',
               Q (serializeChildren (Element t a kids) ic' d')).
    { intros ic' d'. unfold serializeChildren. cbn [childNodesOf].
      apply Q_concat, Forall_forall. intros x Hx.
      apply in_map_iff in Hx as [child [<- Hchild]].
      apply IH. now apply nodeSize_child. }
    rewrite serializeNode_element. cbv zeta.
    destruct (jeqb t (js "SCRIPT") || jeqb t (js "STYLE")); [exact Q_nil |].
    destruct (inlineTagMap t) as [tag |] eqn:Etag.
    { destruct (truthy _); [| exact Q_nil].
      apply Q_wrapTag; [| apply Hkids].
      apply inlineTagMap_range in Etag. cbn in Etag |- *. tauto. }
    destruct (isHeadingTag t).
    { destruct (truthy _); [| exact Q_nil].
      apply Q_wrapTag; [| apply Hkids].
      destruct (jeqb t (js "H1")); cbn; auto 10. }
    destruct (jeqb t (js "BR")); [exact Q_br |].
    destruct (isListTag t).
    { rewrite convertList_listLoop. apply listLoop_closed.
      intros li Hli child Hchild.
      apply IH. unfold listItemsOf, children in Hli.
      apply filter_In in Hli as [Hli _]. apply filter_In in Hli as [Hli _].
      apply Nat.lt_trans with (nodeSize li).
      - destruct li as [? | t' a' kids' | ?]; try contradiction.
        now apply nodeSize_child.
      - now apply nodeSize_child. }
    destruct (setHas blockTags t && negb ic).
    { apply Q_wrapParagraph, Hkids. }
    destruct ic; [apply Hkids | apply Q_wrapParagraph, Hkids].
  - exact Q_nil.
Qed.

(** What the conversion hands to the cleaner. *)
Lemma fragments_closed (nodes : list Node) (ic : bool) (depth : nat) :
  Q (concat (filter truthy
       (map (fun node => serializeNode node ic depth) nodes))).
Proof.
  apply Q_concat, Forall_forall. intros x Hx.
  apply filter_In in Hx as [Hx _].
  apply in_map_iff in Hx as [node [<- _]]. apply serializeNode_closed.
Qed.

End SerializerClosure.

Lemma fragments_Tidy (nodes : list Node) (ic : bool) (depth : nat) :
  TidyMarkup (concat (filter truthy
                (map (fun node => serializeNode node ic depth) nodes))).
Proof.
  apply fragments_closed.
  - apply TidyMarkup_nil.
  - apply TidyMarkup_app.
  - apply TidyMarkup_trim.
  - apply TidyMarkup_escapeHtml.
  - apply TidyMarkup_br.
  - apply TidyMarkup_wrapTag.
  - apply TidyMarkup_wrapParagraph.
  - apply TidyMarkup_itemParagraph.
Qed.

(** What the cleaner returns, from the pieces left once the empty
    paragraphs are gone. *)
Lemma cleanupOutput_squeezed (x : jstring) (l1 : list Piece) :
  Forall wellFormed l1 -> removeEmptyParagraphs x = flatten l1 ->
  exists l, Squeezed l1 l /\ cleanupOutput x = flatten l
    /\ noSpaceAfter isOpenP l /\ noSpaceAfter isOpenHeading l
    /\ noSpaceAfter isBr l /\ noSpaceBefore isBlockTag l
    /\ trim (flatten l) = flatten l.
Proof.
  intros Hl1 E1.
  set (l2 := afterTags isOpenP false l1).
  set (l3 := afterTags isOpenHeading false l2).
  set (l4 := afterTags isBr false l3).
  set (l5 := beforeTags isBlockTag l4).
  assert (S2 : Squeezed l1 l2) by apply Squeezed_afterTags.
  assert (S3 : Squeezed l2 l3) by apply Squeezed_afterTags.
  assert (S4 : Squeezed l3 l4) by apply Squeezed_afterTags.
  assert (S5 : Squeezed l4 l5) by apply Squeezed_beforeTags.
  assert (Hl2 : Forall wellFormed l2) by (eapply Squeezed_wellFormed; eauto).
  assert (Hl3 : Forall wellFormed l3) by (eapply Squeezed_wellFormed; eauto).
  assert (Hl4 : Forall wellFormed l4) by (eapply Squeezed_wellFormed; eauto).
  assert (Hl5 : Forall wellFormed l5) by (eapply Squeezed_wellFormed; eauto).
  destruct (trim_pieces l5 Hl5) as [l [Et S6]].
  exists l. split.
  { apply Squeezed_trans with l5; [| exact S6].
    apply Squeezed_trans with l4; [| exact S5].
    apply Squeezed_trans with l3; [| exact S4].
    apply Squeezed_trans with l2; assumption. }
  assert (Ex : cleanupOutput x = flatten l).
  { unfold cleanupOutput. fold (removeEmptyParagraphs x). rewrite E1.
    rewrite (replaceAll_afterTags reOpenP isOpenP) by exact Hl1. fold l2.
    rewrite (replaceAll_afterTags reOpenHeading isOpenHeading) by exact Hl2.
    fold l3.
    rewrite (replaceAll_afterTags reBr isBr) by exact Hl3. fold l4.
    rewrite (replaceAll_beforeTags reBlockTag isBlockTag) by exact Hl4.
    fold l5. exact Et. }
  split; [exact Ex |].
  repeat split.
  - apply noSpaceAfter_Squeezed with l5; [exact S6 |].
    apply noSpaceAfter_Squeezed with l4; [exact S5 |].
    apply noSpaceAfter_Squeezed with l3; [exact S4 |].
    apply noSpaceAfter_Squeezed with l2; [exact S3 |].
    apply afterTags_noSpaceAfter.
  - apply noSpaceAfter_Squeezed with l5; [exact S6 |].
    apply noSpaceAfter_Squeezed with l4; [exact S5 |].
    apply noSpaceAfter_Squeezed with l3; [exact S4 |].
    apply afterTags_noSpaceAfter.
  - apply noSpaceAfter_Squeezed with l5; [exact S6 |].
    apply noSpaceAfter_Squeezed with l4; [exact S5 |].
    apply afterTags_noSpaceAfter.
  - apply noSpaceBefore_Squeezed with l5; [exact S6 |].
    apply beforeTags_noSpaceBefore.
  - rewrite <- Et. apply trim_idem.
Qed.

(** Tidy markup is cleaned into tidy markup, and cleaning it twice is
    cleaning it once. *)
Lemma cleanupOutput_Tidy (x : jstring) :
  TidyMarkup x ->
  TidyMarkup (cleanupOutput x)
  /\ cleanupOutput (cleanupOutput x) = cleanupOutput x.
Proof.
  intros [l1 [-> H1]].
  pose proof (GoodPar_removeEmptyParagraphs l1 (proj1 H1) (proj1 (proj2 H1)))
    as E1.
  destruct (cleanupOutput_squeezed (flatten l1) l1 (proj1 H1) E1)
    as (l & Hs & El & H2 & H3 & H4 & H5 & Ht).
  pose proof (Tidy_Squeezed l1 l Hs H1) as Hl.
  split; [exists l; now split |].
  rewrite El. apply cleanupOutput_fixed; try assumption; try apply Hl.
  apply GoodPar_removeEmptyParagraphs; apply Hl.
Qed.

(** C7.  Whatever the tree, cleaning what the serializer wrote a second
    time changes nothing, and the [html] of a conversion is a fixed point
    of the cleaner: the serializer writes no paragraph that holds only
    white space, [&nbsp;] and [<br />], and deleting white space makes
    none.  On arbitrary markup of the restricted grammar, cleaning a second
    time changes nothing exactly when the first cleaning has left no empty
    paragraph: the white space the four other expressions delete is gone
    after one pass, and only the removal of an empty paragraph can leave a
    new match, a paragraph that held nothing but the removed one. *)
Theorem cleanupOutput_idempotent (nodes : list Node) (ic : bool) (depth : nat)
    (platform : Platform) (rawHtml x : jstring) :
  let fragments :=
    concat (filter truthy
              (map (fun node => serializeNode node ic depth) nodes)) in
  let result := convertRichTextToKeepMarkup platform rawHtml in
  cleanupOutput (cleanupOutput fragments) = cleanupOutput fragments
  /\ cleanupOutput (html result) = html result
  /\ (Markup x ->
      (cleanupOutput (cleanupOutput x) = cleanupOutput x
       <-> removeEmptyParagraphs (cleanupOutput x) = cleanupOutput x)).
Proof.
  cbv zeta. split; [| split].
  - apply cleanupOutput_Tidy, fragments_Tidy.
  - unfold convertRichTextToKeepMarkup.
    destruct (negb (truthy _)); cbn [html]; [reflexivity |].
    apply cleanupOutput_Tidy, fragments_Tidy.
  - intros Hx. split.
    + intros E.
      destruct (replaceAll_shrinks reEmptyParagraph (cleanupOutput x))
        as [H | H]; [exact H |].
      pose proof (cleanupOutput_length (cleanupOutput x)) as Hlen.
      rewrite E in Hlen. unfold removeEmptyParagraphs in Hlen. lia.
    + intros E.
      assert (H1 : Markup (removeEmptyParagraphs x))
        by (apply replaceAll_Markup; [typeclasses eauto .. | exact Hx]).
      apply Markup_pieces in H1 as [l1 [Hl1 E1]].
      destruct (cleanupOutput_squeezed x l1 Hl1 E1)
        as (l & Hs & El & H2 & H3 & H4 & H5 & Ht).
      rewrite El in *. apply cleanupOutput_fixed; try assumption.
      now apply Squeezed_wellFormed with l1.
Qed.

Lemma cleanupOutput_idempotent_witness :
  cleanupOutput (cleanupOutput (js "<p> Body <b>text</b> </p> <p> <br /> </p>"))
  = cleanupOutput (js "<p> Body <b>text</b> </p> <p> <br /> </p>").
Proof.
  apply (cleanupOutput_idempotent [] false 0 Browser.platform []
           (js "<p> Body <b>text</b> </p> <p> <br /> </p>")).
  - apply isMarkup_sound. vm_compute. reflexivity.
  - vm_compute. reflexivity.
Defined.

(** Removing the inner paragraph of [<p><p></p></p>] leaves [<p></p>],
    which the second cleaning removes. *)
Lemma cleanupOutput_not_idempotent :
  cleanupOutput nestedEmptyParagraph = js "<p></p>"
  /\ cleanupOutput (cleanupOutput nestedEmptyParagraph)
     <> cleanupOutput nestedEmptyParagraph.
Proof. split; [vm_compute; reflexivity | vm_compute; discriminate]. Qed.

(* ================================================================== *)
(** * Further properties of the engine *)
(* ================================================================== *)

(** ** The cleaner on any string *)

Lemma removeEmptyParagraphs_length (markup : jstring) :
  length (removeEmptyParagraphs markup) <= length markup.
Proof.
  destruct (replaceAll_shrinks reEmptyParagraph markup) as [H | H];
    unfold removeEmptyParagraphs; [rewrite H |]; lia.
Qed.

Lemma dropSpaces_last (s : jstring) (d : jchar) :
  isSpace d = false -> isSpace (last (rev (dropSpaces (rev s))) d) = false.
Proof.
  intros Hd. destruct (dropSpaces (rev s)) as [|c t] eqn:E; [exact Hd |].
  cbn [rev]. rewrite last_last.
  pose proof (dropSpaces_startsSpace (rev s)) as H. rewrite E in H. exact H.
Qed.

(** The cleaner only deletes: what it returns is never longer than what it
    was given, and it neither starts nor ends with white space. *)
Theorem cleanupOutput_shrinks_and_trims (markup : jstring) :
  length (cleanupOutput markup) <= length markup
  /\ trim (cleanupOutput markup) = cleanupOutput markup
  /\ startsSpace (cleanupOutput markup) = false
  /\ isSpace (last (cleanupOutput markup) LT) = false.
Proof.
  split; [| split; [| split]].
  - etransitivity; [apply cleanupOutput_length |].
    apply removeEmptyParagraphs_length.
  - unfold cleanupOutput. apply trim_idem.
  - unfold cleanupOutput, trim, trimStart.
    apply trimEnd_startsSpace, dropSpaces_startsSpace.
  - unfold cleanupOutput, trim, trimEnd. now apply dropSpaces_last.
Qed.

(** ** The serializer writes no empty paragraph *)

(** Whatever the tree, no paragraph the serializer writes holds only white
    space, [&nbsp;] and [<br />]: the first replacement of the cleaner
    finds nothing to remove in what the conversion hands to it. *)
Theorem serializer_writes_no_empty_paragraph
    (node : Node) (nodes : list Node) (ic : bool) (depth : nat) :
  let fragments :=
    concat (filter truthy
              (map (fun node => serializeNode node ic depth) nodes)) in
  removeEmptyParagraphs (serializeNode node ic depth)
  = serializeNode node ic depth
  /\ removeEmptyParagraphs fragments = fragments.
Proof.
  cbv zeta. split.
  - pose proof (fragments_Tidy [node] ic depth) as H. cbn [map filter] in H.
    destruct (truthy (serializeNode node ic depth)) eqn:E.
    + cbn [concat] in H. rewrite app_nil_r in H.
      destruct H as [l [-> Hl]]. apply GoodPar_removeEmptyParagraphs; apply Hl.
    + destruct (serializeNode node ic depth); [reflexivity | discriminate].
  - destruct (fragments_Tidy nodes ic depth) as [l [-> Hl]].
    apply GoodPar_removeEmptyParagraphs; apply Hl.
Qed.

(** ** Blank detection *)

(** [replace(/\s+/g, "")] keeps the code units that are not white space. *)
Lemma stripSpaces_filter (s : jstring) :
  replaceAll (constRule mSpaces1 []) s = filter (fun c => negb (isSpace c)) s.
Proof.
  induction s as [|c t IH]; [reflexivity |]. cbn [filter].
  destruct (isSpace c) eqn:Ec; cbn [negb].
  - now rewrite stripSpaces_space.
  - rewrite (replaceAll_none _); [now f_equal |].
    unfold constRule. rewrite mSpaces1_spec. cbn [startsSpace]. now rewrite Ec.
Qed.

Lemma filter_nil_forallb (s : jstring) :
  Nat.eqb (length (filter (fun c => negb (isSpace c)) s)) 0 = forallb isSpace s.
Proof.
  induction s as [|c t IH]; [reflexivity |]. cbn [filter forallb].
  destruct (isSpace c); cbn [negb andb]; [exact IH | reflexivity].
Qed.

(** Text without markup is effectively empty exactly when it is all white
    space. *)
Lemma isEffectivelyEmpty_text (w : jstring) :
  Forall (fun c => c <> LT) w -> Forall (fun c => c <> AMP) w ->
  isEffectivelyEmpty w = forallb isSpace w.
Proof.
  intros Hl Ha. unfold isEffectivelyEmpty.
  rewrite (replaceAll_text_only (constRule reBr []) LT)
    by (try assumption; apply constRule_text, reBr_text).
  rewrite (replaceAll_text_only (constRule (mLit true (js "&nbsp;")) (js " "))
             AMP)
    by (try assumption; apply constRule_text, nbsp_text).
  rewrite (replaceAll_text_only (constRule reTag1 []) LT)
    by (try assumption; apply constRule_text, reTag1_text).
  rewrite stripSpaces_filter. apply filter_nil_forallb.
Qed.

(** [wrapParagraph] on text that holds neither [<] nor [&]: white space
    alone gives no paragraph at all, anything else gives one paragraph
    around the trimmed text. *)
Theorem wrapParagraph_text (w : jstring) :
  Forall (fun c => c <> LT) w -> Forall (fun c => c <> AMP) w ->
  wrapParagraph w
  = if forallb isSpace w then [] else js "<p>" ++ trim w ++ js "</p>".
Proof.
  intros Hl Ha. unfold wrapParagraph.
  rewrite isEffectivelyEmpty_text by assumption.
  destruct w as [|c t]; reflexivity.
Qed.

Lemma wrapParagraph_text_witness :
  wrapParagraph (js "  ") = [] /\ wrapParagraph (js " a b ") = js "<p>a b</p>".
Proof.
  split.
  - rewrite (wrapParagraph_text (js "  "));
      [reflexivity | repeat constructor; discriminate ..].
  - rewrite (wrapParagraph_text (js " a b "));
      [reflexivity | repeat constructor; discriminate ..].
Defined.

(** ** Text nodes *)

Lemma escapeHtml_escapeOne (value : jstring) :
  escapeHtml value = flat_map escapeOne value.
Proof.
  induction value as [|c v IH]; [reflexivity |].
  change (c :: v) with ([c] ++ v). rewrite escapeHtml_app, IH.
  cbn [flat_map app]. f_equal.
  unfold escapeHtml, escapeOne, replaceChar. cbn [flat_map app].
  destruct (N.eqb_spec c NBSP) as [-> | H1]; [reflexivity |].
  cbn [flat_map app].
  destruct (N.eqb_spec c AMP) as [-> | H2]; [reflexivity |].
  cbn [flat_map app].
  destruct (N.eqb_spec c LT) as [-> | H3]; [reflexivity |].
  cbn [flat_map app].
  destruct (N.eqb_spec c GT) as [-> | H4]; [reflexivity |].
  cbn [flat_map app].
  destruct (N.eqb_spec c QUOT) as [-> | H5]; reflexivity.
Qed.

Lemma escapeOne_cases (c : jchar) :
  (c = NBSP /\ escapeOne c = js " ")
  \/ (c = AMP /\ escapeOne c = js "&amp;")
  \/ (c = LT /\ escapeOne c = js "&lt;")
  \/ (c = GT /\ escapeOne c = js "&gt;")
  \/ (c = QUOT /\ escapeOne c = js "&quot;")
  \/ (c <> NBSP /\ c <> AMP /\ c <> LT /\ c <> GT /\ c <> QUOT
      /\ escapeOne c = [c]).
Proof.
  unfold escapeOne.
  destruct (N.eqb_spec c NBSP) as [-> | H1]; [now left |].
  destruct (N.eqb_spec c AMP) as [-> | H2]; [right; now left |].
  destruct (N.eqb_spec c LT) as [-> | H3]; [right; right; now left |].
  destruct (N.eqb_spec c GT) as [-> | H4]; [right; right; right; now left |].
  destruct (N.eqb_spec c QUOT) as [-> | H5];
    [right; right; right; right; now left |].
  repeat right. repeat split; assumption.
Qed.

(** Where [x] is not in [a], its first occurrence in [a ++ b] is in [b]. *)
Lemma app_split_at (x : jchar) (a b p q : jstring) :
  Forall (fun c => c <> x) a -> a ++ b = p ++ x :: q ->
  exists p', p = a ++ p' /\ b = p' ++ x :: q.
Proof.
  intros Ha. revert p. induction Ha as [|c a Hc _ IH]; intros p E.
  - exists p. now split.
  - destruct p as [|y p]; cbn in E; injection E as E1 E2; [congruence |].
    subst y. destruct (IH p E2) as [p' [-> ->]]. exists p'. now split.
Qed.

(** [escapeHtml] leaves no [<], [>], double quote or non-breaking space,
    and every [&] it writes starts one of [&amp;], [&lt;], [&gt;] and
    [&quot;]. *)
Theorem escapeHtml_safe (value : jstring) :
  Forall (fun c => c <> LT /\ c <> GT /\ c <> QUOT /\ c <> NBSP)
    (escapeHtml value)
  /\ (forall pre post, escapeHtml value = pre ++ AMP :: post ->
        exists name rest, In name escapedNames /\ post = name ++ rest).
Proof.
  rewrite escapeHtml_escapeOne. split.
  - induction value as [|c v IH]; [constructor |]. cbn [flat_map].
    apply Forall_app. split; [| exact IH].
    destruct (escapeOne_cases c)
      as [[_ ->] | [[_ ->] | [[_ ->] | [[_ ->] | [[_ ->] | H]]]]];
      try (repeat constructor; discriminate).
    destruct H as (H1 & H2 & H3 & H4 & H5 & ->).
    repeat constructor; assumption.
  - induction value as [|c v IH]; intros pre post E.
    + destruct pre; discriminate.
    + cbn [flat_map] in E.
      assert (Hstep : forall a p, Forall (fun x => x <> AMP) a ->
                a ++ flat_map escapeOne v = p ++ AMP :: post ->
                exists name rest, In name escapedNames /\ post = name ++ rest).
      { intros a p Ha Ea. destruct (app_split_at AMP _ _ _ _ Ha Ea)
          as [p' [_ E']]. now apply IH with p'. }
      assert (Hamp : forall name, In name escapedNames ->
                Forall (fun x => x <> AMP) name ->
                (AMP :: name) ++ flat_map escapeOne v = pre ++ AMP :: post ->
                exists name rest, In name escapedNames /\ post = name ++ rest).
      { intros name Hin Hname Ea. destruct pre as [|y pre].
        - cbn in Ea. injection Ea as <-. eauto.
        - cbn in Ea. injection Ea as _ Ea. now apply Hstep with name pre. }
      destruct (escapeOne_cases c)
        as [[_ Ec] | [[_ Ec] | [[_ Ec] | [[_ Ec] | [[_ Ec] | H]]]]];
        rewrite ?Ec in E.
      * apply Hstep with (js " ") pre;
          [repeat constructor; discriminate | exact E].
      * apply Hamp with (js "amp;");
          [cbn; auto | repeat constructor; discriminate | exact E].
      * apply Hamp with (js "lt;");
          [cbn; auto | repeat constructor; discriminate | exact E].
      * apply Hamp with (js "gt;");
          [cbn; auto | repeat constructor; discriminate | exact E].
      * apply Hamp with (js "quot;");
          [cbn; auto | repeat constructor; discriminate | exact E].
      * destruct H as (_ & H2 & _ & _ & _ & Ec). rewrite Ec in E.
        apply Hstep with [c] pre; [now repeat constructor | exact E].
Qed.





(** ** Escaped text read back by the parser *)

Lemma tokenizeFuel_escaped (n : nat) (s : jstring) :
  tokenizeFuel (S n) (js "&amp;" ++ s) = TChar AMP :: tokenizeFuel n s
  /\ tokenizeFuel (S n) (js "&lt;" ++ s) = TChar LT :: tokenizeFuel n s
  /\ tokenizeFuel (S n) (js "&gt;" ++ s) = TChar GT :: tokenizeFuel n s
  /\ tokenizeFuel (S n) (js "&quot;" ++ s) = TChar QUOT :: tokenizeFuel n s.
Proof. repeat split; reflexivity. Qed.

Lemma tokenize_escapeOne (c : jchar) (s : jstring) :
  tokenize (escapeOne c ++ s)
  = TChar (if N.eqb c NBSP then SPACE else c) :: tokenize s.
Proof.
  destruct (escapeOne_cases c)
    as [[-> ->] | [[-> ->] | [[-> ->] | [[-> ->] | [[-> ->] | H]]]]].
  - apply tokenize_char; discriminate.
  - unfold tokenize. change (length (js "&amp;" ++ s)) with (S (4 + length s)).
    rewrite (proj1 (tokenizeFuel_escaped _ s)). cbn [N.eqb]. f_equal.
    apply tokenizeFuel_enough; lia.
  - unfold tokenize. change (length (js "&lt;" ++ s)) with (S (3 + length s)).
    rewrite (proj1 (proj2 (tokenizeFuel_escaped _ s))). f_equal.
    apply tokenizeFuel_enough; lia.
  - unfold tokenize. change (length (js "&gt;" ++ s)) with (S (3 + length s)).
    rewrite (proj1 (proj2 (proj2 (tokenizeFuel_escaped _ s)))). f_equal.
    apply tokenizeFuel_enough; lia.
  - unfold tokenize. change (length (js "&quot;" ++ s)) with (S (5 + length s)).
    rewrite (proj2 (proj2 (proj2 (tokenizeFuel_escaped _ s)))). f_equal.
    apply tokenizeFuel_enough; lia.
  - destruct H as (H1 & H2 & H3 & _ & _ & ->).
    apply N.eqb_neq in H1. rewrite H1. now apply tokenize_char.
Qed.

Lemma tokenize_escapeHtml (value : jstring) :
  tokenize (escapeHtml value) = map TChar (normalizeInput value).
Proof.
  rewrite escapeHtml_escapeOne. unfold normalizeInput, replaceChar.
  induction value as [|c v IH]; [reflexivity |].
  cbn [flat_map]. rewrite tokenize_escapeOne, IH.
  destruct (N.eqb c NBSP); reflexivity.
Qed.

(** Escaping and reading back are inverse to each other up to the
    non-breaking space: the text of an element whose [innerHTML] is set to
    [escapeHtml value] is [value] with its non-breaking spaces turned into
    spaces.  NUL and carriage return, which an HTML parser does not pass on
    as they are, are left out. *)
Theorem escapeHtml_round_trip (value : jstring) :
  Forall (fun c => c <> 0%N /\ c <> 13%N) value ->
  innerText Browser.platform (escapeHtml value) = normalizeInput value.
Proof.
  intros _. cbn [innerText Browser.platform]. unfold parse.
  rewrite tokenize_escapeHtml, buildTree_text.
  rewrite <- (app_nil_r (map TChar (normalizeInput value))).
  rewrite tokenChars_text. apply app_nil_r.
Qed.

Lemma escapeHtml_round_trip_witness :
  innerText Browser.platform (escapeHtml (jsq "a < b & `c`"))
  = jsq "a < b & `c`".
Proof.
  apply (escapeHtml_round_trip (jsq "a < b & `c`")).
  repeat constructor; discriminate.
Defined.

(** ** Lists *)

Lemma listLoop_unordered depth items current :
  Forall (fun li => hasTag (js "LI") li = true) items ->
  listLoop false depth items current
  = concat (map (fun li =>
                   js "<p>" ++ indentOf depth ++ js "- "
                   ++ lineContentOf (inlineContentOf depth li) ++ js "</p>"
                   ++ nestedOutputOf depth li)
                items).
Proof.
  intros Hall. revert current.
  induction Hall as [|li items Hli _ IH]; intros current; [reflexivity |].
  rewrite listLoop_item by exact Hli. cbn [map concat].
  rewrite IH. unfold itemParagraph, prefixOf.
  rewrite <- !app_assoc. reflexivity.
Qed.

(** An unordered list becomes one paragraph per direct [li] child, in
    order: the indent of its depth, a dash and a space, and the item's
    inline content ([&nbsp;] when there is none), each followed by what
    the item's sublists give one level deeper.  Children that are not [li]
    elements give nothing, and a list without [li] children gives the empty
    string. *)
Theorem unordered_list_paragraphs (listElement : Node) (depth : nat) :
  convertList listElement false depth
  = concat (map (fun li =>
                   js "<p>" ++ indentOf depth ++ js "- "
                   ++ lineContentOf (inlineContentOf depth li) ++ js "</p>"
                   ++ nestedOutputOf depth li)
                (listItemsOf listElement)).
Proof.
  rewrite convertList_listLoop. apply listLoop_unordered, listItemsOf_all.
Qed.

Lemma listLoop_nan depth items :
  Forall (fun li => hasTag (js "LI") li = true) items ->
  listLoop true depth items NaN
  = concat (map (fun li =>
                   js "<p>" ++ indentOf depth ++ js "NaN. "
                   ++ lineContentOf (inlineContentOf depth li) ++ js "</p>"
                   ++ nestedOutputOf depth li)
                items).
Proof.
  induction 1 as [|li items Hli _ IH]; [reflexivity |].
  rewrite listLoop_item by exact Hli. cbn [map concat addOne].
  rewrite IH. unfold itemParagraph, prefixOf. cbn [numberToString].
  rewrite <- !app_assoc. reflexivity.
Qed.

(** An ordered list whose [start] attribute does not begin, after optional
    white space and sign, with a decimal digit numbers every item
    [NaN]. *)
Theorem ordered_list_unparsable_start (attrs : list (jstring * jstring))
    (kids : list Node) (depth : nat) (start : jstring) :
  getAttribute attrs (js "start") = Some start ->
  parseInt10 start = NaN ->
  convertList (Element (js "OL") attrs kids) true depth
  = concat (map (fun li =>
                   js "<p>" ++ indentOf depth ++ js "NaN. "
                   ++ lineContentOf (inlineContentOf depth li) ++ js "</p>"
                   ++ nestedOutputOf depth li)
                (listItemsOf (Element (js "OL") attrs kids))).
Proof.
  intros Hs Hn. rewrite convertList_listLoop.
  unfold startValueOf. cbn [attributesOf]. rewrite Hs, Hn.
  apply listLoop_nan, listItemsOf_all.
Qed.

Lemma ordered_list_unparsable_start_witness :
  convertList badStartList true 0 = js "<p>NaN. a</p><p>NaN. b</p>".
Proof.
  unfold badStartList.
  rewrite (ordered_list_unparsable_start _ _ 0 (js "x"));
    reflexivity.
Defined.

(** ** The counter read back *)

Lemma digitsValue_acc (u : Decimal.uint) (acc : positive) :
  fold_left (fun a c => (a * 10 + (Z.of_N c - 48))%Z) (uintChars u) (Zpos acc)
  = Zpos (Pos.of_uint_acc u acc).
Proof.
  revert acc. induction u; intros acc; cbn [uintChars fold_left Pos.of_uint_acc];
    try reflexivity;
    match goal with
    | |- fold_left _ _ ?z = Zpos (Pos.of_uint_acc _ ?p) =>
        replace z with (Zpos p) by lia; apply IHu
    end.
Qed.

Lemma digitsValue_uintChars (u : Decimal.uint) :
  digitsValue (uintChars u) = Z.of_N (Pos.of_uint u).
Proof.
  unfold digitsValue.
  induction u; cbn [uintChars fold_left Pos.of_uint]; try reflexivity;
    try exact IHu;
    match goal with
    | |- fold_left _ _ ?z = Z.of_N (Npos (Pos.of_uint_acc _ ?p)) =>
        replace z with (Zpos p) by lia; apply digitsValue_acc
    end.
Qed.

Lemma takeDigits_uintChars (u : Decimal.uint) (rest : jstring) :
  takeDigits (uintChars u ++ rest) = uintChars u ++ takeDigits rest.
Proof.
  pose proof (uintChars_digits u) as H.
  induction H as [|c t Hc _ IH]; [reflexivity |].
  cbn [app takeDigits]. now rewrite Hc, IH.
Qed.

Lemma takeDigits_stop (rest : jstring) :
  isDigit (hd SPACE rest) = false -> takeDigits rest = [].
Proof. destruct rest as [|c t]; [reflexivity |]. cbn. now intros ->. Qed.

Lemma isDigit_plain (c : jchar) :
  isDigit c = true -> isSpace c = false /\ c <> 45%N /\ c <> 43%N.
Proof.
  unfold isDigit. intros H. apply andb_true_iff in H as [A B].
  apply N.leb_le in A. apply N.leb_le in B.
  repeat split; try (intros ->; lia).
  unfold isSpace.
  repeat match goal with
         | |- context [(?a <=? ?b)%N] => destruct (N.leb_spec a b); try lia
         | |- context [(?a =? ?b)%N] => destruct (N.eqb_spec a b); try lia
         end; reflexivity.
Qed.

Lemma parseInt10_digits (ds rest : jstring) :
  ds <> [] -> Forall (fun c => isDigit c = true) ds ->
  isDigit (hd SPACE rest) = false ->
  parseInt10 (ds ++ rest) = Num (digitsValue ds)
  /\ parseInt10 (45%N :: ds ++ rest) = Num (- digitsValue ds).
Proof.
  intros Hne Hall Hrest.
  assert (Ht : takeDigits (ds ++ rest) = ds).
  { clear Hne. induction Hall as [|c t Hc _ IH]; cbn [app takeDigits].
    - now apply takeDigits_stop.
    - now rewrite Hc, IH. }
  destruct ds as [|c t]; [congruence |]. inversion Hall as [|? ? Hc _]; subst.
  destruct (isDigit_plain c Hc) as (Hs & Hm & Hp).
  apply N.eqb_neq in Hm, Hp. split.
  - unfold parseInt10. cbn [app dropSpaces]. rewrite Hs, Hm, Hp.
    cbn [app] in Ht. now rewrite Ht.
  - unfold parseInt10. cbn [dropSpaces]. change (isSpace 45%N) with false.
    cbv iota. change (N.eqb 45%N 45%N) with true. cbv iota.
    now rewrite Ht.
Qed.

(** [parseInt] reads back the integer that a template literal wrote,
    whatever follows it that is not a digit: an ordered list whose [start]
    attribute holds the text of an integer counts from that integer.  The
    integer is taken in the range where a JavaScript Number is exact. *)
Theorem start_attribute_round_trip (z : Z) (rest : jstring)
    (attrs : list (jstring * jstring)) :
  (Z.abs z <= 2 ^ 53)%Z ->
  isDigit (hd SPACE rest) = false ->
  getAttribute attrs (js "start") = Some (numberToString (Num z) ++ rest) ->
  parseInt10 (numberToString (Num z) ++ rest) = Num z
  /\ startValueOf true attrs = Num z.
Proof.
  intros _ Hrest Hs.
  assert (Hp : parseInt10 (numberToString (Num z) ++ rest) = Num z).
  { assert (Hu : forall p,
               uintChars (Pos.to_uint p) <> []
               /\ digitsValue (uintChars (Pos.to_uint p)) = Zpos p).
    { intros p.
      assert (E : digitsValue (uintChars (Pos.to_uint p)) = Zpos p)
        by (rewrite digitsValue_uintChars, DecimalPos.Unsigned.of_to;
            reflexivity).
      split; [| exact E]. intros Hnil. rewrite Hnil in E. discriminate E. }
    destruct z as [|p|p]; cbn [numberToString].
    - destruct (parseInt10_digits (js "0") rest) as [H _];
        [discriminate | repeat constructor | exact Hrest |]. exact H.
    - destruct (Hu p) as [Hne Hv].
      destruct (parseInt10_digits (uintChars (Pos.to_uint p)) rest) as [H _];
        [exact Hne | apply uintChars_digits | exact Hrest |].
      now rewrite H, Hv.
    - destruct (Hu p) as [Hne Hv].
      destruct (parseInt10_digits (uintChars (Pos.to_uint p)) rest) as [_ H];
        [exact Hne | apply uintChars_digits | exact Hrest |].
      change ((45%N :: uintChars (Pos.to_uint p)) ++ rest)
        with (45%N :: uintChars (Pos.to_uint p) ++ rest).
      now rewrite H, Hv. }
  split; [exact Hp |]. unfold startValueOf. now rewrite Hs.
Qed.

Lemma start_attribute_round_trip_witness :
  startValueOf true [(js "start", js "-12.5")] = Num (-12).
Proof.
  apply (start_attribute_round_trip (-12) (js ".5"));
    [vm_compute; discriminate | reflexivity | reflexivity].
Defined.

(** ** The shape of the plain text *)

(** A global replace by a constant keeps a property of the code units that
    the constant has. *)
Lemma replaceAll_constRule_Forall (P : jchar -> Prop) (m : matcher)
    `{Sound m} `{Progress m} (out s : jstring) :
  Forall P out -> Forall P s -> Forall P (replaceAll (constRule m out) s).
Proof.
  intros Hout.
  assert (Hn : forall n s, length s < n -> Forall P s ->
                 Forall P (replaceAll (constRule m out) s)).
  { clear s. induction n as [|n IH]; intros s Hlen Hs; [lia |].
    destruct s as [|c t]; [constructor |].
    rewrite (replaceAll_cons _).
    destruct (constRule m out (c :: t)) as [[o rest] |] eqn:E.
    - pose proof (ruleOk _ _ _ E) as Hr. unfold constRule in E.
      destruct (m (c :: t)) as [[a r] |] eqn:Em; [| discriminate].
      injection E as <- <-. apply sound in Em.
      apply Forall_app. split; [exact Hout |].
      apply IH; [lia |]. rewrite Em in Hs. now apply Forall_app in Hs.
    - inversion Hs; subst. constructor; [assumption |].
      apply IH; [cbn in Hlen; lia | assumption]. }
  intros Hs. apply Hn with (S (length s)); [lia | exact Hs].
Qed.

Lemma dropSpaces_Forall (P : jchar -> Prop) (s : jstring) :
  Forall P s -> Forall P (dropSpaces s).
Proof.
  induction 1 as [|c t Hc Ht IH]; [constructor |]. cbn [dropSpaces].
  destruct (isSpace c); [exact IH | now constructor].
Qed.

Lemma trim_Forall (P : jchar -> Prop) (s : jstring) :
  Forall P s -> Forall P (trim s).
Proof.
  intros H. unfold trim, trimStart, trimEnd.
  apply Forall_rev, dropSpaces_Forall, Forall_rev, dropSpaces_Forall, H.
Qed.

Lemma splitOn_Forall (P : jchar -> Prop) (sep : jchar) (s : jstring) :
  Forall P s -> Forall (Forall P) (splitOn sep s).
Proof.
  induction 1 as [|c t Hc _ IH]; [repeat constructor |].
  cbn [splitOn]. destruct (N.eqb c sep); [constructor; [constructor | exact IH] |].
  destruct (splitOn sep t) as [|l ls]; [repeat constructor; assumption |].
  inversion IH; subst. constructor; [now constructor | assumption].
Qed.

Lemma join_Forall (P : jchar -> Prop) (sep : jstring) (parts : list jstring) :
  Forall P sep -> Forall (Forall P) parts -> Forall P (join sep parts).
Proof.
  intros Hsep. induction 1 as [|p ps Hp Hps IH]; [constructor |].
  cbn [join]. destruct ps as [|q ps]; [exact Hp |].
  apply Forall_app. split; [exact Hp |]. apply Forall_app. now split.
Qed.

Lemma replaceChar_gone (c : jchar) (out s : jstring) :
  Forall (fun x => x <> c) out -> Forall (fun x => x <> c) (replaceChar c out s).
Proof.
  intros Hout. apply replaceChar_Forall; [exact Hout |].
  apply Forall_forall. intros x _. destruct (N.eq_dec x c); auto.
Qed.

(** The greedy run of line feeds of [\n{2,}] stops where no line feed
    follows. *)
Lemma manyLF_stop (s : jstring) :
  exists m r, mMany (mChar (N.eqb LF)) s = Some (m, r) /\ startsLF r = false.
Proof.
  induction s as [|c t (m & r & E & Hr)].
  - exists [], []. now split.
  - rewrite mMany_step. cbn [mChar].
    destruct (N.eqb LF c) eqn:Ec.
    + cbn [length]. rewrite (proj2 (Nat.ltb_lt _ _) (Nat.lt_succ_diag_r _)).
      rewrite E. exists ([c] ++ m), r. now split.
    + exists [], (c :: t). split; [reflexivity |].
      cbn [startsLF]. now rewrite N.eqb_sym.
Qed.

Lemma blankLinesRule_spec (s : jstring) :
  match constRule reBlankLines [LF; LF] s with
  | Some (out, rest) => out = [LF; LF] /\ startsLF rest = false
  | None => startsWith [LF; LF] s = false
  end.
Proof.
  unfold constRule, reBlankLines, mSeq.
  destruct s as [|c [|d t]]; cbn [mLit charEq startsWith].
  - reflexivity.
  - destruct (N.eqb LF c); [now rewrite andb_false_r | reflexivity].
  - destruct (N.eqb LF c); cbn [andb]; [| reflexivity].
    destruct (N.eqb LF d); cbn [andb]; [| reflexivity].
    destruct (manyLF_stop t) as (m & r & -> & Hr). now split.
Qed.

Lemma replaceAll_startsLF (s : jstring) :
  startsLF s = false ->
  startsLF (replaceAll (constRule reBlankLines [LF; LF]) s) = false.
Proof.
  destruct s as [|c t]; [reflexivity |]. cbn [startsLF]. intros Hc.
  rewrite (replaceAll_none _); [exact Hc |].
  pose proof (blankLinesRule_spec (c :: t)) as H.
  destruct (constRule reBlankLines [LF; LF] (c :: t)) as [[out rest] |] eqn:E;
    [| reflexivity].
  exfalso. unfold constRule, reBlankLines, mSeq in E.
  cbn [mLit charEq] in E. rewrite N.eqb_sym, Hc in E. discriminate E.
Qed.

Lemma includes_after_LF (u : jstring) :
  startsLF u = false -> includes [LF; LF; LF] u = false ->
  includes [LF; LF; LF] (LF :: u) = false
  /\ includes [LF; LF; LF] (LF :: LF :: u) = false.
Proof.
  intros Hs Hi.
  assert (H1 : includes [LF; LF; LF] (LF :: u) = false).
  { cbn [includes]. rewrite Hi, orb_false_r.
    destruct u as [|x y]; [reflexivity |]. cbn [startsLF] in Hs.
    cbn [startsWith]. rewrite (N.eqb_sym LF x), Hs.
    now rewrite andb_false_r. }
  split; [exact H1 |].
  cbn [includes] in *. rewrite H1, orb_false_r.
  destruct u as [|x y]; [reflexivity |]. cbn [startsLF] in Hs.
  cbn [startsWith]. rewrite (N.eqb_sym LF x), Hs.
  now rewrite !andb_false_r.
Qed.

(** After [replace(/\n{2,}/g, "\n\n")] no three line feeds are in a
    row. *)
Lemma blankLines_collapsed (s : jstring) :
  includes [LF; LF; LF] (replaceAll (constRule reBlankLines [LF; LF]) s) = false.
Proof.
  assert (Hn : forall n s, length s < n ->
            includes [LF; LF; LF]
              (replaceAll (constRule reBlankLines [LF; LF]) s) = false).
  { clear s. induction n as [|n IH]; intros s Hlen; [lia |].
    destruct s as [|c t]; [reflexivity |].
    pose proof (blankLinesRule_spec (c :: t)) as H.
    rewrite (replaceAll_cons _).
    destruct (constRule reBlankLines [LF; LF] (c :: t)) as [[out rest] |] eqn:E.
    - destruct H as [-> Hr]. apply ruleOk in E.
      pose proof (replaceAll_startsLF rest Hr) as Hs.
      specialize (IH rest ltac:(lia)).
      now apply includes_after_LF.
    - specialize (IH t ltac:(cbn in Hlen; lia)).
      destruct (N.eqb_spec c LF) as [-> | Hc].
      + assert (Ht : startsLF t = false).
        { destruct t as [|d t']; [reflexivity |].
          cbn [startsWith] in H. change (N.eqb LF LF) with true in H.
          cbn [andb] in H. rewrite andb_true_r in H.
          cbn [startsLF]. now rewrite N.eqb_sym. }
        now apply includes_after_LF; [apply replaceAll_startsLF |].
      + cbn [includes]. rewrite IH, orb_false_r. cbn [startsWith].
        apply N.eqb_neq in Hc. rewrite N.eqb_sym in Hc. now rewrite Hc. }
  apply Hn with (S (length s)). lia.
Qed.

Lemma startsWith_app (needle a w : jstring) :
  startsWith needle a = true -> startsWith needle (a ++ w) = true.
Proof.
  revert a. induction needle as [|x n IH]; intros a; [reflexivity |].
  destruct a as [|y a]; [discriminate |]. cbn [startsWith app].
  intros H. apply andb_true_iff in H as [H1 H2]. rewrite H1. now apply IH.
Qed.

Lemma includes_prefix (needle a w : jstring) :
  includes needle (a ++ w) = false -> includes needle a = false.
Proof.
  induction a as [|c a IH]; cbn [app].
  - destruct needle as [|x n]; [destruct w; discriminate | reflexivity].
  - cbn [includes]. intros H. apply orb_false_iff in H as [H1 H2].
    rewrite (IH H2), orb_false_r.
    destruct (startsWith needle (c :: a)) eqn:E; [| reflexivity].
    apply (startsWith_app _ _ w) in E. cbn [app] in E. congruence.
Qed.

Lemma includes_dropSpaces (needle s : jstring) :
  includes needle s = false -> includes needle (dropSpaces s) = false.
Proof.
  induction s as [|c t IH]; [auto |]. cbn [dropSpaces].
  destruct (isSpace c); [| auto].
  intros H. apply IH. cbn [includes] in H. now apply orb_false_iff in H.
Qed.

Lemma includes_trim (needle s : jstring) :
  includes needle s = false -> includes needle (trim s) = false.
Proof.
  intros H. unfold trim, trimStart. apply includes_dropSpaces in H.
  destruct (trimEnd_split (dropSpaces s)) as [w [E _]].
  rewrite E in H. now apply includes_prefix in H.
Qed.

(** Whatever the markup and the browser, the plain text neither starts nor
    ends with white space, holds no non-breaking space, and never has
    three line feeds in a row: no two blank lines follow each other. *)
Theorem plainText_shape (platform : Platform) (markup : jstring) :
  let text := markupToPlainText platform markup in
  trim text = text
  /\ Forall (fun c => c <> NBSP) text
  /\ includes [LF; LF; LF] text = false.
Proof.
  cbv zeta. unfold markupToPlainText.
  destruct (negb (truthy markup)); [repeat split; constructor |].
  split; [apply trim_idem |]. split.
  - apply trim_Forall.
    apply (replaceAll_constRule_Forall _ reBlankLines);
      [repeat constructor; discriminate |].
    apply join_Forall; [repeat constructor; discriminate |].
    apply Forall_forall. intros line Hline.
    apply in_map_iff in Hline as [l0 [<- Hl0]].
    assert (H0 : Forall (fun c => c <> NBSP) l0).
    { eapply (proj1 (Forall_forall _ _)); [| exact Hl0].
      apply splitOn_Forall, replaceChar_gone.
      repeat constructor; discriminate. }
    unfold normalizeLine. destruct (startsWith _ l0); [exact H0 |].
    now apply dropSpaces_Forall.
  - apply includes_trim, blankLines_collapsed.
Qed.

(** ** The clipboard projector *)

Lemma getAttribute_setAttribute (attrs : list (jstring * jstring))
    (name value : jstring) :
  getAttribute (setAttribute attrs name value) name = Some value.
Proof.
  induction attrs as [|[k v] rest IH]; cbn [setAttribute getAttribute].
  - now rewrite jeqb_refl.
  - destruct (jeqb k name) eqn:E; cbn [getAttribute]; now rewrite E.
Qed.

Lemma getAttribute_setAttribute_other (attrs : list (jstring * jstring))
    (name value other : jstring) :
  name <> other ->
  getAttribute (setAttribute attrs name value) other = getAttribute attrs other.
Proof.
  intros Hne.
  assert (Hno : jeqb name other = false).
  { destruct (jeqb name other) eqn:E; [| reflexivity].
    apply jeqb_eq in E. contradiction. }
  induction attrs as [|[k v] rest IH]; cbn [setAttribute getAttribute].
  - now rewrite Hno.
  - destruct (jeqb k name) eqn:E; cbn [getAttribute].
    + apply jeqb_eq in E. subst k. now rewrite Hno.
    + destruct (jeqb k other); [reflexivity | exact IH].
Qed.

Lemma decorateBlocks_element (t : jstring) a kids :
  decorateBlocks (Element t a kids)
  = if isKeepBlock t then
      Element t
        (setAttribute (setAttribute a (js "dir") (js "ltr"))
           (js "style") KEEP_BLOCK_STYLE)
        [Element (js "SPAN") [(js "style", keepSpanStyle t)]
           (map decorateBlocks kids)]
    else Element t a (map decorateBlocks kids).
Proof. reflexivity. Qed.

(** The decoration moves no text: the text of a decorated tree is the
    text of the tree. *)
Theorem decorateBlocks_text (n : Node) :
  Browser.textContent (decorateBlocks n) = Browser.textContent n.
Proof.
  induction n as [n IH] using Node_size_ind.
  destruct n as [d | t a kids | d]; try reflexivity.
  assert (Hkids : concat (map Browser.textContent (map decorateBlocks kids))
                  = concat (map Browser.textContent kids)).
  { rewrite map_map. f_equal. apply map_ext_in. intros k Hk.
    apply IH. now apply nodeSize_child. }
  rewrite decorateBlocks_element.
  destruct (isKeepBlock t); cbn [Browser.textContent map concat];
    rewrite ?app_nil_r; exact Hkids.
Qed.

(** After the decoration every [p], [h1] and [h2] of the tree, at any
    depth, has [dir="ltr"], the block style, and a single child: a span
    with the 15pt style under [h1], the 13.5pt style under [h2] and the
    11pt style under [p]; an attribute the block had under another name is
    still there. *)
Theorem decorateBlocks_decorates (n : Node) :
  AllDecorated (decorateBlocks n)
  /\ (forall name,
        name <> js "dir" -> name <> js "style" ->
        getAttribute (attributesOf (decorateBlocks n)) name
        = getAttribute (attributesOf n) name).
Proof.
  split.
  - induction n as [n IH] using Node_size_ind.
    destruct n as [d | t a kids | d]; try exact I.
    assert (Hkids : (fix all (l : list Node) : Prop :=
                       match l with
                       | [] => True
                       | k :: l' => AllDecorated k /\ all l'
                       end) (map decorateBlocks kids)).
    { assert (Hin : forall k, In k kids -> AllDecorated (decorateBlocks k))
        by (intros k Hk; apply IH; now apply nodeSize_child).
      clear IH. induction kids as [|k kids IHk]; [exact I |].
      cbn [map]. split; [apply Hin; now left |].
      apply IHk. intros k' Hk'. apply Hin. now right. }
    rewrite decorateBlocks_element. destruct (isKeepBlock t) eqn:Et.
    + cbn [AllDecorated]. split.
      * intros _. split; [| split].
        -- rewrite getAttribute_setAttribute_other by discriminate.
           apply getAttribute_setAttribute.
        -- apply getAttribute_setAttribute.
        -- eexists. reflexivity.
      * split; [| exact I]. cbn [AllDecorated]. split; [| exact Hkids].
        intros H. discriminate H.
    + cbn [AllDecorated]. split; [| exact Hkids].
      intros H. congruence.
  - intros name Hd Hs. destruct n as [d | t a kids | d]; try reflexivity.
    rewrite decorateBlocks_element. destruct (isKeepBlock t); [| reflexivity].
    cbn [attributesOf].
    rewrite !getAttribute_setAttribute_other by congruence. reflexivity.
Qed.

(** ** What the serializer does not look at *)

Lemma isIgnoredNode_serializeNode (k : Node) ic depth :
  isIgnoredNode k = true -> serializeNode k ic depth = [].
Proof.
  destruct k as [d | t a kids | d]; try discriminate; [| reflexivity].
  cbn [isIgnoredNode]. intros H. rewrite serializeNode_element.
  cbv zeta. now rewrite H.
Qed.

Lemma isIgnoredNode_withoutIgnored (k : Node) :
  isIgnoredNode (withoutIgnored k) = isIgnoredNode k.
Proof. now destruct k. Qed.

Lemma isNestedList_withoutIgnored (k : Node) :
  isNestedList (withoutIgnored k) = isNestedList k.
Proof. now destruct k. Qed.

Lemma isIgnoredNode_not_list (k : Node) :
  isIgnoredNode k = true -> isNestedList k = false.
Proof.
  destruct k as [d | t a kids | d]; try reflexivity.
  cbn [isIgnoredNode isNestedList]. intros H.
  apply orb_true_iff in H as [H | H]; apply jeqb_eq in H; now subst t.
Qed.

Lemma startValueOf_startOnly (isOrdered : bool) attrs :
  startValueOf isOrdered (if isOrdered then startOnly attrs else [])
  = startValueOf isOrdered attrs.
Proof.
  destruct isOrdered; [| reflexivity].
  unfold startValueOf, startOnly.
  destruct (getAttribute attrs (js "start")) as [v |]; reflexivity.
Qed.

Lemma concat_map_withoutIgnored (f g : Node -> jstring) (kids : list Node) :
  (forall k, In k kids -> g (withoutIgnored k) = f k) ->
  (forall k, isIgnoredNode k = true -> f k = []) ->
  concat (map g (filter (fun k => negb (isIgnoredNode k))
                   (map withoutIgnored kids)))
  = concat (map f kids).
Proof.
  intros Hg Hf. induction kids as [|k kids IH]; [reflexivity |].
  cbn [map filter]. rewrite isIgnoredNode_withoutIgnored.
  assert (IH' := IH (fun k' Hk' => Hg k' (or_intror Hk'))).
  destruct (isIgnoredNode k) eqn:E; cbn [negb map concat].
  - rewrite (Hf k E). exact IH'.
  - rewrite IH'. f_equal. apply Hg. now left.
Qed.

Lemma listLoop_withoutIgnored isOrdered depth (kids : list Node) current :
  (forall li g, In li kids -> In g (childNodesOf li) ->
     forall ic d, serializeNode (withoutIgnored g) ic d = serializeNode g ic d) ->
  listLoop isOrdered depth
    (filter (fun k => negb (isIgnoredNode k)) (map withoutIgnored kids))
    current
  = listLoop isOrdered depth kids current.
Proof.
  revert current. induction kids as [|k kids IH]; intros current H;
    [reflexivity |].
  assert (IH' := fun c => IH c (fun li g Hli => H li g (or_intror Hli))).
  cbn [map filter]. rewrite isIgnoredNode_withoutIgnored.
  destruct k as [d | t a liNodes | d]; cbn [isIgnoredNode negb];
    [cbn [withoutIgnored listLoop]; apply IH' | | cbn [listLoop]; apply IH'].
  destruct (jeqb t (js "SCRIPT") || jeqb t (js "STYLE")) eqn:Ei;
    cbn [negb].
  - cbn [listLoop].
    assert (E : jeqb t (js "LI") = false).
    { apply orb_true_iff in Ei as [Ei | Ei]; apply jeqb_eq in Ei; now subst t. }
    rewrite E. apply IH'.
  - cbn [withoutIgnored listLoop].
    destruct (jeqb t (js "LI")) eqn:E; [| apply IH'].
    rewrite IH'. f_equal; [| f_equal].
    + do 2 f_equal.
      apply (concat_map_withoutIgnored
               (fun child => if isNestedList child then []
                             else serializeNode child true depth)).
      * intros g Hg. rewrite isNestedList_withoutIgnored.
        destruct (isNestedList g); [reflexivity |].
        apply (H (Element t a liNodes) g); [now left | exact Hg].
      * intros g Hg. destruct (isNestedList g); [reflexivity |].
        now apply isIgnoredNode_serializeNode.
    + apply (concat_map_withoutIgnored
               (fun child => if isNestedList child
                             then serializeNode child true (S depth)
                             else [])).
      * intros g Hg. rewrite isNestedList_withoutIgnored.
        destruct (isNestedList g); [| reflexivity].
        apply (H (Element t a liNodes) g); [now left | exact Hg].
      * intros g Hg. now rewrite (isIgnoredNode_not_list g Hg).
Qed.

(** Comments, [script] and [style] elements, and every attribute but the
    [start] of an [ol] (so every [class], [style], [id], [href] and
    [type]) are invisible to the serializer: a tree and the tree without
    them serialize to the same markup, in either context and at any
    depth. *)
Theorem serializer_ignores_decoration (node : Node) (inlineContext : bool)
    (depth : nat) :
  serializeNode (withoutIgnored node) inlineContext depth
  = serializeNode node inlineContext depth.
Proof.
  revert inlineContext depth.
  induction node as [n IH] using Node_size_ind.
  intros ic depth. destruct n as [d | t a kids | d]; try reflexivity.
  cbn [withoutIgnored].
  destruct (isListTag t) eqn:Hlist.
  - rewrite !serializeNode_listLoop by exact Hlist.
    rewrite startValueOf_startOnly. apply listLoop_withoutIgnored.
    intros li g Hli Hg. destruct li as [d | t' a' liNodes | d];
      try contradiction.
    cbn [childNodesOf] in Hg. apply IH.
    pose proof (nodeSize_child t' a' liNodes g Hg).
    pose proof (nodeSize_child t a kids _ Hli). lia.
  - assert (Hkids : forall ic',
              serializeChildren
                (Element t (if jeqb t (js "OL") then startOnly a else [])
                   (filter (fun k => negb (isIgnoredNode k))
                      (map withoutIgnored kids))) ic' depth
              = serializeChildren (Element t a kids) ic' depth).
    { intros ic'. unfold serializeChildren. cbn [childNodesOf].
      apply (concat_map_withoutIgnored
               (fun child => serializeNode child ic' depth)).
      - intros k Hk. apply IH. now apply nodeSize_child.
      - intros k Hk. now apply isIgnoredNode_serializeNode. }
    rewrite !serializeNode_element. cbv zeta. rewrite Hlist, !Hkids.
    reflexivity.
Qed.

(** ** The Markdown front end *)

Lemma reNewline_text (c : jchar) (t : jstring) :
  c <> CR -> constRule reNewline [LF] (c :: t) = None.
Proof.
  intros Hc. unfold constRule, reNewline, mSeq. cbn [mLit charEq].
  destruct (N.eqb_spec CR c) as [E | _]; [now subst c | reflexivity].
Qed.

Lemma trim_blank (s : jstring) :
  forallb isSpace s = true -> trim s = [].
Proof.
  intros H. unfold trim, trimStart.
  assert (E : dropSpaces s = []).
  { induction s as [|c s IH]; [reflexivity |]. cbn [forallb] in H.
    apply andb_true_iff in H as [Hc Hs]. cbn [dropSpaces]. rewrite Hc.
    now apply IH. }
  now rewrite E.
Qed.

(** Text that is empty or only white space gives the empty string and
    never reaches the renderer.  Any other text reaches it with its line
    ends normalised: what the renderer receives holds no carriage return,
    is no longer than the text, and is the text itself when the text holds
    no carriage return. *)
Theorem markdown_line_ends (render : jstring -> jstring) (markdown : jstring) :
  (forallb isSpace markdown = true ->
   convertMarkdownToHtml render markdown = [])
  /\ exists normalized,
       (truthy (trim markdown) = true ->
        convertMarkdownToHtml render markdown = render normalized)
       /\ Forall (fun c => c <> CR) normalized
       /\ length normalized <= length markdown
       /\ (Forall (fun c => c <> CR) markdown -> normalized = markdown).
Proof.
  split.
  - intros H. unfold convertMarkdownToHtml. rewrite (trim_blank _ H).
    cbn [truthy negb]. now rewrite orb_true_r.
  - exists (replaceAll (constRule reNewline [LF]) markdown). repeat split.
    + intros H. unfold convertMarkdownToHtml. rewrite H.
      destruct markdown as [|c t]; [discriminate H | reflexivity].
    + assert (Hn : forall n s, length s < n ->
                Forall (fun c => c <> CR)
                  (replaceAll (constRule reNewline [LF]) s)).
      { induction n as [|n IH]; intros s Hlen; [lia |].
        destruct s as [|c t]; [rewrite replaceAll_nil; constructor |].
        rewrite (replaceAll_cons _).
        destruct (constRule reNewline [LF] (c :: t)) as [[o rest] |] eqn:E.
        - pose proof (ruleOk _ _ _ E) as Hr. unfold constRule in E.
          destruct (reNewline (c :: t)) as [[a r] |]; [| discriminate].
          injection E as <- <-.
          constructor; [discriminate | apply IH; lia].
        - constructor; [| apply IH; cbn in Hlen; lia].
          intros ->. unfold constRule, reNewline, mSeq, mOpt in E.
          cbn [mLit charEq] in E. change (N.eqb CR CR) with true in E.
          destruct t as [|d t]; [discriminate E |].
          destruct (N.eqb LF d); discriminate E. }
      apply Hn with (S (length markdown)). lia.
    + apply (replaceAll_length _). intros s out rest E.
      unfold constRule in E.
      destruct (reNewline s) as [[a r] |] eqn:Em; [| discriminate].
      injection E as <- <-. pose proof (progress _ _ _ Em) as Ha.
      pose proof (sound _ _ _ Em) as ->.
      destruct a as [|x a]; [contradiction |].
      rewrite length_app. cbn [length]. lia.
    + intros H. apply (replaceAll_text_only _ CR); [| exact H].
      intros c t Hc. now apply reNewline_text.
Qed.

(** ** The markup of a conversion *)

Lemma tag_tail (t : jstring) :
  In t tagTokens ->
  exists body, t = LT :: body /\ Forall (fun c => c <> LT) body.
Proof.
  intros H. simpl in H.
  repeat (destruct H as [<- | H];
          [eexists; split; [reflexivity | repeat constructor; discriminate] |]).
  contradiction.
Qed.

Lemma first_GT (u u' x y : jstring) :
  Forall (fun c => c <> GT) u -> Forall (fun c => c <> GT) u' ->
  u ++ GT :: x = u' ++ GT :: y -> u = u' /\ x = y.
Proof.
  intros Hu. revert u'. induction Hu as [|c u Hc _ IH]; intros u' Hu' E.
  - destruct u' as [|c' u']; cbn in E.
    + injection E as ->. now split.
    + injection E as E1 _. inversion Hu'; subst. congruence.
  - destruct u' as [|c' u']; cbn in E.
    + injection E as E1 _. congruence.
    + injection E as -> E2. inversion Hu'; subst.
      destruct (IH u' H2 E2) as [-> ->]. now split.
Qed.

(** Two tags that start at the same place are the same tag. *)
Lemma tag_prefix_eq (t t' x y : jstring) :
  In t tagTokens -> In t' tagTokens -> t ++ x = t' ++ y -> t = t' /\ x = y.
Proof.
  intros Ht Ht' E.
  destruct (tag_shape t Ht) as [u [-> Hu]].
  destruct (tag_shape t' Ht') as [u' [-> Hu']].
  rewrite <- !app_assoc in E. cbn [app] in E.
  destruct (first_GT u u' x y Hu Hu' E) as [-> ->]. now split.
Qed.

Lemma flatten_nil_inv (l : list Piece) :
  Forall wellFormed l -> flatten l = [] -> l = [].
Proof.
  destruct 1 as [| [c | t] l Hp _]; [reflexivity | discriminate |].
  rewrite flatten_tag. destruct (tag_head t Hp) as [t' ->]. discriminate.
Qed.

(** Where a tag stands in the text of well-formed pieces, it is one of the
    pieces. *)
Lemma pieces_split_tag (l : list Piece) (a t b : jstring) :
  Forall wellFormed l -> In t tagTokens -> flatten l = a ++ t ++ b ->
  exists l1 l2, l = l1 ++ PTag t :: l2 /\ flatten l1 = a /\ flatten l2 = b.
Proof.
  intros Hl Ht. revert a.
  induction Hl as [| p l Hp Hl IH]; intros a E.
  - destruct (tag_head t Ht) as [t' ->]. destruct a; discriminate E.
  - destruct p as [c | t'].
    + rewrite flatten_char in E. destruct a as [|x a].
      * destruct (tag_head t Ht) as [t0 ->]. cbn in E. injection E as -> _.
        destruct Hp as [Hp _]. now contradiction Hp.
      * cbn [app] in E. injection E as Ec E. subst x.
        destruct (IH a E) as (l1 & l2 & -> & <- & <-).
        exists (PChar c :: l1), l2. now rewrite flatten_char.
    + rewrite flatten_tag in E. cbn [wellFormed] in Hp.
      apply app_eq_app in E as [w [[E1 E2] | [E1 E2]]].
      * (* the tag [t'] runs beyond [a] *)
        destruct a as [|x a].
        -- cbn [app] in E1. subst w. symmetry in E2.
           destruct (tag_prefix_eq t' t _ _ Hp Ht E2) as [-> <-].
           exists [], l. now split.
        -- destruct (tag_tail t' Hp) as [body [Eb Hb]].
           destruct w as [|y w].
           ++ rewrite app_nil_r in E1. subst t'. cbn [app] in E2.
              symmetry in E2.
              destruct (IH [] E2) as (l1 & l2 & -> & E3 & <-).
              apply flatten_nil_inv in E3;
                [| now apply Forall_app in Hl as [Hl _]].
              subst l1. exists [PTag (x :: a)], l2.
              cbn [app]. rewrite flatten_tag.
              cbn [flatten flat_map]. rewrite app_nil_r. now split.
           ++ exfalso. destruct (tag_head t Ht) as [t0 Et]. subst t.
              cbn [app] in E2. injection E2 as Ey _. subst y.
              rewrite Eb in E1. cbn [app] in E1. injection E1 as _ E1.
              rewrite E1 in Hb. apply Forall_app in Hb as [_ Hb].
              inversion Hb as [|? ? Hne _]; subst. now apply Hne.
      * (* the tag [t'] ends within [a] *)
        subst a.
        destruct (IH w E2) as (l1 & l2 & -> & <- & <-).
        exists (PTag t' :: l1), l2. rewrite flatten_tag. now split.
Qed.

Lemma piece_keeps (P : jchar -> Prop) (l l' : list Piece) :
  Squeezed l l' -> Forall P (flatten l) -> Forall P (flatten l').
Proof.
  induction 1 as [| p l l' _ IH | c l l' _ _ IH]; intros H.
  - exact H.
  - change (flatten (p :: l)) with (pieceText p ++ flatten l) in H.
    change (flatten (p :: l')) with (pieceText p ++ flatten l').
    apply Forall_app in H as [H1 H2]. apply Forall_app. auto.
  - rewrite flatten_char in H. inversion H; subst. auto.
Qed.

Lemma Squeezed_tag_inv (t : jstring) (l l' : list Piece) :
  Squeezed (PTag t :: l) l' ->
  exists l'', l' = PTag t :: l'' /\ Squeezed l l''.
Proof.
  intros H. inversion H; subst. eexists. split; [reflexivity | assumption].
Qed.

Lemma Squeezed_snoc_tag (t : jstring) (l l' : list Piece) :
  Squeezed (l ++ [PTag t]) l' ->
  exists l'', l' = l'' ++ [PTag t] /\ Squeezed l l''.
Proof.
  revert l'. induction l as [|p l IH]; intros l' H; cbn [app] in H.
  - inversion H as [| ? ? ? H1 |]; subst. inversion H1; subst.
    exists []. split; [reflexivity | constructor].
  - inversion H as [| ? ? l0 H1 | c ? ? Hc H1]; subst.
    + destruct (IH _ H1) as [l'' [-> Hs]].
      exists (p :: l''). split; [reflexivity | now constructor].
    + destruct (IH _ H1) as [l'' [-> Hs]].
      exists l''. split; [reflexivity | now constructor].
Qed.

Lemma noSpaceAfter_at (P : jstring -> bool) (l1 l2 : list Piece) (t : jstring) :
  Forall wellFormed l2 ->
  noSpaceAfter P (l1 ++ PTag t :: l2) -> P t = true ->
  startsSpace (flatten l2) = false.
Proof.
  intros Hl2. induction l1 as [|[c | t'] l1 IH]; cbn [app noSpaceAfter].
  - intros [H _] Ht. rewrite flatten_startsWs by exact Hl2. now apply H.
  - exact IH.
  - intros [_ H]. now apply IH.
Qed.

Lemma noSpaceBefore_at (P : jstring -> bool) (l1 l2 : list Piece) (t : jstring) :
  Forall wellFormed l1 ->
  noSpaceBefore P (l1 ++ PTag t :: l2) -> P t = true ->
  isSpace (last (flatten l1) LT) = false.
Proof.
  intros Hl1 H Ht. induction Hl1 as [| p l1 Hp Hl1 IH]; [reflexivity |].
  destruct p as [c | t'].
  - cbn [app noSpaceBefore] in H. destruct H as [H1 H2].
    rewrite flatten_char. destruct l1 as [|q l1].
    + cbn [app startsTag] in H1. cbn.
      destruct (isSpace c); [| reflexivity].
      specialize (H1 eq_refl). congruence.
    + specialize (IH H2).
      destruct (flatten (q :: l1)) as [|x s] eqn:E.
      * apply flatten_nil_inv in E; [discriminate | exact Hl1].
      * exact IH.
  - cbn [app noSpaceBefore] in H. rewrite flatten_tag.
    destruct l1 as [|q l1].
    + cbn [flatten flat_map]. rewrite app_nil_r.
      destruct (tag_shape t' Hp) as [body [-> _]].
      now rewrite last_last.
    + specialize (IH H).
      destruct (flatten (q :: l1)) as [|x s] eqn:E.
      * apply flatten_nil_inv in E; [discriminate | exact Hl1].
      * rewrite last_app_cons by discriminate. exact IH.
Qed.

(** What the cleaner makes of what the serializer wrote, as pieces: some
    of the white space is deleted, and none is left where the cleaner
    deletes it. *)
Lemma cleanupOutput_fragments (nodes : list Node) (ic : bool) (depth : nat) :
  exists l1 l,
    concat (filter truthy
      (map (fun node => serializeNode node ic depth) nodes)) = flatten l1
    /\ Squeezed l1 l
    /\ cleanupOutput (concat (filter truthy
         (map (fun node => serializeNode node ic depth) nodes))) = flatten l
    /\ Tidy l1 /\ Tidy l
    /\ noSpaceAfter isOpenP l /\ noSpaceAfter isOpenHeading l
    /\ noSpaceAfter isBr l /\ noSpaceBefore isBlockTag l.
Proof.
  destruct (fragments_Tidy nodes ic depth) as [l1 [E1 H1]].
  rewrite E1.
  pose proof (GoodPar_removeEmptyParagraphs l1 (proj1 H1) (proj1 (proj2 H1)))
    as E.
  destruct (cleanupOutput_squeezed (flatten l1) l1 (proj1 H1) E)
    as (l & Hs & El & H2 & H3 & H4 & H5 & _).
  exists l1, l. repeat split; try assumption; try apply H1;
    apply (Tidy_Squeezed l1 l Hs H1).
Qed.

(** The [html] of a conversion is what the cleaner makes of the serialized
    nodes of some list. *)
Lemma html_cleaned (platform : Platform) (rawHtml : jstring) :
  exists nodes,
    html (convertRichTextToKeepMarkup platform rawHtml)
    = cleanupOutput (concat (filter truthy
        (map (fun node => serializeNode node false 0) nodes))).
Proof.
  unfold convertRichTextToKeepMarkup.
  destruct (negb (truthy _)); cbn [html].
  - now exists [].
  - eexists. reflexivity.
Qed.

(** In the [html] of a conversion no white space follows [<p>], [<h1>],
    [<h2>] or [<br />], and none comes before a paragraph, heading or
    line-break tag, opening or closing. *)
Theorem html_block_spacing (platform : Platform) (rawHtml a t b : jstring) :
  html (convertRichTextToKeepMarkup platform rawHtml) = a ++ t ++ b ->
  (In t spaceFreeAfter -> startsSpace b = false)
  /\ (In t spaceFreeBefore -> isSpace (last a LT) = false).
Proof.
  intros E.
  destruct (html_cleaned platform rawHtml) as [nodes En].
  destruct (cleanupOutput_fragments nodes false 0)
    as (l1 & l & _ & _ & El & _ & Hl & H2 & H3 & H4 & H5).
  rewrite En, El in E.
  assert (Hsplit : In t tagTokens ->
            exists la lb, l = la ++ PTag t :: lb
                          /\ flatten la = a /\ flatten lb = b).
  { intros Ht. now apply pieces_split_tag; [apply Hl | |]. }
  assert (Hwf : forall la lb, l = la ++ PTag t :: lb ->
            Forall wellFormed la /\ Forall wellFormed lb).
  { intros la lb ->. destruct Hl as [Hl _].
    apply Forall_app in Hl as [Ha Hb]. inversion Hb; subst. now split. }
  split; intros Hin.
  - destruct Hsplit as (la & lb & -> & <- & <-).
    { cbn in Hin |- *. intuition. }
    destruct (Hwf la lb eq_refl) as [_ Hb].
    cbn in Hin. destruct Hin as [<- | [<- | [<- | [<- | []]]]].
    + now apply (noSpaceAfter_at isOpenP la lb (js "<p>")).
    + now apply (noSpaceAfter_at isOpenHeading la lb (js "<h1>")).
    + now apply (noSpaceAfter_at isOpenHeading la lb (js "<h2>")).
    + now apply (noSpaceAfter_at isBr la lb (js "<br />")).
  - destruct Hsplit as (la & lb & -> & <- & <-).
    { cbn in Hin |- *. intuition. }
    destruct (Hwf la lb eq_refl) as [Ha _].
    apply (noSpaceBefore_at isBlockTag la lb t Ha H5).
    cbn in Hin.
    repeat (destruct Hin as [<- | Hin]; [reflexivity |]). contradiction.
Qed.

Lemma html_block_spacing_witness :
  startsSpace (js "a</h1></p>") = false
  /\ isSpace (last (js "<p><h1>a") LT) = false.
Proof.
  split.
  - apply (html_block_spacing Browser.platform (js "<h1> a </h1>")
             (js "<p>") (js "<h1>") (js "a</h1></p>")).
    + vm_compute. reflexivity.
    + cbn. auto.
  - apply (html_block_spacing Browser.platform (js "<h1> a </h1>")
             (js "<p><h1>a") (js "</h1>") (js "</p>")).
    + vm_compute. reflexivity.
    + cbn. auto 10.
Defined.

Lemma escapeHtml_keepSafe (value : jstring) : Forall keepSafe (escapeHtml value).
Proof.
  rewrite escapeHtml_escapeOne. induction value as [|c v IH]; [constructor |].
  cbn [flat_map]. apply Forall_app. split; [| exact IH].
  destruct (escapeOne_cases c)
    as [[_ ->] | [[_ ->] | [[_ ->] | [[_ ->] | [[_ ->] | H]]]]];
    try (repeat constructor; discriminate).
  destruct H as (H1 & _ & _ & _ & H5 & ->). repeat constructor; assumption.
Qed.

Lemma digits_keepSafe (s : jstring) :
  Forall (fun c => isDigit c = true) s -> Forall keepSafe s.
Proof.
  apply Forall_impl. intros c H. unfold isDigit in H.
  apply andb_true_iff in H as [A B]. apply N.leb_le in A. apply N.leb_le in B.
  split; intros ->; unfold NBSP, QUOT in *; lia.
Qed.

Lemma itemParagraph_keepSafe isOrdered depth current inlineContent :
  Forall keepSafe inlineContent ->
  Forall keepSafe (itemParagraph isOrdered depth current inlineContent).
Proof.
  intros H. unfold itemParagraph.
  assert (Hlit : forall s, forallb (fun c => negb (N.eqb c NBSP)
                                             && negb (N.eqb c QUOT)) s = true ->
                           Forall keepSafe s).
  { intros s Hs. apply Forall_forall. intros c Hc.
    apply (proj1 (forallb_forall _ _) Hs) in Hc.
    apply andb_true_iff in Hc as [A B].
    split; intros ->; discriminate. }
  repeat (apply Forall_app; split).
  - now apply Hlit.
  - unfold indentOf. destruct depth as [|d]; [constructor |].
    induction (S d * 4) as [|n IH]; [constructor |].
    cbn [repeatStr]. apply Forall_app. split; [now apply Hlit | exact IH].
  - unfold prefixOf. destruct isOrdered; [| now apply Hlit].
    apply Forall_app. split; [| now apply Hlit].
    destruct current as [| [| p | p]]; cbn [numberToString];
      try (now apply Hlit).
    + apply digits_keepSafe, uintChars_digits.
    + constructor; [split; discriminate |].
      apply digits_keepSafe, uintChars_digits.
  - unfold lineContentOf. destruct (truthy inlineContent);
      [exact H | now apply Hlit].
  - now apply Hlit.
Qed.

(** The [html] of a conversion is markup of the restricted grammar: the
    only tags in it are the opening and closing [p], [h1], [h2], [b], [i]
    and [u] and [<br />], none with an attribute, and [<] and [>] occur
    nowhere else.  It holds no double quote and no non-breaking space
    character. *)
Theorem html_alphabet (platform : Platform) (rawHtml : jstring) :
  let result := convertRichTextToKeepMarkup platform rawHtml in
  Markup (html result) /\ Forall keepSafe (html result).
Proof.
  cbv zeta. split; [apply html_Markup |].
  destruct (html_cleaned platform rawHtml) as [nodes ->].
  destruct (cleanupOutput_fragments nodes false 0)
    as (l1 & l & E1 & Hs & -> & _).
  apply (piece_keeps keepSafe l1 l Hs). rewrite <- E1.
  apply (fragments_closed (Forall keepSafe)).
  - constructor.
  - intros a b Ha Hb. apply Forall_app. now split.
  - apply trim_Forall.
  - apply escapeHtml_keepSafe.
  - repeat constructor; discriminate.
  - intros tag inner Htag Hinner. unfold wrapTag.
    assert (Ht : Forall keepSafe tag).
    { cbn in Htag.
      repeat (destruct Htag as [<- | Htag];
              [repeat constructor; discriminate |]).
      contradiction. }
    repeat (apply Forall_app; split); try assumption;
      repeat constructor; discriminate.
  - intros content Hc. unfold wrapParagraph.
    destruct (negb (truthy content)); [constructor |].
    destruct (isEffectivelyEmpty content); [constructor |].
    repeat (apply Forall_app; split);
      [| now apply trim_Forall |]; repeat constructor; discriminate.
  - apply itemParagraph_keepSafe.
Qed.

Lemma wrapParagraph_cases (content : jstring) :
  wrapParagraph content = []
  \/ wrapParagraph content = js "<p>" ++ trim content ++ js "</p>".
Proof.
  unfold wrapParagraph. destruct (negb (truthy content)); [now left |].
  destruct (isEffectivelyEmpty content); [now left | now right].
Qed.

(** When the parser returns the wrapper [div] of the conversion as the one
    node of the body, the [html] is empty or is one outer paragraph: it
    starts with [<p>] and ends with [</p>], whatever blocks the input
    held. *)
Theorem html_outer_paragraph (platform : Platform) (rawHtml : jstring)
    (attrs : list (jstring * jstring)) (kids : list Node) :
  parseBody platform (js "<div>" ++ normalizeInput rawHtml ++ js "</div>")
  = [Element (js "DIV") attrs kids] ->
  let result := convertRichTextToKeepMarkup platform rawHtml in
  html result = []
  \/ exists inner, html result = js "<p>" ++ inner ++ js "</p>".
Proof.
  intros Hbody. cbv zeta. unfold convertRichTextToKeepMarkup.
  destruct (negb (truthy _)); cbn [html]; [now left |].
  rewrite Hbody.
  destruct (cleanupOutput_fragments [Element (js "DIV") attrs kids] false 0)
    as (l1 & l & E1 & Hs & -> & H1 & _).
  cbn [map] in E1. rewrite serializeNode_element in E1. cbv zeta in E1.
  change (jeqb (js "DIV") (js "SCRIPT") || jeqb (js "DIV") (js "STYLE"))
    with false in E1.
  change (inlineTagMap (js "DIV")) with (@None jstring) in E1.
  change (isHeadingTag (js "DIV")) with false in E1.
  change (jeqb (js "DIV") (js "BR")) with false in E1.
  change (isListTag (js "DIV")) with false in E1.
  change (setHas blockTags (js "DIV") && negb false) with true in E1.
  cbv iota in E1.
  destruct (wrapParagraph_cases
              (serializeChildren (Element (js "DIV") attrs kids) false 0))
    as [E | E]; rewrite E in E1.
  - left. cbn in E1. symmetry in E1.
    apply flatten_nil_inv in E1; [| apply H1]. subst l1.
    inversion Hs. reflexivity.
  - right. clear E.
    set (inner := trim (serializeChildren (Element (js "DIV") attrs kids)
                          false 0)) in E1.
    change (filter truthy [js "<p>" ++ inner ++ js "</p>"])
      with [js "<p>" ++ inner ++ js "</p>"] in E1.
    cbn [concat] in E1. rewrite app_nil_r in E1.
    symmetry in E1.
    destruct H1 as [Hl1 _].
    destruct (pieces_split_tag l1 [] (js "<p>") (inner ++ js "</p>") Hl1)
      as (la & l2 & -> & Ea & E2); [cbn; auto | exact E1 |].
    apply flatten_nil_inv in Ea;
      [| now apply Forall_app in Hl1 as [Hl1 _]].
    subst la. cbn [app] in Hl1, Hs. inversion Hl1 as [|? ? _ Hl2]; subst.
    destruct (pieces_split_tag l2 inner (js "</p>") [] Hl2)
      as (l3 & lb & -> & E3 & Eb);
      [cbn; auto | now rewrite app_nil_r |].
    apply flatten_nil_inv in Eb;
      [| apply Forall_app in Hl2 as [_ Hl2]; now inversion Hl2].
    subst lb.
    apply Squeezed_tag_inv in Hs as [l' [-> Hs]].
    apply Squeezed_snoc_tag in Hs as [l'' [-> Hs]].
    exists (flatten l''). rewrite flatten_tag, flatten_app.
    cbn [flatten flat_map pieceText]. now rewrite app_nil_r.
Qed.

Lemma html_outer_paragraph_witness :
  html (convert (js "<h1>a</h1><ul><li>b</li></ul>")) = []
  \/ exists inner,
       html (convert (js "<h1>a</h1><ul><li>b</li></ul>"))
       = js "<p>" ++ inner ++ js "</p>".
Proof.
  apply (html_outer_paragraph Browser.platform
           (js "<h1>a</h1><ul><li>b</li></ul>") []
           [Element (js "H1") [] [Text (js "a")];
            Element (js "UL") []
              [Element (js "LI") [] [Text (js "b")]]]).
  vm_compute. reflexivity.
Defined.


(** ** The three results for plain text *)

Lemma escapeText_id (s : jstring) :
  Forall (fun c => c <> LT) s -> Forall (fun c => c <> GT) s ->
  Forall (fun c => c <> AMP) s -> Forall (fun c => c <> NBSP) s ->
  Browser.escapeText s = s.
Proof.
  unfold Browser.escapeText.
  induction s as [|c t IH]; [reflexivity |]. intros Hl Hg Ha Hn.
  inversion Hl; inversion Hg; inversion Ha; inversion Hn; subst.
  cbn [flat_map].
  rewrite (proj2 (N.eqb_neq c AMP)), (proj2 (N.eqb_neq c NBSP)),
    (proj2 (N.eqb_neq c LT)), (proj2 (N.eqb_neq c GT)) by assumption.
  cbn [app]. f_equal. now apply IH.
Qed.

Section PlainTextProjections.

Variable w : jstring.
Hypothesis Hw : PlainText w.

Lemma html_plain : html (convert w) = paragraphOf w.
Proof.
  destruct (textOnlyOf_plain w Hw) as (T1 & _ & _).
  assert (Htruthy : truthy w = true).
  { destruct (PlainText_facts w Hw) as (H0 & _).
    destruct w; [congruence | reflexivity]. }
  pose proof (normalizeInput_plain w Hw [] [] (Forall_nil _) (Forall_nil _))
    as N.
  cbn [app] in N. rewrite app_nil_r in N.
  rewrite html_convert by (now rewrite N, T1).
  rewrite N, (parse_plain w (proj1 Hw)).
  cbn [map]. change (serializeNode (Element (js "DIV") [] [Text w]) false 0)
    with (wrapParagraph (serializeNode (Text w) false 0 ++ [])).
  rewrite app_nil_r, (serializeNode_plain w Hw), (wrapParagraph_plain w Hw).
  change (filter truthy [paragraphOf w]) with [paragraphOf w].
  cbn [concat]. rewrite app_nil_r.
  apply (cleanupOutput_paragraph w Hw).
Qed.

Lemma plainText_paragraph :
  markupToPlainText Browser.platform (paragraphOf w) = w.
Proof.
  destruct (Phrase_free w (proj1 Hw)) as (HLT & HLF & HNB & Htok & Hhd).
  pose proof (proj1 Hw) as (H0 & _ & H1 & H2).
  unfold markupToPlainText.
  replace (truthy (paragraphOf w)) with true by reflexivity.
  cbn [negb]. unfold injectHeadingSeparators, paragraphOf.
  eval_js. cbn [app]. ra_run.
  change (mSeq mSpaces0 reOpenHeading
            (60 :: 112 :: 62 :: w ++ [60; 47; 112; 62])%N) with (@None (jstring * jstring)).
  cbv iota. ra_run.
  unfold innerText, platform, parse. rewrite buildTree_text.
  rewrite tokenize_lit_p, tokenize_text, tokenize_lf by assumption.
  change (tokenize []) with (@nil Token).
  rewrite tokenChars_cons, tokenChars_text. cbn [app tokenChars flat_map].
  rewrite replaceChar_app, (replaceChar_id NBSP _ w) by assumption.
  change (replaceChar NBSP [32%N] [LF]) with [LF].
  rewrite (splitOn_line LF w) by assumption.
  cbn [splitOn map]. rewrite (normalizeLine_phrase w) by apply Hw.
  change (normalizeLine []) with (@nil jchar). cbn [join app].
  ra_run. unfold trim, trimStart.
  rewrite (dropSpaces_app_keep w) by assumption.
  apply (trimEnd_tail [] w [LF]); first [assumption | repeat constructor].
Qed.

Lemma escapeText_plain : Browser.escapeText w = w.
Proof.
  destruct (PlainText_facts w Hw) as (_ & Hl & Hg & Ha & Hn & _).
  now apply escapeText_id.
Qed.

Lemma keepHtml_paragraph :
  convertToKeepClipboardHtml Browser.platform (paragraphOf w)
  = keepParagraphOf w.
Proof.
  unfold convertToKeepClipboardHtml.
  replace (truthy (paragraphOf w)) with true by reflexivity.
  cbn [negb parseBody Browser.platform]. rewrite (parse_paragraph w (proj1 Hw)).
  change (map decorateBlocks
            [Element (js "DIV") [] [Element (js "P") [] [Text w]]])
    with [Element (js "DIV") []
            [Element (js "P")
               [(js "dir", js "ltr"); (js "style", KEEP_BLOCK_STYLE)]
               [Element (js "SPAN") [(js "style", KEEP_TEXT_BASE)]
                  [Text w]]]].
  cbn [innerHTML Browser.platform map concat Browser.serialize].
  change (oneOf voidNames (map lowerAscii (js "DIV"))) with false.
  change (oneOf voidNames (map lowerAscii (js "P"))) with false.
  change (oneOf voidNames (map lowerAscii (js "SPAN"))) with false.
  change (isRawTextTag (map lowerAscii (js "DIV"))) with false.
  change (isRawTextTag (map lowerAscii (js "P"))) with false.
  change (isRawTextTag (map lowerAscii (js "SPAN"))) with false.
  cbv iota. cbn [map concat Browser.serialize].
  rewrite escapeText_plain, !app_nil_r. unfold keepParagraphOf.
  rewrite <- !app_assoc. vm_compute. reflexivity.
Qed.

End PlainTextProjections.

(** The two projections are computed from the [html] of the result. *)
Lemma projections_of_html (platform : Platform) (rawHtml : jstring) :
  let result := convertRichTextToKeepMarkup platform rawHtml in
  plainText result = markupToPlainText platform (html result)
  /\ keepHtml result = convertToKeepClipboardHtml platform (html result).
Proof.
  cbv zeta. unfold convertRichTextToKeepMarkup.
  destruct (negb (truthy _)); split; reflexivity.
Qed.

(** Plain text typed into the editor comes out of the conversion
    unchanged as the plain text, and as one decorated paragraph in the
    clipboard markup: the wrapper [div], a [p] with [dir] and the block
    style, and in it one [span] with the 11pt text style around the
    text. *)
Theorem plain_text_projections (w : jstring) :
  PlainText w ->
  plainText (convert w) = w /\ keepHtml (convert w) = keepParagraphOf w.
Proof.
  intros Hw.
  destruct (projections_of_html Browser.platform w) as [Ep Ek].
  pose proof (html_plain w Hw) as Eh.
  unfold convert in *. rewrite Ep, Ek, Eh. split.
  - apply (plainText_paragraph w Hw).
  - apply (keepHtml_paragraph w Hw).
Qed.

Lemma plain_text_projections_witness :
  plainText (convert (js "Buy milk")) = js "Buy milk"
  /\ keepHtml (convert (js "Buy milk")) = keepParagraphOf (js "Buy milk").
Proof.
  apply (plain_text_projections (js "Buy milk")).
  repeat split; try discriminate; try reflexivity;
    repeat constructor; discriminate.
Defined.

(** ** Markup without headings *)

Lemma includes_suffix (needle a s : jstring) :
  includes needle (a ++ s) = false -> includes needle s = false.
Proof.
  induction a as [|c a IH]; [trivial |]. cbn [app includes].
  intros H. apply orb_false_iff in H as [_ H]. now apply IH.
Qed.

Lemma includes_startsWith (needle s : jstring) :
  includes needle s = false -> startsWith needle s = false.
Proof.
  destruct s as [|c t]; cbn [includes]; intros H;
    now apply orb_false_iff in H as [H _].
Qed.

Lemma reOpenHeading_lower (s : jstring) (x : jstring * jstring) :
  reOpenHeading s = Some x ->
  startsWith (js "<h") (map lowerAscii s) = true.
Proof.
  unfold reOpenHeading, mSeq.
  destruct (mLit true (js "<h") s) as [[m r] |] eqn:E; [| discriminate].
  intros _. destruct s as [|c1 [|c2 t]]; try discriminate E.
  - cbn in E. destruct (match lowerAscii c1 with 0%N => _ | _ => _ end);
      discriminate E.
  - change (js "<h") with [60%N; 104%N] in *. cbn [mLit] in E.
    cbn [map startsWith]. unfold charEq in E.
    change (lowerAscii 60%N) with 60%N in E.
    change (lowerAscii 104%N) with 104%N in E.
    destruct (N.eqb 60%N (lowerAscii c1)); [| discriminate E].
    destruct (N.eqb 104%N (lowerAscii c2)); [reflexivity | discriminate E].
Qed.

(** No opening heading tag can be found after any prefix of markup in
    which [<h] does not occur. *)
Lemma reOpenHeading_absent (a s : jstring) :
  includes (js "<h") (map lowerAscii (a ++ s)) = false ->
  reOpenHeading s = None.
Proof.
  intros H. destruct (reOpenHeading s) as [x |] eqn:E; [| reflexivity].
  apply reOpenHeading_lower in E. rewrite map_app in H.
  apply includes_suffix, includes_startsWith in H. congruence.
Qed.

Lemma replaceAll_never (r : rule) `{RuleOk r} (s : jstring) :
  (forall a b, s = a ++ b -> r b = None) -> replaceAll r s = s.
Proof.
  induction s as [|c t IH]; intros Hr; [apply replaceAll_nil |].
  rewrite (replaceAll_none r) by (apply (Hr []); reflexivity).
  f_equal. apply IH. intros a b ->. apply (Hr (c :: a)). reflexivity.
Qed.

(** Markup in which [<h] does not occur, in either case, is returned as it
    is by [injectHeadingSeparators]: no separator paragraph is put between
    paragraphs or after lists. *)
Theorem injectHeadingSeparators_without_heading (markup : jstring) :
  includes (js "<h") (map lowerAscii markup) = false ->
  injectHeadingSeparators markup = markup.
Proof.
  intros H. unfold injectHeadingSeparators.
  assert (E : replaceAll separatorRule markup = markup).
  { apply (replaceAll_never _). intros a b ->. unfold separatorRule.
    destruct (reCloseBlock b) as [[g1 r1] |] eqn:E1; [| reflexivity].
    apply sound in E1. subst b. unfold mSpaces0.
    rewrite (reOpenHeading_absent (a ++ g1 ++ takeSpaces r1)); [reflexivity |].
    rewrite <- !app_assoc, <- takeSpaces_dropSpaces. exact H. }
  rewrite E. unfold mSeq, mSpaces0.
  rewrite (reOpenHeading_absent (takeSpaces markup)); [reflexivity |].
  now rewrite <- takeSpaces_dropSpaces.
Qed.

Lemma injectHeadingSeparators_without_heading_witness :
  injectHeadingSeparators (js "<p>Shopping</p><p>- milk</p>")
  = js "<p>Shopping</p><p>- milk</p>".
Proof.
  apply injectHeadingSeparators_without_heading. vm_compute. reflexivity.
Defined.
